(** * file_organizer: classification and collision-safe relocation

    A shallow embedding of [file_organizer.cpp].  Paths are lists of
    components, the filesystem is a finite map from paths to inodes, console
    output is a list of messages, and every function that touches the
    filesystem or the console is a state transformer over [world] that
    either returns or ends the program with an uncaught exception. *)

From Stdlib Require Import ZArith Ascii.
From stdpp Require Import gmap strings list fin_maps pretty.

Local Open Scope Z_scope.

(** ** Paths ([fs::path]) *)

(** A path is the list of its components; the root is [[]]. *)
Abbreviation path := (list string).

(** [p.filename()]: the last component. *)
Definition filename (p : path) : string := List.last p "".

(** [p.parent_path()]. *)
Definition parent_path (p : path) : path := removelast p.

(** [p / s] for a one-component string [s]: the empty string adds no
    component (it only leaves a trailing separator, which the next [/]
    absorbs). *)
Definition path_append (p : path) (s : string) : path :=
  if decide (s = "") then p else p ++ [s].

Global Arguments path_append : simpl never.

Infix "/:" := path_append (at level 40, left associativity).

(** Position of the rightmost period: [split_last_dot s = Some (pre, ext)]
    when [s = pre ++ ext], [ext] starts with the rightmost period of [s]. *)
Fixpoint split_last_dot (s : string) : option (string * string) :=
  match s with
  | EmptyString => None
  | String c s' =>
      match split_last_dot s' with
      | Some (pre, ext) => Some (String c pre, ext)
      | None =>
          if decide (c = "."%char) then Some (EmptyString, String c s')
          else None
      end
  end.

(** Whether the character [c] occurs in [s]. *)
Fixpoint contains (c : ascii) (s : string) : bool :=
  match s with
  | EmptyString => false
  | String c' s' => bool_decide (c' = c) || contains c s'
  end.

(** [fs::path::extension()] of a filename: empty for ["."], [".."], names
    without a period and names whose only period is the first character;
    otherwise the suffix starting at the rightmost period. *)
Definition extension (name : string) : string :=
  if decide (name = "." ∨ name = "..") then ""
  else match split_last_dot name with
       | Some (String _ _, ext) => ext
       | _ => ""
       end.

(** [fs::path::stem()]: the filename without its extension. *)
Definition stem (name : string) : string :=
  if decide (name = "." ∨ name = "..") then name
  else match split_last_dot name with
       | Some (String c pre, _) => String c pre
       | _ => name
       end.

Definition has_extension (name : string) : bool :=
  bool_decide (extension name ≠ "").

(** [s.substr(1)]. *)
Definition substr1 (s : string) : string :=
  match s with
  | EmptyString => EmptyString
  | String _ s' => s'
  end.

(** ** Configuration *)

Inductive TimeAttribute := Creation | Modification | Access.

(** [uintmax_t] byte counts are only compared, never computed with. *)
Record SizeThresholds := {
  small : N;   (* < small  *)
  medium : N;  (* < medium; 'large' is anything >= medium *)
}.

Definition default_thresholds : SizeThresholds :=
  {| small := 1 * 1024 * 1024; medium := 10 * 1024 * 1024 |}.

Definition categorize_size (size : N) (thresholds : SizeThresholds) : string :=
  if (size <? small thresholds)%N then "small"
  else if (size <? medium thresholds)%N then "medium"
  else "large".

(** ** Calendar and clocks *)

(** The fields of [struct tm] that ["%Y/%m/%d"] reads. *)
Record tm := { tm_year : Z; tm_mon : Z; tm_mday : Z }.

(** [system_clock::time_point]: nanoseconds since the epoch, held in a
    64-bit signed integer. *)
Abbreviation time_point := Z (only parsing).

(** The value that 64-bit two's complement arithmetic leaves of [z]:
    [chrono] durations in nanoseconds are [int64_t], and the program is
    taken to wrap around where they overflow. *)
Definition int64 (z : Z) : Z := (z + 2 ^ 63) `mod` 2 ^ 64 - 2 ^ 63.

(** The largest number of whole seconds that
    [system_clock::duration] holds,
    [floor<seconds>(system_clock::duration::max())]. *)
Definition max_seconds : Z := (2 ^ 63 - 1) `div` 1000000000.

(** [system_clock::to_time_t]: whole seconds, truncated. *)
Definition to_time_t (t : time_point) : Z := Z.quot t 1000000000.

(** Two-digit, zero-padded field ([%m], [%d]). *)
Definition pad2 (n : Z) : string :=
  if decide (0 ≤ n < 10) then "0" +:+ pretty n else pretty n.

(** [put_time(&tm, "%Y/%m/%d")], as the three path components it denotes. *)
Definition put_time_Ymd (t : tm) : path :=
  [pretty (tm_year t + 1900); pad2 (tm_mon t + 1); pad2 (tm_mday t)].

(** ** Filesystem *)

Inductive file_type :=
  | regular (data : string)
  | directory.

(** What the tree records of an entry: its type and bytes, its birth time
    where the filesystem keeps one, and its modification time, in
    nanoseconds since the epoch.  Access times are not part of the tree:
    whether a read advances them depends on how the filesystem is mounted,
    so they are what [stat] reports at the time of the call (see
    [st_atime] below). *)
Record inode := {
  i_type : file_type;
  i_btime : option Z;
  i_mtime : Z;
}.

Global Instance file_type_eq_dec : EqDecision file_type.
Proof. solve_decision. Defined.
Global Instance inode_eq_dec : EqDecision inode.
Proof. solve_decision. Defined.

Abbreviation filesystem := (gmap path inode).

Definition is_regular (i : inode) : bool :=
  match i_type i with regular _ => true | directory => false end.

Definition is_directory (i : inode) : bool :=
  match i_type i with regular _ => false | directory => true end.

(** There is an entry at [p]. *)
Definition present (fs : filesystem) (p : path) : bool :=
  bool_decide (is_Some (fs !! p)).

Definition fs_is_directory (fs : filesystem) (p : path) : bool :=
  match fs !! p with Some i => is_directory i | None => false end.

(** Reading a whole file through [std::ifstream]: a stream that cannot be
    opened or read (nothing there, a directory) yields no bytes.  File
    permissions are not modelled: a regular file that is there can be
    read. *)
Definition slurp (fs : filesystem) (p : path) : string :=
  match fs !! p with
  | Some {| i_type := regular data |} => data
  | _ => ""
  end.

(** All prefixes of [p], shortest first, [p] itself included. *)
Definition prefixes (p : path) : list path :=
  (λ n, take n p) <$> seq 0 (S (length p)).

Global Arguments prefixes : simpl never.

Definition mk_directory (now : Z) : inode :=
  {| i_type := directory; i_btime := Some now; i_mtime := now |}.

(** The calls that can fail for reasons outside the tree (permissions, I/O
    errors, names that are too long). *)
Inductive syscall :=
  | sys_status (p : path)   (* [fs::status], behind [fs::exists] *)
  | sys_statx (p : path)
  | sys_last_write_time (p : path)
  | sys_stat (p : path)
  | sys_file_size (p : path)
  | sys_create_directories (p : path)
  | sys_rename (src dst : path)
  | sys_opendir (p : path).

(** ** Console *)

Inductive message :=
  | WarnCreationTime (p : path)
  | ErrModificationTime (p : path)
  | ErrAccessTime (p : path)
  | ErrFileSize (p : path)
  | SkipAlreadyCorrect (src : path)
  | SkipIdentical (src : path)
  | DryRunWouldMove (src dst : path)
  | Moved (src dst : path)
  | ErrMove (src dst : path)
  | ErrCollection
  | Collected (n : nat)
  | SkipMissing (p : path)
  | DryRunWouldCreateDirectory (d : path)
  | ErrCreateDirectory (d : path)
  | CreatedDirectory (d : path)
  | ErrNoSourceDirectory
  | Usage
  | Banner (src : path) (dry_run : bool) (attr : TimeAttribute)
           (thresholds : SizeThresholds)
  | Completed.

(** The messages that report a file as failed: its directory could not be
    created, or the rename threw. *)
Definition is_failure (m : message) : bool :=
  match m with
  | ErrMove _ _ | ErrCreateDirectory _ => true
  | _ => false
  end.

(** ** State and control *)

Record world := {
  w_fs : filesystem;
  w_clock : Z;            (* what [system_clock::now()] reads *)
  w_out : list message;   (* stdout and stderr, interleaved *)
}.

(** A call returns, or a [filesystem_error] leaves it that nothing up to
    [main] catches: [std::terminate] ends the program.  The only throwing
    calls outside a [try] are those of [fs::exists]; [p] is the path whose
    status could not be read. *)
Inductive outcome (A : Type) :=
  | Returned (a : A)
  | Uncaught (p : path).

Global Arguments Returned {A} a.
Global Arguments Uncaught {A} p.

Definition M (A : Type) : Type := world → outcome A * world.

Global Instance M_ret : MRet M := λ A a w, (Returned a, w).
Global Instance M_bind : MBind M :=
  λ A B k m w,
    match m w with
    | (Returned a, w') => k a w'
    | (Uncaught p, w') => (Uncaught p, w')
    end.

(** [throw fs::filesystem_error(.., p, ..)] with no handler. *)
Definition throw {A} (p : path) : M A := λ w, (Uncaught p, w).

Definition say (m : message) : M unit :=
  λ w, (Returned tt,
        {| w_fs := w_fs w; w_clock := w_clock w; w_out := w_out w ++ [m] |}).

Definition when (b : bool) (m : M unit) : M unit :=
  if b then m else mret tt.

Definition get_fs : M filesystem := λ w, (Returned (w_fs w), w).
Definition put_fs (fs : filesystem) : M unit :=
  λ w, (Returned tt, {| w_fs := fs; w_clock := w_clock w; w_out := w_out w |}).
Definition now : M Z := λ w, (Returned (w_clock w), w).

(** [emitted w w' msgs]: from [w] to [w'] the console gained [msgs] and the
    clock did not move. *)
Definition emitted (w w' : world) (msgs : list message) : Prop :=
  w_out w' = w_out w ++ msgs ∧ w_clock w' = w_clock w.

(** Two worlds with the same tree and the same clock; two computations that
    take such worlds to such worlds, with the same result. *)
Definition agree (w w' : world) : Prop :=
  w_fs w = w_fs w' ∧ w_clock w = w_clock w'.

Definition alike {A} (m m' : M A) : Prop :=
  ∀ w w', agree w w' → (m w).1 = (m' w').1 ∧ agree (m w).2 (m' w').2.

(** ** The specification's wording, where it differs *)

Definition lowercase_ascii (c : ascii) : ascii :=
  let n := nat_of_ascii c in
  if decide (65 ≤ n ≤ 90)%nat then ascii_of_nat (n + 32) else c.

Fixpoint lowercase (s : string) : string :=
  match s with
  | EmptyString => EmptyString
  | String c s' => String (lowercase_ascii c) (lowercase s')
  end.

(** The extension segment as the specification describes it: the extension
    without its period, lowercased, or [no_extension]. *)
Definition spec_extension_segment (name : string) : string :=
  if decide (extension name = "") then "no_extension"
  else lowercase (substr1 (extension name)).


Definition performed_moves (out : list message) : list (path * path) :=
  omap (λ m, match m with Moved s d => Some (s, d) | _ => None end) out.

(** ** Size arguments ([parse_size]) *)

Definition digit (c : ascii) : option N := N.of_nat <$> Ascii.is_nat c.

(** The decimal digits at the front of [s], as a number; [acc] is what was
    read so far, [None] when no digit was read yet. *)
Fixpoint read_digits (acc : option N) (s : string) : option N :=
  match s with
  | EmptyString => acc
  | String c rest =>
      match digit c with
      | Some d => read_digits (Some (default 0%N acc * 10 + d)%N) rest
      | None => acc
      end
  end.

Fixpoint skip_spaces (s : string) : string :=
  match s with
  | EmptyString => EmptyString
  | String c rest => if Ascii.is_space c then skip_spaces rest else s
  end.

Definition ULLONG_MAX : N := 2 ^ 64 - 1.

(** [std::stoull(str)] ([strtoull], base 10): leading white space, an
    optional sign, then digits; what follows the digits is ignored.  [None]
    when it throws: [invalid_argument] without a digit, [out_of_range] above
    [ULLONG_MAX].  A minus sign negates in [unsigned long long]. *)
Definition stoull (str : string) : option N :=
  let s := skip_spaces str in
  let '(negative, s) :=
    match s with
    | String "-" rest => (true, rest)
    | String "+" rest => (false, rest)
    | _ => (false, s)
    end in
  match read_digits None s with
  | None => None
  | Some v =>
      if (ULLONG_MAX <? v)%N then None
      else Some (if negative : bool then ((2 ^ 64 - v) mod 2 ^ 64)%N else v)
  end.

(** [parse_size]: [None] for [false]; otherwise the value stored in
    [size_out], [stoull(str) * 1024 * 1024] in 64-bit arithmetic. *)
Definition parse_size (str : string) : option N :=
  match stoull str with
  | Some v => Some ((((v * 1024) mod 2 ^ 64) * 1024) mod 2 ^ 64)%N
  | None => None
  end.

(** [s] does not go on with a digit. *)
Definition no_leading_digit (s : string) : Prop :=
  match s with
  | EmptyString => True
  | String c _ => digit c = None
  end.

(** ** The image filter of the face-detection tool ([is_image]) *)

Definition image_extensions : list string :=
  [".jpg"; ".jpeg"; ".png"; ".bmp"; ".gif"; ".tiff"].

(** The extension, lowercased with [::tolower], is one of the known ones. *)
Definition is_image (file_path : path) : bool :=
  bool_decide (lowercase (extension (filename file_path)) ∈ image_extensions).

(** ** Sample platforms and trees *)

Definition utc_calendar (t : Z) : tm :=
  let z := t `div` 86400 + 719468 in
  let era := z `div` 146097 in
  let doe := z - era * 146097 in
  let yoe := (doe - doe `div` 1460 + doe `div` 36524 - doe `div` 146096) `div` 365 in
  let doy := doe - (365 * yoe + yoe `div` 4 - yoe `div` 100) in
  let mp := (5 * doy + 2) `div` 153 in
  let d := doy - (153 * mp + 2) `div` 5 + 1 in
  let m := if decide (mp < 10) then mp + 3 else mp - 9 in
  let y := yoe + era * 400 + (if decide (m ≤ 2) then 1 else 0) in
  {| tm_year := y - 1900; tm_mon := m - 1; tm_mday := d |}.

Definition never_faulty : syscall → bool := λ _, false.

(** The renames of one source file throw. *)
Definition rename_fails_for (p : path) : syscall → bool :=
  λ s, match s with sys_rename src _ => bool_decide (src = p) | _ => false end.

(** The size of one file cannot be read. *)
Definition size_fails_for (p : path) : syscall → bool :=
  λ s, match s with sys_file_size q => bool_decide (q = p) | _ => false end.

(** A directory cannot be created. *)
Definition mkdir_fails_for (d : path) : syscall → bool :=
  λ s, match s with
       | sys_create_directories q => bool_decide (q = d)
       | _ => false
       end.

(** [NAME_MAX]: the status of a path with a component of more than 255
    bytes cannot be read ([ENAMETOOLONG]). *)
Definition name_too_long : syscall → bool :=
  λ s, match s with
       | sys_status p => bool_decide (Exists (λ c, (255 < String.length c)%nat) p)
       | _ => false
       end.

(** A directory without search permission: nothing below it can be looked
    up, and it cannot be listed. *)
Definition no_search_permission (d : path) : syscall → bool :=
  λ s, match s with
       | sys_status p => bool_decide (d `prefix_of` p ∧ p ≠ d)
       | sys_opendir p => bool_decide (d `prefix_of` p)
       | _ => false
       end.

(** The file clock is read a hundred nanoseconds after the system clock. *)
Definition hundred_ns : path → Z → Z := λ _ _, 100.

(** The delay changes from one pair of reads to the next. *)
Definition jitter : path → Z → Z := λ _ clock, clock `mod` 1000.

(** Access times as [stat] reports them: here the time of the call. *)
Definition accessed_now : path → Z → Z := λ _ clock, clock.

Definition file (data : string) (t : Z) : inode :=
  {| i_type := regular data; i_btime := Some t; i_mtime := t |}.

Definition file_without_birth_time (data : string) (t : Z) : inode :=
  {| i_type := regular data; i_btime := None; i_mtime := t |}.

Definition dir : inode := mk_directory 0.

(** 2023-11-14 22:13:20 and 2024-03-09 16:00:00 UTC, in nanoseconds, and
    2023-11-15 00:00:00 UTC sharp. *)
Definition day1 : Z := 1700000000 * 1000000000.
Definition day2 : Z := 1710000000 * 1000000000.
Definition midnight : Z := 1700006400 * 1000000000.

Definition bucket : path := ["src"; "txt"; "2023"; "11"; "14"; "small"].

(** Two files with the same name and the same bytes. *)
Definition duplicates : filesystem :=
  list_to_map [ ([], dir); (["src"], dir); (["src"; "a"], dir); (["src"; "b"], dir);
    (["src"; "a"; "x.txt"], file "hello" day1);
    (["src"; "b"; "x.txt"], file "hello" day1) ].

(** Two files with the same name and different bytes. *)
Definition rivals : filesystem :=
  list_to_map [ ([], dir); (["src"], dir); (["src"; "a"], dir); (["src"; "b"], dir);
    (["src"; "a"; "x.txt"], file "hello" day1);
    (["src"; "b"; "x.txt"], file "world" day1) ].


(** A duplicate of a file that sits in a bucket where it does not belong. *)
Definition misplaced : filesystem :=
  list_to_map [ ([], dir); (["src"], dir); (["src"; "zz"], dir);
    (["src"; "txt"], dir); (["src"; "txt"; "2023"], dir);
    (["src"; "txt"; "2023"; "11"], dir); (["src"; "txt"; "2023"; "11"; "14"], dir);
    (bucket, dir);
    (["src"; "zz"; "x.txt"], file "hello" day1);
    (bucket ++ ["x.txt"], file "hello" day2) ].

(** Upper-case extension, trailing period, no birth time. *)
Definition oddities : filesystem :=
  list_to_map [ ([], dir); (["src"], dir);
    (["src"; "y.TXT"], file "world" day1);
    (["src"; "foo."], file "world" day1);
    (["src"; "old.log"], file_without_birth_time "entry" day1) ].

(** A name of 255 bytes, the longest a directory entry can have. *)
Definition long_name : string :=
  String.concat "" (replicate 251 "a") +:+ ".txt".

(** A file in a bucket, and a newcomer with the same long name and other
    bytes headed there. *)
Definition long_rivals : filesystem :=
  list_to_map [ ([], dir); (["src"], dir); (["src"; "a"], dir);
    (["src"; "txt"], dir); (["src"; "txt"; "2023"], dir);
    (["src"; "txt"; "2023"; "11"], dir); (["src"; "txt"; "2023"; "11"; "14"], dir);
    (bucket, dir);
    (["src"; "a"; long_name], file "world" day1);
    (bucket ++ [long_name], file "hello" day1) ].

(** Two files of different kinds next to a directory that is in the way of
    neither. *)
Definition two_kinds : filesystem :=
  list_to_map [ ([], dir); (["src"], dir); (["src"; "txt"], dir);
    (["src"; "a.txt"], file "hello" day1);
    (["src"; "b.log"], file "entry" day1) ].


(** A file last written at midnight sharp. *)
Definition at_midnight : filesystem :=
  list_to_map [ ([], dir); (["src"], dir);
    (["src"; "new.txt"], file "hello" midnight) ].

Definition boot (fs : filesystem) : world :=
  {| w_fs := fs; w_clock := day2; w_out := [] |}.

(** ** The program *)

Section Organizer.

(** The platform: whether the build has [statx] ([HAS_STATX]), the local
    calendar ([localtime_r]), which calls fail for reasons outside the tree
    itself (permissions, I/O errors, names that are too long), the access
    time in nanoseconds that [stat] reports for a path at a given time, and
    the time that passes between the two clock reads of the conversion of a
    modification time, for the file at a path at a given time. *)
Variable HAS_STATX : bool.
Variable localtime_r : Z → tm.
Variable faulty : syscall → bool.
Variable st_atime : path → Z → Z.
Variable clock_skew : path → Z → Z.

(** *** Library calls *)

(** [fs::exists(p)], the overload without [error_code]: a status that
    cannot be read, other than because nothing is there, raises
    [filesystem_error]. *)
Definition fs_exists (p : path) : M bool :=
  if faulty (sys_status p) then throw p
  else fs ← get_fs; mret (present fs p).

(** [AT_STATX_FORCE_SYNC | AT_STATX_DONT_SYNC], the mask of the two
    synchronisation bits. *)
Definition AT_STATX_SYNC_TYPE : Z := 0x6000.

(** [syscall(SYS_statx, AT_FDCWD, p, flags, STATX_BTIME, &stx)]: [None]
    when the call returns non-zero, otherwise the birth time if [stx_mask]
    reports one.  The kernel refuses [flags] that set both synchronisation
    bits ([EINVAL]). *)
Definition statx (flags : Z) (fs : filesystem) (p : path) : option (option Z) :=
  if decide (Z.land flags AT_STATX_SYNC_TYPE = AT_STATX_SYNC_TYPE) then None
  else if faulty (sys_statx p) then None
  else i_btime <$> fs !! p.

(** The birth time that the call of [get_creation_time] yields, with
    [flags = AT_STATX_SYNC_TYPE]. *)
Definition statx_btime (fs : filesystem) (p : path) : option Z :=
  mjoin (statx AT_STATX_SYNC_TYPE fs p).

(** [fs::last_write_time(p, ec)]; [None] when [ec] is set: the call fails,
    or the seconds do not fit [system_clock::duration] ([EOVERFLOW]).  The
    result is a [file_clock] time point; the model keeps it on the epoch of
    the system clock, which makes no difference to what [get_file_time]
    computes from it in 64 bits. *)
Definition last_write_time (fs : filesystem) (p : path) : option Z :=
  if faulty (sys_last_write_time p) then None
  else match fs !! p with
       | Some i =>
           if decide (i_mtime i `div` 1000000000 < max_seconds)
           then Some (int64 (i_mtime i))
           else None
       | None => None
       end.

(** [file_clock::now()], read after [system_clock::now()]. *)
Definition file_clock_now (p : path) : M Z :=
  λ w, (Returned (w_clock w + clock_skew p (w_clock w)), w).

(** [stat(p, &sb)], [sb.st_atim] in nanoseconds; [None] when the call
    returns non-zero. *)
Definition stat_atime (p : path) : M (option Z) :=
  λ w, (Returned (if faulty (sys_stat p) then None
                  else if present (w_fs w) p
                       then Some (st_atime p (w_clock w)) else None), w).

(** [fs::file_size(p, ec)]: defined for regular files only. *)
Definition file_size (fs : filesystem) (p : path) : option N :=
  if faulty (sys_file_size p) then None
  else match fs !! p with
       | Some {| i_type := regular data |} => Some (N.of_nat (String.length data))
       | _ => None
       end.

(** [fs::create_directories(p, ec)]: creates every missing directory on the
    way to [p]; [true] only when [p] was created.  An existing [p], or a
    non-directory on the way, makes it return [false] and change nothing. *)
Definition create_directories (p : path) : M bool := λ w,
  let fs := w_fs w in
  if faulty (sys_create_directories p) then (Returned false, w)
  else if present fs p then (Returned false, w)
  else if bool_decide (Forall (λ d, fs !! d = None ∨ fs_is_directory fs d) (prefixes p))
  then (Returned true,
        {| w_fs := fs ∪ list_to_map ((λ d, (d, mk_directory (w_clock w))) <$> prefixes p);
           w_clock := w_clock w; w_out := w_out w |})
  else (Returned false, w).

(** Re-rooting of a path below [src] to below [dst]. *)
Definition rebase (src dst q : path) : path :=
  if decide (src `prefix_of` q) then dst ++ drop (length src) q else q.

(** [fs::rename(src, dst)]; [None] when it throws [filesystem_error].  The
    parent of [dst] must be a directory.  A regular file replaces a regular
    file; a directory moves with everything below it, to a free name. *)
Definition rename (fs : filesystem) (src dst : path) : option filesystem :=
  if faulty (sys_rename src dst) then None
  else if negb (fs_is_directory fs (parent_path dst)) then None
  else match fs !! src with
       | None => None
       | Some i =>
           if is_regular i then
             if fs_is_directory fs dst then None
             else Some (<[dst := i]> (delete src fs))
           else
             if present fs dst then None
             else Some (list_to_map (prod_map (rebase src dst) id <$> map_to_list fs))
       end.

(** *** Timestamps *)

(** [get_creation_time]: the [bool] result and the out-parameter together.
    [seconds(tv_sec) + nanoseconds(tv_nsec)] is computed in 64 bits. *)
Definition get_creation_time (file_path : path) : M (option Z) :=
  fs ← get_fs; mret (int64 <$> statx_btime fs file_path).

(** The body of [case TimeAttribute::Modification]:
    [ftime - file_clock::now() + system_clock::now()], in 64 bits. *)
Definition case_Modification (file_path : path) : M Z :=
  fs ← get_fs;
  match last_write_time fs file_path with
  | None => say (ErrModificationTime file_path);; now
  | Some ftime =>
      system_now ← now;
      file_now ← file_clock_now file_path;
      mret (int64 (ftime - file_now + system_now))
  end.

Definition get_file_time (file_path : path) (attr : TimeAttribute) : M Z :=
  match attr with
  | Creation =>
      if HAS_STATX then
        r ← get_creation_time file_path;
        match r with
        | Some file_time => mret file_time
        | None =>
            say (WarnCreationTime file_path);;
            (* no break: continue to modification time *)
            case_Modification file_path
        end
      else case_Modification file_path
  | Modification => case_Modification file_path
  | Access =>
      sb ← stat_atime file_path;
      match sb with
      | Some t => mret (int64 t)
      | None => say (ErrAccessTime file_path);; now
      end
  end.

(** *** Target directory *)

(** The result is the string ["YYYY/MM/DD/<size>"], kept as its four
    components. *)
Definition get_metadata_based_dir (file_path : path) (attr : TimeAttribute)
    (thresholds : SizeThresholds) : M path :=
  file_time ← get_file_time file_path attr;
  let cftime := to_time_t file_time in
  let tm_ptr := localtime_r cftime in
  let date := put_time_Ymd tm_ptr in
  fs ← get_fs;
  file_size ← match file_size fs file_path with
              | Some n => mret n
              | None => say (ErrFileSize file_path);; mret 0%N
              end;
  let size_category := categorize_size file_size thresholds in
  mret (date /: size_category).

(** *** Moving one file *)

(** [stem + "_" + to_string(counter) + extension]. *)
Definition numbered_name (name : string) (counter : Z) : string :=
  stem name +:+ "_" +:+ pretty counter +:+ extension name.

(** [target.parent_path() / (stem + "_" + to_string(counter) + extension)]. *)
Definition numbered (target_file : path) (counter : Z) : path :=
  parent_path target_file /: numbered_name (filename target_file) counter.

(** The [do ... while (fs::exists(final_target))] loop.  [fuel] bounds the
    number of existence checks; [unique_name_least] shows that one more than
    the number of entries of the tree is always enough, and that the [int]
    counter stays within that number. *)
Fixpoint unique_name (target_file : path) (fuel : nat) (counter : Z) : M path :=
  let final_target := numbered target_file counter in
  match fuel with
  | O => mret final_target
  | S fuel' =>
      taken ← fs_exists final_target;
      if taken : bool then unique_name target_file fuel' (counter + 1)
      else mret final_target
  end.

(** The tail of [move_file]: dry-run report, or [fs::rename] under
    [try]/[catch]. *)
Definition commit (source_file final_target : path) (dry_run verbose : bool)
    : M bool :=
  if dry_run then
    say (DryRunWouldMove source_file final_target);; mret true
  else
    fs ← get_fs;
    match rename fs source_file final_target with
    | Some fs' =>
        put_fs fs';;
        when verbose (say (Moved source_file final_target));;
        mret true
    | None =>
        say (ErrMove source_file final_target);; mret false
    end.

Definition move_file (source_file target_file : path) (dry_run verbose : bool)
    : M bool :=
  if decide (source_file = target_file) then
    when verbose (say (SkipAlreadyCorrect source_file));; mret true
  else
    target_exists ← fs_exists target_file;
    if target_exists : bool then
      fs ← get_fs;
      if decide (slurp fs source_file ≠ slurp fs target_file) then
        final_target ← unique_name target_file (S (size fs)) 1;
        commit source_file final_target dry_run verbose
      else
        when verbose (say (SkipIdentical source_file));; mret true
    else commit source_file target_file dry_run verbose.

(** *** Walking the tree *)

(** The regular files of a tree, with their inodes. *)
Definition regular_files (fs : filesystem) : filesystem :=
  filter (λ kv, is_regular kv.2 = true) fs.

(** The directories entered on the way from [src_directory] to an entry
    [p] below it. *)
Definition directories_entered (src_directory p : path) : list path :=
  filter (λ d, src_directory `prefix_of` d ∧ d ≠ p) (prefixes p).

(** What [fs::recursive_directory_iterator] with [skip_permission_denied]
    finds: the regular files below [src_directory], not entering
    directories that cannot be opened; here in the order of the map. *)
Definition listing (fs : filesystem) (src_directory : path) : list path :=
  filter (λ p, src_directory `prefix_of` p ∧ p ≠ src_directory ∧
               Forall (λ d, faulty (sys_opendir d) = false)
                      (directories_entered src_directory p))
         (map_to_list (regular_files fs)).*1.

(** The order in which the iterator comes by the files is that of
    [readdir], which the standard leaves unspecified: [walk] is any
    arrangement of the listing. *)
Variable walk : filesystem → path → list path.
Hypothesis walk_listing :
  ∀ fs src_directory, walk fs src_directory ≡ₚ listing fs src_directory.

Definition collect_all_files (src_directory : path) (verbose : bool)
    : M (list path) :=
  fs ← get_fs;
  files ← (if fs_is_directory fs src_directory
           then mret (walk fs src_directory)
           else say ErrCollection;; mret []);
  when verbose (say (Collected (length files)));;
  mret files.

(** *** The batch *)

Definition move_and_continue (file_path target_file_path : path)
    (dry_run verbose : bool) : M unit :=
  move_file file_path target_file_path dry_run verbose;; mret tt.

(** The extension directory name of a file. *)
Definition file_extension (file_path : path) : string :=
  if has_extension (filename file_path)
  then substr1 (extension (filename file_path))
  else "no_extension".

(** [extension_directory / metadata_subdir]. *)
Definition target_directory (src_directory file_path : path)
    (attr : TimeAttribute) (thresholds : SizeThresholds) : M path :=
  let extension_directory := src_directory /: file_extension file_path in
  metadata_subdir ← get_metadata_based_dir file_path attr thresholds;
  mret (extension_directory ++ metadata_subdir).

(** The rest of the iteration once the target directory is known: create it
    if needed, then move the file.  A directory that cannot be created ends
    the iteration ([continue]). *)
Definition place (file_path target_directory : path) (dry_run verbose : bool)
    : M unit :=
  let target_file_path := target_directory /: filename file_path in
  target_exists ← fs_exists target_directory;
  if negb target_exists then
    if dry_run then
      when verbose (say (DryRunWouldCreateDirectory target_directory));;
      move_and_continue file_path target_file_path dry_run verbose
    else
      created ← create_directories target_directory;
      if negb created then
        say (ErrCreateDirectory target_directory)
      else
        when verbose (say (CreatedDirectory target_directory));;
        move_and_continue file_path target_file_path dry_run verbose
  else move_and_continue file_path target_file_path dry_run verbose.

(** One iteration of the [for] loop over the collected files. *)
Definition relocate (src_directory : path) (attr : TimeAttribute)
    (thresholds : SizeThresholds) (dry_run verbose : bool)
    (file_path : path) : M unit :=
  file_exists ← fs_exists file_path;
  if negb file_exists then
    when verbose (say (SkipMissing file_path))
  else
    target ← target_directory src_directory file_path attr thresholds;
    place file_path target dry_run verbose.

Fixpoint for_each (body : path → M unit) (files : list path) : M unit :=
  match files with
  | [] => mret tt
  | file_path :: rest => body file_path;; for_each body rest
  end.

Definition move_files_by_extension_and_metadata (src_directory : path)
    (attr : TimeAttribute) (thresholds : SizeThresholds)
    (dry_run verbose : bool) : M unit :=
  files ← collect_all_files src_directory verbose;
  for_each (relocate src_directory attr thresholds dry_run verbose) files.

(** *** Entry point *)

(** What the [getopt_long] loop leaves behind when it does not return by
    itself: the flags, and the positional argument if there is one. *)
Record options := {
  opt_verbose : bool;
  opt_dry_run : bool;
  opt_attr : TimeAttribute;
  opt_thresholds : SizeThresholds;
  opt_source : option path;   (* [None] when [optind >= argc] *)
}.

(** [main] after option parsing; the result is the exit code. *)
Definition main (o : options) : M Z :=
  match opt_source o with
  | None => say ErrNoSourceDirectory;; say Usage;; mret 1
  | Some src_directory =>
      when (opt_verbose o)
        (say (Banner src_directory (opt_dry_run o) (opt_attr o)
                     (opt_thresholds o)));;
      move_files_by_extension_and_metadata src_directory (opt_attr o)
        (opt_thresholds o) (opt_dry_run o) (opt_verbose o);;
      when (opt_verbose o) (say Completed);;
      mret 0
  end.

(** *** Options *)

(** What one call of [getopt_long] returns to the loop in [main]. *)
Inductive getopt_event :=
  | GetoptHelp                      (* 'h' *)
  | GetoptVerbose                   (* 'v' *)
  | GetoptDryRun                    (* 'd' *)
  | GetoptTime (optarg : string)    (* 't' *)
  | GetoptSmall (optarg : string)   (* 1 *)
  | GetoptMedium (optarg : string)  (* 2 *)
  | GetoptUnknown.                  (* anything else, '?' *)

(** The [return] statements inside the loop, each with what it printed. *)
Inductive early_exit :=
  | ExitHelp
  | ExitInvalidTime (optarg : string)
  | ExitInvalidSmall (optarg : string)
  | ExitInvalidMedium (optarg : string)
  | ExitUsage.

Definition exit_status (e : early_exit) : Z :=
  match e with ExitHelp => 0 | _ => 1 end.

Definition initial_options : options :=
  {| opt_verbose := false; opt_dry_run := false; opt_attr := Creation;
     opt_thresholds := default_thresholds; opt_source := None |}.

Definition with_attr (o : options) (attr : TimeAttribute) : options :=
  {| opt_verbose := opt_verbose o; opt_dry_run := opt_dry_run o; opt_attr := attr;
     opt_thresholds := opt_thresholds o; opt_source := opt_source o |}.

Definition with_thresholds (o : options) (thresholds : SizeThresholds) : options :=
  {| opt_verbose := opt_verbose o; opt_dry_run := opt_dry_run o;
     opt_attr := opt_attr o; opt_thresholds := thresholds;
     opt_source := opt_source o |}.

(** One pass of the [switch] in the option loop. *)
Definition option_step (e : getopt_event) (o : options) : early_exit + options :=
  match e with
  | GetoptHelp => inl ExitHelp
  | GetoptVerbose =>
      inr {| opt_verbose := true; opt_dry_run := opt_dry_run o;
             opt_attr := opt_attr o; opt_thresholds := opt_thresholds o;
             opt_source := opt_source o |}
  | GetoptDryRun =>
      inr {| opt_verbose := opt_verbose o; opt_dry_run := true;
             opt_attr := opt_attr o; opt_thresholds := opt_thresholds o;
             opt_source := opt_source o |}
  | GetoptTime optarg =>
      if decide (optarg = "creation") then inr (with_attr o Creation)
      else if decide (optarg = "modification") then inr (with_attr o Modification)
      else if decide (optarg = "access") then inr (with_attr o Access)
      else inl (ExitInvalidTime optarg)
  | GetoptSmall optarg =>
      match parse_size optarg with
      | Some n => inr (with_thresholds o
                         {| small := n; medium := medium (opt_thresholds o) |})
      | None => inl (ExitInvalidSmall optarg)
      end
  | GetoptMedium optarg =>
      match parse_size optarg with
      | Some n => inr (with_thresholds o
                         {| small := small (opt_thresholds o); medium := n |})
      | None => inl (ExitInvalidMedium optarg)
      end
  | GetoptUnknown => inl ExitUsage
  end.

(** The [while ((opt = getopt_long(..)) != -1)] loop. *)
Fixpoint option_loop (events : list getopt_event) (o : options)
    : early_exit + options :=
  match events with
  | [] => inr o
  | e :: rest =>
      match option_step e o with
      | inl stop => inl stop
      | inr o' => option_loop rest o'
      end
  end.

(** The whole of [main]: the option loop, then the source argument
    ([argv[optind]], absent when [optind >= argc]) and the run.  An early
    exit from the loop happens before anything looks at the tree; after
    it, [main] returns its exit status or an uncaught exception ends the
    program. *)
Definition program (events : list getopt_event) (positional : option path)
    (w : world) : early_exit + outcome Z * world :=
  match option_loop events initial_options with
  | inl stop => inl stop
  | inr o =>
      inr (main {| opt_verbose := opt_verbose o; opt_dry_run := opt_dry_run o;
                   opt_attr := opt_attr o; opt_thresholds := opt_thresholds o;
                   opt_source := positional |} w)
  end.

(** An event that makes the loop return. *)
Definition stops (e : getopt_event) : option early_exit :=
  match option_step e initial_options with
  | inl stop => Some stop
  | inr _ => None
  end.
(** *** Vocabulary for the properties *)

(** [p] lies below [src_directory]. *)
Definition below (src_directory p : path) : Prop :=
  src_directory `prefix_of` p ∧ p ≠ src_directory.

(** The size that an inode answers with when no call fails. *)
Definition inode_size (i : inode) : N :=
  match i_type i with
  | regular data => N.of_nat (String.length data)
  | directory => 0
  end.

(** The date under which the inode [i], found at [p] by a run at the time
    [clock], is filed by creation or modification time when no call fails:
    that of its modification time less the skew of the two clock reads. *)
Definition modification_date (p : path) (clock : Z) (i : inode) : path :=
  put_time_Ymd
    (localtime_r (to_time_t (int64 (i_mtime i - clock_skew p clock)))).

(** The directory that such a run computes for it. *)
Definition home (src_directory : path) (thresholds : SizeThresholds)
    (clock : Z) (p : path) (i : inode) : path :=
  (src_directory /: file_extension p)
    ++ modification_date p clock i
    ++ [categorize_size (inode_size i) thresholds].

(** A file is settled when it lies in its own target directory under its
    own name. *)
Definition settled (src_directory : path) (thresholds : SizeThresholds)
    (clock : Z) (fs : filesystem) (p : path) : Prop :=
  ∃ i, fs !! p = Some i ∧
       home src_directory thresholds clock p i /: filename p = p.

(** Every entry other than the root lies in a directory, and regular files
    have proper names and modification times that [fs::last_write_time]
    can hold. *)
Definition well_formed (fs : filesystem) : Prop :=
  map_Forall (λ p i,
    (p ≠ [] → fs_is_directory fs (parent_path p) = true) ∧
    (is_regular i = true →
       filename p ≠ "" ∧ filename p ≠ ".." ∧
       i_mtime i `div` 1000000000 < max_seconds)) fs.

(** The date of every regular file is the same wherever and whenever it is
    taken: no modification time lies so close to the turn of a day that the
    skew of the clock reads decides on which side it falls. *)
Definition steady (fs : filesystem) : Prop :=
  ∀ p i, fs !! p = Some i → is_regular i = true →
    ∀ q c q' c', modification_date q c i = modification_date q' c' i.

(** The state of a run at the time [clock] between two iterations: the
    files still to come are there, and every other regular file below the
    source directory is settled. *)
Record organizing (src_directory : path) (thresholds : SizeThresholds)
    (clock : Z) (fs : filesystem) (rest : list path) : Prop := {
  org_nodup : NoDup rest;
  org_rest : ∀ f, f ∈ rest → ∃ i, fs !! f = Some i ∧ is_regular i = true;
  org_settled : ∀ p i, fs !! p = Some i → is_regular i = true →
                  below src_directory p →
                  p ∈ rest ∨ settled src_directory thresholds clock fs p;
  org_well_formed : well_formed fs;
  org_steady : steady fs;
}.

(** A message that tells of a file left where it was although it is not
    settled: a failure, or a skip of a duplicate. *)
Definition is_left_behind (m : message) : bool :=
  match m with
  | ErrMove _ _ | ErrCreateDirectory _ | SkipIdentical _ => true
  | _ => false
  end.

(** Between [w] and [w'] some file was reported as left behind. *)
Definition left_behind (w w' : world) : Prop :=
  ∃ msgs m, emitted w w' msgs ∧ m ∈ msgs ∧ is_left_behind m = true.

(** The inodes of the regular files of a tree, each as often as it
    occurs. *)
Definition inodes (fs : filesystem) : list inode :=
  (map_to_list (regular_files fs)).*2.

(** Rank of a size class. *)
Definition size_rank (category : string) : nat :=
  if decide (category = "small") then 0
  else if decide (category = "medium") then 1 else 2.

(** The lines about the metadata of a file; they do not tell what became
    of it. *)
Definition is_diagnosis (m : message) : bool :=
  match m with
  | WarnCreationTime _ | ErrModificationTime _ | ErrAccessTime _
  | ErrFileSize _ => true
  | _ => false
  end.

(** The line that tells what became of a file: every iteration that
    returns prints exactly one when verbose. *)
Definition is_outcome (m : message) : bool :=
  match m with
  | SkipMissing _ | SkipAlreadyCorrect _ | SkipIdentical _
  | DryRunWouldMove _ _ | Moved _ _ | ErrMove _ _ | ErrCreateDirectory _ => true
  | _ => false
  end.

(** [m] tells what became of [f].  The line about a directory that could
    not be created names the directory. *)
Definition outcome_of (f : path) (m : message) : Prop :=
  match m with
  | SkipMissing p | SkipAlreadyCorrect p | SkipIdentical p
  | DryRunWouldMove p _ | Moved p _ | ErrMove p _ => p = f
  | ErrCreateDirectory _ => True
  | _ => False
  end.

(** What the real iteration for [f] from [w] came to, [r], in terms of what
    it printed.  If an exception ended it, that came from an existence
    check, no outcome was printed and no regular file changed.  If it
    returned, it printed at most one outcome, which is about [f], and
    exactly one when verbose; a failure among the lines means that no
    regular file changed. *)
Definition iteration_report (f : path) (verbose : bool) (w : world)
    (r : outcome unit * world) : Prop :=
  ∃ msgs, emitted w r.2 msgs ∧
    match r.1 with
    | Uncaught p =>
        faulty (sys_status p) = true ∧
        regular_files (w_fs r.2) = regular_files (w_fs w) ∧
        filter (λ m, is_outcome m = true) msgs = []
    | Returned _ =>
        Forall (outcome_of f) (filter (λ m, is_outcome m = true) msgs) ∧
        (length (filter (λ m, is_outcome m = true) msgs) ≤ 1)%nat ∧
        (verbose = true →
           length (filter (λ m, is_outcome m = true) msgs) = 1%nat) ∧
        (∀ m, m ∈ msgs → is_failure m = true →
           ((∃ d, m = ErrCreateDirectory d) ∨
            (∃ final_target, m = ErrMove f final_target)) ∧
           regular_files (w_fs r.2) = regular_files (w_fs w))
    end.

(** ** Properties *)

Ltac run :=
  unfold mbind, M_bind, mret, M_ret, say, when, get_fs, put_fs, now, throw in *;
  simpl in *.

Lemma bind_returned {A B} (m : M A) (k : A → M B) (w w' : world) (a : A) :
  m w = (Returned a, w') → (m ≫= k) w = k a w'.
Proof. intros H. unfold mbind, M_bind. by rewrite H. Qed.

Lemma bind_uncaught {A B} (m : M A) (k : A → M B) (w w' : world) (p : path) :
  m w = (Uncaught p, w') → (m ≫= k) w = (Uncaught p, w').
Proof. intros H. unfold mbind, M_bind. by rewrite H. Qed.

(** *** Size classes *)

(** C6. The size classifier is total and follows the two thresholds: below
    [small] it answers small, otherwise below [medium] it answers medium,
    otherwise large.  For thresholds that satisfy the invariant of
    [SizeThresholds] ([small < medium], with [small] positive so that
    [small - 1] is a byte count) the four boundary values fall as stated. *)
Theorem categorize_size_correct (size : N) (thresholds : SizeThresholds) :
  categorize_size size thresholds ∈ ["small"; "medium"; "large"] ∧
  ((size < small thresholds)%N → categorize_size size thresholds = "small") ∧
  ((small thresholds ≤ size)%N → (size < medium thresholds)%N →
     categorize_size size thresholds = "medium") ∧
  ((small thresholds ≤ size)%N → (medium thresholds ≤ size)%N →
     categorize_size size thresholds = "large") ∧
  ((0 < small thresholds)%N → (small thresholds < medium thresholds)%N →
     categorize_size (small thresholds - 1) thresholds = "small" ∧
     categorize_size (small thresholds) thresholds = "medium" ∧
     categorize_size (medium thresholds - 1) thresholds = "medium" ∧
     categorize_size (medium thresholds) thresholds = "large").
Proof.
  unfold categorize_size. repeat split.
  - repeat case_match; repeat constructor.
  - intros H. apply N.ltb_lt in H. by rewrite H.
  - intros H1 H2. apply N.ltb_ge in H1. apply N.ltb_lt in H2.
    by rewrite H1, H2.
  - intros H1 H2. apply N.ltb_ge in H1, H2. by rewrite H1, H2.
  - assert ((small thresholds - 1 <? small thresholds)%N = true) as ->; [|done].
    apply N.ltb_lt. lia.
  - rewrite N.ltb_irrefl.
    assert ((small thresholds <? medium thresholds)%N = true) as ->; [|done].
    by apply N.ltb_lt.
  - assert ((medium thresholds - 1 <? small thresholds)%N = false) as ->.
    { apply N.ltb_ge. lia. }
    assert ((medium thresholds - 1 <? medium thresholds)%N = true) as ->; [|done].
    apply N.ltb_lt. lia.
  - assert ((medium thresholds <? small thresholds)%N = false) as ->.
    { apply N.ltb_ge. lia. }
    by rewrite N.ltb_irrefl.
Qed.

(** *** Timestamps *)

Lemma int64_small (z : Z) : - 2 ^ 63 ≤ z < 2 ^ 63 → int64 z = z.
Proof. intros H. unfold int64. rewrite Z.mod_small; lia. Qed.

Lemma int64_range (z : Z) : - 2 ^ 63 ≤ int64 z < 2 ^ 63.
Proof.
  unfold int64. pose proof (Z.mod_pos_bound (z + 2 ^ 63) (2 ^ 64)). lia.
Qed.

Lemma int64_add_l (a b : Z) : int64 (int64 a + b) = int64 (a + b).
Proof.
  unfold int64. f_equal.
  replace ((a + 2 ^ 63) `mod` 2 ^ 64 - 2 ^ 63 + b + 2 ^ 63)
    with ((a + 2 ^ 63) `mod` 2 ^ 64 + b) by lia.
  rewrite Zplus_mod_idemp_l. f_equal. lia.
Qed.

Lemma int64_sub_l (a b : Z) : int64 (int64 a - b) = int64 (a - b).
Proof. rewrite <-!Z.add_opp_r. apply int64_add_l. Qed.

Lemma statx_btime_None (fs : filesystem) (p : path) : statx_btime fs p = None.
Proof. done. Qed.

Lemma last_write_time_Some (fs : filesystem) (p : path) (i : inode) :
  faulty (sys_last_write_time p) = false →
  fs !! p = Some i → i_mtime i `div` 1000000000 < max_seconds →
  last_write_time fs p = Some (int64 (i_mtime i)).
Proof.
  intros Hf Hp Hr. unfold last_write_time. rewrite Hf, Hp.
  by rewrite decide_True.
Qed.

Lemma case_Modification_value (p : path) (w : world) :
  case_Modification p w =
    match last_write_time (w_fs w) p with
    | Some ftime => (Returned (int64 (ftime - clock_skew p (w_clock w))), w)
    | None => (Returned (w_clock w), (say (ErrModificationTime p) w).2)
    end.
Proof.
  unfold case_Modification, file_clock_now. run.
  destruct (last_write_time _ _); [|done].
  do 3 f_equal. lia.
Qed.

Lemma get_file_time_frame (p : path) (attr : TimeAttribute) (w : world) :
  ∃ t w', get_file_time p attr w = (Returned t, w') ∧
          w_fs w' = w_fs w ∧ w_clock w' = w_clock w.
Proof.
  destruct attr; unfold get_file_time.
  - destruct HAS_STATX.
    + unfold get_creation_time. run.
      rewrite case_Modification_value. run.
      destruct (last_write_time _ _); by eauto.
    + rewrite case_Modification_value.
      destruct (last_write_time _ _); by eauto.
  - rewrite case_Modification_value.
    destruct (last_write_time _ _); by eauto.
  - unfold stat_atime. run.
    destruct (faulty _); [by eauto|]. destruct (present _ _); by eauto.
Qed.

(** C2. [get_file_time] always returns a timestamp: it never ends the
    program, and it leaves the tree alone.  For [Creation], when the
    birth-time query fails or reports no birth time, a warning is printed
    and the result is the one for [Modification]; as the program makes the
    query, with both synchronisation bits set, that is always so.  Without
    [statx] the result is the one for [Modification] directly.  For
    [Modification] and [Access], a failed query prints an error and yields
    the current time.  A successful query for [Modification] yields the
    modification time less the time between the two clock reads, and one
    for [Access] the access time that [stat] reported, both as 64-bit
    arithmetic leaves them. *)
Theorem get_file_time_fallback (p : path) (attr : TimeAttribute) (w : world) :
  (∃ t w', get_file_time p attr w = (Returned t, w') ∧
           w_fs w' = w_fs w ∧ w_clock w' = w_clock w) ∧
  (HAS_STATX = true → statx_btime (w_fs w) p = None →
     get_file_time p Creation w =
       get_file_time p Modification (say (WarnCreationTime p) w).2 ∧
     (get_file_time p Creation w).1 = (get_file_time p Modification w).1) ∧
  statx_btime (w_fs w) p = None ∧
  (HAS_STATX = false →
     get_file_time p Creation w = get_file_time p Modification w) ∧
  (last_write_time (w_fs w) p = None →
     get_file_time p Modification w =
       (Returned (w_clock w), (say (ErrModificationTime p) w).2)) ∧
  (∀ i, faulty (sys_last_write_time p) = false → w_fs w !! p = Some i →
     i_mtime i `div` 1000000000 < max_seconds →
     get_file_time p Modification w =
       (Returned (int64 (i_mtime i - clock_skew p (w_clock w))), w)) ∧
  ((stat_atime p w).1 = Returned None →
     get_file_time p Access w =
       (Returned (w_clock w), (say (ErrAccessTime p) w).2)) ∧
  (faulty (sys_stat p) = false → is_Some (w_fs w !! p) →
     get_file_time p Access w = (Returned (int64 (st_atime p (w_clock w))), w)).
Proof.
  split_and!.
  - apply get_file_time_frame.
  - intros HS Hb. unfold get_file_time, get_creation_time. rewrite HS. run.
    split; [done|].
    rewrite !case_Modification_value. run.
    by destruct (last_write_time _ _).
  - done.
  - intros HS. unfold get_file_time. by rewrite HS.
  - intros Hm. unfold get_file_time. rewrite case_Modification_value.
    by rewrite Hm.
  - intros i Hf Hp Hr. unfold get_file_time. rewrite case_Modification_value.
    rewrite (last_write_time_Some _ _ i) by done.
    by rewrite int64_sub_l.
  - unfold get_file_time, stat_atime. run.
    destruct (faulty _); [done|]. by destruct (present _ _).
  - intros Hf Hp. unfold get_file_time, stat_atime. run. rewrite Hf.
    unfold present. by rewrite bool_decide_eq_true_2.
Qed.

(** *** Names for colliding files *)

Lemma string_length_app (s t : string) :
  String.length (s +:+ t) = (String.length s + String.length t)%nat.
Proof. induction s; simpl; [done|]. by rewrite IHs. Qed.

Lemma string_app_inj_r (t s1 s2 : string) : s1 +:+ t = s2 +:+ t → s1 = s2.
Proof.
  revert s2. induction s1 as [|c s1 IH]; intros [|c' s2] H.
  - done.
  - apply (f_equal String.length) in H.
    rewrite !string_length_app in H. simpl in H. lia.
  - apply (f_equal String.length) in H.
    rewrite !string_length_app in H. simpl in H. lia.
  - change (String c (s1 +:+ t) = String c' (s2 +:+ t)) in H.
    injection H as -> H. f_equal. by apply IH.
Qed.

Lemma numbered_name_nonempty (name : string) (counter : Z) :
  numbered_name name counter ≠ "".
Proof.
  unfold numbered_name. intros H. apply (f_equal String.length) in H.
  rewrite !string_length_app in H. simpl in H. lia.
Qed.

Lemma numbered_unfold (target_file : path) (counter : Z) :
  numbered target_file counter =
    parent_path target_file ++ [numbered_name (filename target_file) counter].
Proof.
  unfold numbered, path_append.
  case_decide as H; [|done]. by apply numbered_name_nonempty in H.
Qed.

Global Instance numbered_inj (target_file : path) : Inj (=) (=) (numbered target_file).
Proof.
  intros c1 c2. rewrite !numbered_unfold. intros H.
  apply app_inv_head in H. injection H as H. unfold numbered_name in H.
  apply String.app_inj in H. apply (String.app_inj "_") in H.
  apply string_app_inj_r in H. by apply (inj pretty).
Qed.

Lemma numbered_all_present (fs : filesystem) (target_file : path) (c0 c : Z) :
  c0 ≤ c →
  (∀ k, c0 ≤ k < c → is_Some (fs !! numbered target_file k)) →
  (Z.to_nat (c - c0) ≤ size fs)%nat.
Proof.
  intros Hle Hall.
  set (l := numbered target_file <$> seqZ c0 (c - c0)).
  assert (NoDup l) as Hnd by apply (NoDup_fmap_2 _), NoDup_seqZ.
  assert (list_to_set l ⊆ dom fs) as Hsub.
  { intros q [k [-> Hk]]%elem_of_list_to_set%list_elem_of_fmap.
    apply elem_of_seqZ in Hk. apply elem_of_dom, Hall. lia. }
  apply subseteq_size in Hsub.
  rewrite size_list_to_set, size_dom in Hsub by done.
  unfold l in Hsub. by rewrite length_fmap, length_seqZ in Hsub.
Qed.

Lemma fs_exists_value (p : path) (w : world) :
  faulty (sys_status p) = false →
  fs_exists p w = (Returned (present (w_fs w) p), w).
Proof. intros H. unfold fs_exists. by rewrite H. Qed.

Lemma fs_exists_throws (p : path) (w : world) :
  faulty (sys_status p) = true → fs_exists p w = (Uncaught p, w).
Proof. intros H. unfold fs_exists. by rewrite H. Qed.

Lemma fs_exists_frame (p : path) (w : world) : (fs_exists p w).2 = w.
Proof. unfold fs_exists. by destruct (faulty _). Qed.

Lemma present_true (fs : filesystem) (p : path) :
  present fs p = true ↔ is_Some (fs !! p).
Proof. unfold present. by rewrite bool_decide_eq_true. Qed.

Lemma present_false (fs : filesystem) (p : path) :
  present fs p = false ↔ fs !! p = None.
Proof.
  unfold present. by rewrite bool_decide_eq_false, eq_None_not_Some.
Qed.

Lemma unique_name_spec (target_file : path) (fuel : nat) (c0 c : Z) (w : world) :
  c0 ≤ c →
  (∀ k, c0 ≤ k < c → is_Some (w_fs w !! numbered target_file k)) →
  (fuel + Z.to_nat (c - c0) = S (size (w_fs w)))%nat →
  ∃ n, c ≤ n < c + Z.of_nat fuel ∧
       (∀ k, c0 ≤ k < n → is_Some (w_fs w !! numbered target_file k)) ∧
       (∀ k, c ≤ k < n → faulty (sys_status (numbered target_file k)) = false) ∧
       ((faulty (sys_status (numbered target_file n)) = true ∧
         unique_name target_file fuel c w = (Uncaught (numbered target_file n), w)) ∨
        (faulty (sys_status (numbered target_file n)) = false ∧
         w_fs w !! numbered target_file n = None ∧
         unique_name target_file fuel c w = (Returned (numbered target_file n), w))).
Proof.
  revert c. induction fuel as [|fuel IH]; intros c Hle Hall Hfuel.
  - pose proof (numbered_all_present (w_fs w) target_file c0 c Hle Hall). lia.
  - cbn [unique_name].
    destruct (faulty (sys_status (numbered target_file c))) eqn:Hst.
    + exists c. split_and!; [lia..|done| |].
      * intros k Hk. lia.
      * left. split; [done|].
        by erewrite bind_uncaught by by apply fs_exists_throws.
    + erewrite bind_returned by by apply fs_exists_value.
      destruct (present (w_fs w) (numbered target_file c)) eqn:Hc.
      * apply present_true in Hc.
        destruct (IH (c + 1)) as (n & Hn & Hbelow & Hok & Hres).
        { lia. }
        { intros k Hk. destruct (decide (k = c)) as [->|]; [done|].
          apply Hall. lia. }
        { lia. }
        exists n. split_and!; [lia..|done| |done].
        intros k Hk. destruct (decide (k = c)) as [->|]; [done|].
        apply Hok. lia.
      * apply present_false in Hc.
        exists c. split_and!; [lia..|done| |].
        { intros k Hk. lia. }
        right. by split_and!.
Qed.

(** The loop stops at the first name that is free or whose status cannot
    be read, within one more check than the tree has entries. *)
Lemma unique_name_least (target_file : path) (w : world) :
  ∃ n, 1 ≤ n ≤ 1 + Z.of_nat (size (w_fs w)) ∧
       (∀ k, 1 ≤ k < n →
          is_Some (w_fs w !! numbered target_file k) ∧
          faulty (sys_status (numbered target_file k)) = false) ∧
       ((faulty (sys_status (numbered target_file n)) = true ∧
         unique_name target_file (S (size (w_fs w))) 1 w
           = (Uncaught (numbered target_file n), w)) ∨
        (faulty (sys_status (numbered target_file n)) = false ∧
         w_fs w !! numbered target_file n = None ∧
         unique_name target_file (S (size (w_fs w))) 1 w
           = (Returned (numbered target_file n), w))).
Proof.
  destruct (unique_name_spec target_file (S (size (w_fs w))) 1 1 w)
    as (n & Hn & Hbelow & Hok & Hres); [lia| |lia|].
  - intros k Hk. lia.
  - exists n. split_and!; [lia|lia| |done].
    intros k Hk. split; [by apply Hbelow|by apply Hok].
Qed.

(** *** Extensions of numbered names *)

Lemma contains_app (c : ascii) (s t : string) :
  contains c (s +:+ t) = contains c s || contains c t.
Proof.
  induction s as [|c' s IH]; [done|].
  change (contains c (String c' (s +:+ t)) =
          contains c (String c' s) || contains c t).
  simpl. rewrite IH. by rewrite orb_assoc.
Qed.

Lemma split_last_dot_None (s : string) :
  split_last_dot s = None ↔ contains "." s = false.
Proof.
  induction s as [|c s IH]; simpl; [done|].
  destruct (split_last_dot s) as [[pre ext]|].
  - split; [done|]. intros [_ H]%orb_false_iff. by apply IH in H.
  - destruct IH as [IH _]. rewrite IH by done. rewrite orb_false_r.
    case_decide as Hc; case_bool_decide; naive_solver.
Qed.

Lemma split_last_dot_Some (s pre ext : string) :
  split_last_dot s = Some (pre, ext) →
  s = pre +:+ ext ∧ ∃ ext', ext = String "." ext' ∧ contains "." ext' = false.
Proof.
  revert pre ext. induction s as [|c s IH]; intros pre ext; simpl; [done|].
  destruct (split_last_dot s) as [[pre' ext0]|] eqn:Hs.
  - intros [= <- <-]. destruct (IH _ _ eq_refl) as (-> & ext' & -> & Hd).
    split; [done|]. eauto.
  - case_decide as Hc; [|done]. intros [= <- <-]. subst c.
    split; [done|]. exists s. split; [done|]. by apply split_last_dot_None.
Qed.

Lemma split_last_dot_app_r (s t pre ext : string) :
  split_last_dot t = Some (pre, ext) →
  split_last_dot (s +:+ t) = Some (s +:+ pre, ext).
Proof.
  intros Ht. induction s as [|c s IH]; [done|].
  change (split_last_dot (String c (s +:+ t)) = Some (String c (s +:+ pre), ext)).
  simpl. by rewrite IH.
Qed.

Lemma split_last_dot_dotted (ext' : string) :
  contains "." ext' = false →
  split_last_dot (String "." ext') = Some ("", String "." ext').
Proof.
  intros H. apply split_last_dot_None in H. simpl. by rewrite H.
Qed.

Lemma string_app_assoc (s t u : string) : (s +:+ t) +:+ u = s +:+ t +:+ u.
Proof.
  induction s as [|c s IH]; [done|].
  change (String c ((s +:+ t) +:+ u) = String c (s +:+ t +:+ u)).
  by rewrite IH.
Qed.

Lemma pretty_N_go_no_dot (x : N) (s : string) :
  contains "." (pretty_N_go x s) = contains "." s.
Proof.
  revert s. induction (N.lt_wf_0 x) as [x _ IH]; intros s.
  destruct (decide (x = 0)%N) as [->|].
  - by rewrite pretty_N_go_0.
  - rewrite pretty_N_go_step by lia. rewrite IH by (apply N.div_lt; lia).
    simpl. unfold pretty_N_char. by repeat case_match.
Qed.

Lemma pretty_Z_no_dot (z : Z) : contains "." (pretty z) = false.
Proof.
  assert (∀ n : N, contains "." (pretty n) = false) as HN.
  { intros n. unfold pretty, pretty_N. case_decide; [done|].
    by rewrite pretty_N_go_no_dot. }
  destruct z as [|p|p]; [done|apply HN|].
  unfold pretty, pretty_Z. rewrite contains_app.
  unfold pretty, pretty_positive. by rewrite HN.
Qed.

Lemma numbered_name_not_special (name : string) (counter : Z) :
  ¬ (numbered_name name counter = "." ∨ numbered_name name counter = "..").
Proof.
  assert (contains "_" (numbered_name name counter) = true) as H.
  { unfold numbered_name. rewrite !contains_app. simpl.
    by rewrite orb_true_r. }
  intros [Heq|Heq]; by rewrite Heq in H.
Qed.

(** A numbered name keeps the extension of the name it was made from. *)
Lemma extension_numbered_name (name : string) (counter : Z) :
  name ≠ ".." →
  extension (numbered_name name counter) = extension name.
Proof.
  intros Hname. unfold extension at 1.
  rewrite decide_False by apply numbered_name_not_special.
  assert (contains "." ("_" +:+ pretty counter +:+ "") = false) as Htail.
  { rewrite !contains_app, pretty_Z_no_dot. done. }
  unfold numbered_name, extension, stem.
  case_decide as Hsp.
  { destruct Hsp as [-> | ->]; [|done].
    change ("." +:+ "_" +:+ pretty counter +:+ "")
      with (String "." ("_" +:+ pretty counter +:+ "")).
    by rewrite split_last_dot_dotted. }
  destruct (split_last_dot name) as [[[|c0 pre] ext]|] eqn:Hs.
  - apply split_last_dot_Some in Hs as (-> & ext' & -> & Hd).
    change ("" +:+ String "." ext') with (String "." ext').
    change (String "." ext' +:+ "_" +:+ pretty counter +:+ "")
      with (String "." (ext' +:+ "_" +:+ pretty counter +:+ "")).
    rewrite split_last_dot_dotted; [done|].
    by rewrite contains_app, Hd, Htail.
  - destruct (split_last_dot_Some _ _ _ Hs) as (_ & ext' & -> & Hd).
    rewrite <-!string_app_assoc.
    erewrite split_last_dot_app_r by by apply split_last_dot_dotted.
    done.
  - apply split_last_dot_None in Hs.
    assert (split_last_dot (name +:+ "_" +:+ pretty counter +:+ "") = None) as ->;
      [|done].
    apply split_last_dot_None. by rewrite contains_app, Hs, Htail.
Qed.

(** *** Collisions *)

Lemma filename_snoc (p : path) (s : string) : filename (p ++ [s]) = s.
Proof. apply List.last_last. Qed.

Lemma parent_path_snoc (p : path) (s : string) : parent_path (p ++ [s]) = p.
Proof. apply removelast_last. Qed.

Lemma fs_is_directory_true (fs : filesystem) (p : path) :
  fs_is_directory fs p = true ↔ ∃ i, fs !! p = Some i ∧ is_directory i = true.
Proof.
  unfold fs_is_directory. destruct (fs !! p) as [i|].
  - split; [by eauto|]. by intros (j & [= <-] & Hd).
  - split; [done|]. by intros (j & ? & _).
Qed.



Lemma rename_regular (fs : filesystem) (src dst : path) (i : inode) :
  faulty (sys_rename src dst) = false →
  fs_is_directory fs (parent_path dst) = true →
  fs !! src = Some i → is_regular i = true → fs !! dst = None →
  rename fs src dst = Some (<[dst := i]> (delete src fs)).
Proof.
  intros Hf Hp Hs Hr Hd. unfold rename. rewrite Hf, Hp, Hs, Hr. simpl.
  unfold fs_is_directory. by rewrite Hd.
Qed.

(** What [move_file] does once the target was found to exist with other
    bytes: the loop runs up to the first candidate that is free or whose
    status cannot be read. *)
Lemma move_file_differs (source_file target_file : path)
    (dry_run verbose : bool) (w : world) :
  source_file ≠ target_file →
  faulty (sys_status target_file) = false →
  is_Some (w_fs w !! target_file) →
  slurp (w_fs w) source_file ≠ slurp (w_fs w) target_file →
  move_file source_file target_file dry_run verbose w =
    (unique_name target_file (S (size (w_fs w))) 1
       ≫= λ final_target, commit source_file final_target dry_run verbose) w.
Proof.
  intros Hne Hst Hex Hdiff. unfold move_file.
  rewrite decide_False by done.
  erewrite bind_returned by by apply fs_exists_value.
  assert (present (w_fs w) target_file = true) as -> by by apply present_true.
  unfold mbind at 1, M_bind at 1, get_fs. cbn.
  by rewrite decide_True by done.
Qed.

(** C4 (the code against the claim). When the target path is another path
    that exists and the contents differ, the loop tries [stem_N.ext] next
    to the target for [N] from 1 up, at most once more than the tree has
    entries, and stops at the first [N] whose name is free, which keeps
    the extension and becomes the final target: when the rename goes
    through, the file that was at the target is still there and the source
    is at the numbered name; with [stem_1.ext] free, [N] is 1.  But the
    existence checks of the loop are outside any [try]: at the first
    candidate whose status cannot be read the program ends, with nothing
    printed and nothing moved, where the claim has a final target. *)
Theorem move_file_disambiguates (source_file target_file : path)
    (dry_run verbose : bool) (w : world) :
  source_file ≠ target_file →
  faulty (sys_status target_file) = false →
  is_Some (w_fs w !! target_file) →
  slurp (w_fs w) source_file ≠ slurp (w_fs w) target_file →
  ∃ n final_target,
    1 ≤ n ≤ 1 + Z.of_nat (size (w_fs w)) ∧
    final_target =
      parent_path target_file ++
        [stem (filename target_file) +:+ "_" +:+ pretty n
           +:+ extension (filename target_file)] ∧
    (∀ k, 1 ≤ k < n →
       is_Some (w_fs w !! numbered target_file k) ∧
       faulty (sys_status (numbered target_file k)) = false) ∧
    (w_fs w !! numbered target_file 1 = None → n = 1) ∧
    (filename target_file ≠ ".." →
       extension (filename final_target) = extension (filename target_file)) ∧
    (faulty (sys_status final_target) = true →
       move_file source_file target_file dry_run verbose w =
         (Uncaught final_target, w)) ∧
    (faulty (sys_status final_target) = false →
       w_fs w !! final_target = None ∧
       move_file source_file target_file dry_run verbose w =
         commit source_file final_target dry_run verbose w ∧
       (∀ i, dry_run = false →
          w_fs w !! source_file = Some i → is_regular i = true →
          faulty (sys_rename source_file final_target) = false →
          fs_is_directory (w_fs w) (parent_path target_file) = true →
          ∃ w', move_file source_file target_file dry_run verbose w
                  = (Returned true, w') ∧
                w_fs w' = <[final_target := i]> (delete source_file (w_fs w)) ∧
                w_fs w' !! target_file = w_fs w !! target_file ∧
                w_fs w' !! final_target = Some i ∧
                w_fs w' !! source_file = None)).
Proof.
  intros Hne Hst Hex Hdiff.
  rewrite (move_file_differs _ _ _ _ _ Hne Hst Hex Hdiff).
  destruct (unique_name_least target_file w) as (n & Hn & Hbelow & Hres).
  exists n, (numbered target_file n).
  split_and!; [lia|lia|apply numbered_unfold|done| | | |].
  - intros H1. destruct (decide (n = 1)) as [|Hn1]; [done|].
    destruct (Hbelow 1) as [[? H] _]; [lia|]. by rewrite H1 in H.
  - intros Hname. rewrite numbered_unfold, filename_snoc.
    by apply extension_numbered_name.
  - intros Hf. destruct Hres as [[_ Hu]|[Hok _]]; [|by rewrite Hf in Hok].
    by erewrite bind_uncaught by done.
  - intros Hf. destruct Hres as [[Hbad _]|(_ & Hfree & Hu)];
      [by rewrite Hf in Hbad|].
    erewrite bind_returned by done.
    split_and!; [done|done|].
    intros i -> Hs Hreg Hfault Hdir. unfold commit. run.
    assert (source_file ≠ numbered target_file n) as Hne'.
    { intros ->. by rewrite Hfree in Hs. }
    assert (target_file ≠ numbered target_file n) as Hne''.
    { intros Heq. rewrite <-Heq in Hfree. rewrite Hfree in Hex.
      by destruct Hex. }
    erewrite rename_regular; [|done| |done..].
    2:{ by rewrite numbered_unfold, parent_path_snoc. }
    destruct verbose; run; eexists; (split; [done|]); simpl.
    all: split_and!; [done| | |].
    all: rewrite ?lookup_insert_eq; try done.
    all: rewrite lookup_insert_ne by done.
    all: by rewrite ?lookup_delete_eq, ?lookup_delete_ne by done.
Qed.

(** *** Target directories *)

Lemma path_append_nonempty (p : path) (s : string) :
  s ≠ "" → p /: s = p ++ [s].
Proof. intros H. unfold path_append. by rewrite decide_False. Qed.

Lemma categorize_size_nonempty (size : N) (thresholds : SizeThresholds) :
  categorize_size size thresholds ≠ "".
Proof. unfold categorize_size. by repeat case_match. Qed.

(** An extension starts with a period. *)
Lemma extension_period (name : string) :
  extension name = "" ∨ ∃ ext', extension name = String "." ext'.
Proof.
  unfold extension. case_decide; [by left|].
  destruct (split_last_dot name) as [[[|c pre] ext]|] eqn:Hs; [by left| |by left].
  apply split_last_dot_Some in Hs as (_ & ext' & -> & _). right. eauto.
Qed.

Lemma file_extension_nonempty (file_path : path) :
  extension (filename file_path) ≠ "." → file_extension file_path ≠ "".
Proof.
  intros Hdot. unfold file_extension, has_extension.
  case_bool_decide as He; [|done].
  destruct (extension_period (filename file_path)) as [?|(ext' & Hext)]; [done|].
  rewrite Hext in Hdot |- *. simpl. by intros ->.
Qed.

(** What [get_metadata_based_dir] returns and prints. *)
Lemma get_metadata_based_dir_value (p : path) (attr : TimeAttribute)
    (thresholds : SizeThresholds) (w w1 : world) (t : Z) :
  get_file_time p attr w = (Returned t, w1) →
  get_metadata_based_dir p attr thresholds w =
    (Returned (put_time_Ymd (localtime_r (to_time_t t)) ++
       [categorize_size (default 0%N (file_size (w_fs w) p)) thresholds]),
     match file_size (w_fs w) p with
     | Some _ => w1
     | None => (say (ErrFileSize p) w1).2
     end).
Proof.
  intros Ht. unfold get_metadata_based_dir.
  erewrite bind_returned by done.
  destruct (get_file_time_frame p attr w) as (t' & w' & Ht' & Hfs & _).
  rewrite Ht in Ht'. injection Ht' as <- <-. run. rewrite Hfs.
  destruct (file_size (w_fs w) p); simpl; rewrite ?Hfs;
    by rewrite path_append_nonempty by apply categorize_size_nonempty.
Qed.

Lemma get_metadata_based_dir_frame (p : path) (attr : TimeAttribute)
    (thresholds : SizeThresholds) (w : world) :
  ∃ d w', get_metadata_based_dir p attr thresholds w = (Returned d, w') ∧
          w_fs w' = w_fs w ∧ w_clock w' = w_clock w.
Proof.
  destruct (get_file_time_frame p attr w) as (t & w' & Ht & Hfs & Hc).
  rewrite (get_metadata_based_dir_value _ _ _ _ _ _ Ht).
  destruct (file_size (w_fs w) p); by eauto.
Qed.

Lemma target_directory_frame (src_directory file_path : path)
    (attr : TimeAttribute) (thresholds : SizeThresholds) (w : world) :
  ∃ d w', target_directory src_directory file_path attr thresholds w
            = (Returned d, w') ∧
          w_fs w' = w_fs w ∧ w_clock w' = w_clock w.
Proof.
  unfold target_directory.
  destruct (get_metadata_based_dir_frame file_path attr thresholds w)
    as (d & w' & Hd & Hfs & Hc).
  erewrite bind_returned by done. by eauto.
Qed.

(** C5 (as the code has it). For a file whose extension is more than a bare
    period, the target directory is the source directory followed by the
    extension segment, the year, the month, the day and the size class, in
    that order.  The extension segment is the extension without its leading
    period, spelled as in the file name (upper case is kept), or
    [no_extension] for a name without extension. *)
Theorem target_directory_shape (src_directory file_path : path)
    (attr : TimeAttribute) (thresholds : SizeThresholds) (w : world) :
  let name := filename file_path in
  let segment :=
    if decide (extension name = "") then "no_extension"
    else substr1 (extension name) in
  extension name ≠ "." →
  ∃ t, (get_file_time file_path attr w).1 = Returned t ∧
    let date := localtime_r (to_time_t t) in
    let size := default 0%N (file_size (w_fs w) file_path) in
    (target_directory src_directory file_path attr thresholds w).1 =
      Returned (src_directory ++
        [segment; pretty (tm_year date + 1900); pad2 (tm_mon date + 1);
         pad2 (tm_mday date); categorize_size size thresholds]).
Proof.
  intros name segment Hdot.
  destruct (get_file_time_frame file_path attr w) as (t & w1 & Ht & _).
  exists t. rewrite Ht. split; [done|]. cbv zeta.
  unfold target_directory.
  erewrite bind_returned by by apply get_metadata_based_dir_value.
  cbn. do 1 f_equal.
  rewrite path_append_nonempty by by apply file_extension_nonempty.
  rewrite <-app_assoc. f_equal. cbn. f_equal.
  unfold file_extension, has_extension, segment, name.
  destruct (decide (extension (filename file_path) = "")) as [He|He].
  - by rewrite bool_decide_eq_false_2 by naive_solver.
  - by rewrite bool_decide_eq_true_2 by done.
Qed.

(** *** Entry point *)

Lemma collect_all_files_value (src_directory : path) (verbose : bool) (w : world) :
  let files :=
    if fs_is_directory (w_fs w) src_directory
    then walk (w_fs w) src_directory else [] in
  collect_all_files src_directory verbose w =
    (Returned files,
     {| w_fs := w_fs w; w_clock := w_clock w;
        w_out := w_out w ++
          (if fs_is_directory (w_fs w) src_directory then [] else [ErrCollection])
          ++ (if verbose then [Collected (length files)] else []) |}).
Proof.
  unfold collect_all_files. run.
  destruct (fs_is_directory _ _), verbose; simpl;
    rewrite ?app_nil_r, <-?app_assoc; try done; by destruct w.
Qed.

Lemma collect_all_files_frame (src_directory : path) (verbose : bool) (w : world) :
  w_fs (collect_all_files src_directory verbose w).2 = w_fs w ∧
  w_clock (collect_all_files src_directory verbose w).2 = w_clock w.
Proof. by rewrite collect_all_files_value. Qed.

Lemma collect_all_files_not_directory (src_directory : path) (verbose : bool)
    (w : world) :
  fs_is_directory (w_fs w) src_directory = false →
  collect_all_files src_directory verbose w =
    (Returned [],
     {| w_fs := w_fs w; w_clock := w_clock w;
        w_out := w_out w ++ ErrCollection ::
                   (if verbose then [Collected 0] else []) |}).
Proof.
  intros H. rewrite collect_all_files_value. cbv zeta. by rewrite H.
Qed.

Lemma collect_all_files_directory (src_directory : path) (verbose : bool)
    (w : world) :
  fs_is_directory (w_fs w) src_directory = true →
  collect_all_files src_directory verbose w =
    (Returned (walk (w_fs w) src_directory),
     (when verbose (say (Collected (length (walk (w_fs w) src_directory)))) w).2).
Proof.
  intros H. rewrite collect_all_files_value. cbv zeta. rewrite H.
  destruct verbose; run; [done|]. rewrite app_nil_r. by destruct w.
Qed.


(** *** Dry run *)

Lemma bind_invariant {A B} (P : world → Prop) (m : M A) (k : A → M B) (w : world) :
  P (m w).2 → (∀ a w1, m w = (Returned a, w1) → P (k a w1).2) →
  P ((m ≫= k) w).2.
Proof.
  intros Hm Hk. unfold mbind, M_bind.
  destruct (m w) as [[a|p] w1] eqn:Heq; [by apply Hk|done].
Qed.

Lemma bind_ret_world {A B} (m : M A) (b : B) (w : world) :
  ((m ≫= λ _, mret b) w).2 = (m w).2.
Proof. unfold mbind, M_bind. by destruct (m w) as [[a|p] w1]. Qed.

Lemma move_and_continue_world (file_path target_file_path : path)
    (dry_run verbose : bool) (w : world) :
  (move_and_continue file_path target_file_path dry_run verbose w).2
  = (move_file file_path target_file_path dry_run verbose w).2.
Proof. apply bind_ret_world. Qed.

Lemma for_each_invariant (P : world → Prop) (body : path → M unit) :
  (∀ f w, P w → P (body f w).2) →
  ∀ files w, P w → P (for_each body files w).2.
Proof.
  intros Hbody files. induction files as [|f files IH]; intros w Hw; [done|].
  simpl. apply bind_invariant; [by apply Hbody|].
  intros [] w1 Heq. apply IH. specialize (Hbody f w Hw). by rewrite Heq in Hbody.
Qed.

Lemma for_each_app (body : path → M unit) (l1 l2 : list path) (w : world) :
  for_each body (l1 ++ l2) w = (for_each body l1;; for_each body l2) w.
Proof.
  revert w. induction l1 as [|f l1 IH]; intros w; [done|].
  simpl. unfold mbind, M_bind in *.
  destruct (body f w) as [[[]|p] w1]; [|done]. apply IH.
Qed.

Lemma commit_dry_run (source_file final_target : path) (verbose : bool) (w : world) :
  commit source_file final_target true verbose w =
    (Returned true, (say (DryRunWouldMove source_file final_target) w).2).
Proof. done. Qed.

Lemma commit_failure (source_file final_target : path) (verbose : bool) (w : world) :
  rename (w_fs w) source_file final_target = None →
  commit source_file final_target false verbose w =
    (Returned false, (say (ErrMove source_file final_target) w).2).
Proof. intros H. unfold commit. run. by rewrite H. Qed.

Lemma commit_success (source_file final_target : path) (verbose : bool)
    (w : world) (fs' : filesystem) :
  rename (w_fs w) source_file final_target = Some fs' →
  commit source_file final_target false verbose w =
    (Returned true,
     {| w_fs := fs'; w_clock := w_clock w;
        w_out := w_out w ++
          (if verbose then [Moved source_file final_target] else []) |}).
Proof.
  intros H. unfold commit. run. rewrite H. destruct verbose; simpl; [done|].
  by rewrite app_nil_r.
Qed.


Lemma move_file_unfold (source_file target_file : path)
    (dry_run verbose : bool) (w : world) :
  source_file ≠ target_file →
  faulty (sys_status target_file) = false →
  move_file source_file target_file dry_run verbose w =
    if present (w_fs w) target_file then
      if decide (slurp (w_fs w) source_file ≠ slurp (w_fs w) target_file) then
        (unique_name target_file (S (size (w_fs w))) 1
           ≫= λ final_target, commit source_file final_target dry_run verbose) w
      else (when verbose (say (SkipIdentical source_file));; mret true) w
    else commit source_file target_file dry_run verbose w.
Proof.
  intros Hne Hst. unfold move_file. rewrite decide_False by done.
  erewrite bind_returned by by apply fs_exists_value.
  destruct (present (w_fs w) target_file); [|done].
  unfold mbind at 1, M_bind at 1, get_fs. cbn. by case_decide.
Qed.

(** Dry run or not, [move_file] takes the same decision in the same state:
    it skips, or an existence check ends the program, or it settles on one
    final target. *)
Lemma move_file_decision (source_file target_file : path) (verbose : bool)
    (w : world) :
  (∃ msgs, ∀ dry_run,
      move_file source_file target_file dry_run verbose w =
        (Returned true, {| w_fs := w_fs w; w_clock := w_clock w;
                           w_out := w_out w ++ msgs |}) ∧
      (msgs = [] ∨ msgs = [SkipAlreadyCorrect source_file] ∨
       msgs = [SkipIdentical source_file])) ∨
  (∃ p, faulty (sys_status p) = true ∧ ∀ dry_run,
      move_file source_file target_file dry_run verbose w = (Uncaught p, w)) ∨
  (∃ final_target,
      w_fs w !! final_target = None ∧
      (final_target = target_file ∨
       is_Some (w_fs w !! target_file) ∧
       ∃ n, 1 ≤ n ∧ final_target = numbered target_file n) ∧
      ∀ dry_run,
        move_file source_file target_file dry_run verbose w =
          commit source_file final_target dry_run verbose w).
Proof.
  destruct (decide (source_file = target_file)) as [Heq|Hne].
  { left. unfold move_file.
    destruct (decide (source_file = target_file)); [|done].
    destruct verbose; run.
    - eexists. intros _. split; [done|]. auto.
    - exists []. intros _. rewrite app_nil_r. by destruct w; auto. }
  destruct (faulty (sys_status target_file)) eqn:Hst.
  { right. left. exists target_file. split; [done|]. intros dry_run.
    unfold move_file. rewrite decide_False by done.
    by erewrite bind_uncaught by by apply fs_exists_throws. }
  destruct (present (w_fs w) target_file) eqn:Hex.
  2:{ right. right. exists target_file. apply present_false in Hex.
      split_and!; [done|by left|]. intros dry_run.
      rewrite move_file_unfold by done.
      by rewrite (proj2 (present_false _ _) Hex). }
  destruct (decide (slurp (w_fs w) source_file ≠ slurp (w_fs w) target_file))
    as [Hdiff|Hsame].
  - destruct (unique_name_least target_file w) as (n & Hn & _ & Hres).
    destruct Hres as [[Hbad Hu]|(_ & Hfree & Hu)].
    + right. left. exists (numbered target_file n). split; [done|].
      intros dry_run. rewrite move_file_unfold, Hex by done.
      rewrite decide_True by done. by erewrite bind_uncaught by done.
    + right. right. exists (numbered target_file n).
      split_and!; [done| |].
      * right. split; [by apply present_true|]. exists n. split; [lia|done].
      * intros dry_run. rewrite move_file_unfold, Hex by done.
        rewrite decide_True by done. by erewrite bind_returned by done.
  - left. exists (if verbose then [SkipIdentical source_file] else []).
    intros dry_run. rewrite move_file_unfold, Hex by done.
    rewrite decide_False by done. destruct verbose; run.
    + split; [done|]. auto.
    + rewrite app_nil_r. split; [by destruct w|]. auto.
Qed.

Lemma move_file_dry_run_frame (source_file target_file : path)
    (verbose : bool) (w : world) :
  w_fs (move_file source_file target_file true verbose w).2 = w_fs w ∧
  w_clock (move_file source_file target_file true verbose w).2 = w_clock w.
Proof.
  destruct (move_file_decision source_file target_file verbose w)
    as [(msgs & H)|[(p & _ & H)|(final & _ & _ & H)]].
  - destruct (H true) as [-> _]. done.
  - by rewrite H.
  - by rewrite H, commit_dry_run.
Qed.

Lemma place_dry_run_frame (file_path target : path) (verbose : bool) (w : world) :
  w_fs (place file_path target true verbose w).2 = w_fs w ∧
  w_clock (place file_path target true verbose w).2 = w_clock w.
Proof.
  unfold place.
  apply (bind_invariant (λ w', w_fs w' = w_fs w ∧ w_clock w' = w_clock w)).
  { by rewrite fs_exists_frame. }
  intros b w1 Hb. assert (w1 = w) as ->.
  { by rewrite <-(fs_exists_frame target w), Hb. }
  destruct b; simpl.
  - rewrite move_and_continue_world. apply move_file_dry_run_frame.
  - destruct verbose; run; rewrite move_and_continue_world;
      match goal with |- context [move_file ?a ?b true ?v ?w0] =>
        exact (move_file_dry_run_frame a b v w0) end.
Qed.

Lemma relocate_dry_run_frame (src_directory : path) (attr : TimeAttribute)
    (thresholds : SizeThresholds) (verbose : bool) (file_path : path) (w : world) :
  w_fs (relocate src_directory attr thresholds true verbose file_path w).2 = w_fs w ∧
  w_clock (relocate src_directory attr thresholds true verbose file_path w).2
    = w_clock w.
Proof.
  unfold relocate.
  apply (bind_invariant (λ w', w_fs w' = w_fs w ∧ w_clock w' = w_clock w)).
  { by rewrite fs_exists_frame. }
  intros b w1 Hb. assert (w1 = w) as ->.
  { by rewrite <-(fs_exists_frame file_path w), Hb. }
  destruct b; simpl; [|by destruct verbose].
  destruct (target_directory_frame src_directory file_path attr thresholds w)
    as (d & w1 & Hd & Hfs & Hc).
  erewrite bind_returned by done. rewrite <-Hfs, <-Hc.
  apply place_dry_run_frame.
Qed.

Lemma dry_run_frame (src_directory : path) (attr : TimeAttribute)
    (thresholds : SizeThresholds) (verbose : bool) (w : world) :
  w_fs (move_files_by_extension_and_metadata src_directory attr thresholds
          true verbose w).2 = w_fs w.
Proof.
  unfold move_files_by_extension_and_metadata.
  erewrite bind_returned by apply collect_all_files_value.
  apply (for_each_invariant (λ w', w_fs w' = w_fs w ∧ w_clock w' = w_clock w));
    [|done].
  intros f w' [<- <-]. apply relocate_dry_run_frame.
Qed.

(** *** What one iteration prints and changes *)

Lemma emitted_refl (w : world) : emitted w w [].
Proof. unfold emitted. by rewrite app_nil_r. Qed.

Lemma emitted_say (m : message) (w : world) : emitted w (say m w).2 [m].
Proof. done. Qed.

Lemma emitted_when (b : bool) (m : message) (w : world) :
  emitted w (when b (say m) w).2 (if b then [m] else []).
Proof. destruct b; [apply emitted_say|apply emitted_refl]. Qed.

Lemma emitted_trans (w1 w2 w3 : world) (m1 m2 : list message) :
  emitted w1 w2 m1 → emitted w2 w3 m2 → emitted w1 w3 (m1 ++ m2).
Proof.
  unfold emitted. intros [H1 H1'] [H2 H2']. rewrite H2, H1, H2', H1'.
  by rewrite app_assoc.
Qed.

Lemma get_file_time_emitted (p : path) (attr : TimeAttribute) (w : world) :
  ∃ msgs, emitted w (get_file_time p attr w).2 msgs ∧
          Forall (λ m, is_diagnosis m = true) msgs.
Proof.
  destruct attr; unfold get_file_time.
  - destruct HAS_STATX.
    + unfold get_creation_time. run.
      rewrite case_Modification_value. run.
      destruct (last_write_time _ _).
      * exists [WarnCreationTime p]. split; [done|]. by repeat constructor.
      * exists [WarnCreationTime p; ErrModificationTime p].
        split; [|by repeat constructor].
        split; [|done]. simpl. by rewrite <-app_assoc.
    + rewrite case_Modification_value. destruct (last_write_time _ _).
      * exists []. split; [apply emitted_refl|done].
      * exists [ErrModificationTime p]. split; [done|]. by repeat constructor.
  - rewrite case_Modification_value. destruct (last_write_time _ _).
    + exists []. split; [apply emitted_refl|done].
    + exists [ErrModificationTime p]. split; [done|]. by repeat constructor.
  - unfold stat_atime. run.
    destruct (faulty _); [|destruct (present _ _)].
    + exists [ErrAccessTime p]. split; [done|]. by repeat constructor.
    + exists []. split; [apply emitted_refl|done].
    + exists [ErrAccessTime p]. split; [done|]. by repeat constructor.
Qed.

(** The target directory is always computed; on the way only lines about
    the metadata of the file are printed, and the tree stays as it is. *)
Lemma target_directory_emitted (src_directory file_path : path)
    (attr : TimeAttribute) (thresholds : SizeThresholds) (w : world) :
  ∃ target w' msgs,
    target_directory src_directory file_path attr thresholds w
      = (Returned target, w') ∧
    w_fs w' = w_fs w ∧ emitted w w' msgs ∧
    Forall (λ m, is_diagnosis m = true) msgs.
Proof.
  unfold target_directory.
  destruct (get_file_time_frame file_path attr w) as (t & w1 & Ht & Hfs & Hc).
  destruct (get_file_time_emitted file_path attr w) as (msgs & Hm & Hf).
  rewrite Ht in Hm. simpl in Hm.
  erewrite bind_returned by by apply get_metadata_based_dir_value.
  destruct (file_size (w_fs w) file_path).
  - eexists _, w1, msgs. by split_and!.
  - eexists _, _, (msgs ++ [ErrFileSize file_path]). split_and!; [done|done| |].
    + eapply emitted_trans; [done|apply emitted_say].
    + apply Forall_app. split; [done|]. by repeat constructor.
Qed.

(** *** Directory creation *)

Lemma elem_of_prefixes (d p : path) : d ∈ prefixes p ↔ d `prefix_of` p.
Proof.
  unfold prefixes. rewrite list_elem_of_fmap. split.
  - intros (n & -> & _). exists (drop n p). by rewrite take_drop.
  - intros [k ->]. exists (length d). split.
    + by rewrite take_app_length.
    + apply elem_of_seq. rewrite length_app. lia.
Qed.

Lemma lookup_constant_map (l : list path) (c : inode) (p : path) :
  (list_to_map ((λ d, (d, c)) <$> l) : filesystem) !! p =
    if decide (p ∈ l) then Some c else None.
Proof.
  induction l as [|d l IH].
  - rewrite fmap_nil, list_to_map_nil, lookup_empty.
    destruct (decide (p ∈ [])) as [H|]; [|done]. by apply elem_of_nil in H.
  - rewrite fmap_cons, list_to_map_cons, lookup_insert, IH.
    destruct (decide (d = p)) as [->|Hne], (decide (p ∈ l)) as [Hl|Hl],
      (decide (p ∈ _ :: l)) as [Hc|Hc]; try done.
    + destruct Hc. apply list_elem_of_here.
    + destruct Hc. apply list_elem_of_here.
    + destruct Hc. by apply list_elem_of_further.
    + apply elem_of_cons in Hc as [?|?]; by subst.
Qed.

(** The tree after the missing directories towards [target] were created. *)
Lemma lookup_with_directories (fs : filesystem) (clock : Z) (target p : path) :
  (fs ∪ list_to_map ((λ d, (d, mk_directory clock)) <$> prefixes target)) !! p =
    match fs !! p with
    | Some i => Some i
    | None => if decide (p `prefix_of` target) then Some (mk_directory clock) else None
    end.
Proof.
  rewrite lookup_union, lookup_constant_map.
  destruct (fs !! p) as [i|] eqn:Hp; simpl.
  - by destruct (decide (p ∈ prefixes target)).
  - destruct (decide (p `prefix_of` target)) as [Hpre|Hpre].
    + by rewrite decide_True by by apply elem_of_prefixes.
    + rewrite decide_False; [done|]. by rewrite elem_of_prefixes.
Qed.

Lemma regular_files_lookup (fs : filesystem) (p : path) :
  regular_files fs !! p =
    match fs !! p with
    | Some i => if is_regular i then Some i else None
    | None => None
    end.
Proof.
  unfold regular_files. rewrite map_lookup_filter.
  destruct (fs !! p) as [i|]; simpl; [|done].
  destruct (is_regular i) eqn:Hr.
  - by rewrite option_guard_True.
  - by rewrite option_guard_False.
Qed.

Lemma regular_files_with_directories (fs : filesystem) (clock : Z) (target : path) :
  regular_files
    (fs ∪ list_to_map ((λ d, (d, mk_directory clock)) <$> prefixes target))
  = regular_files fs.
Proof.
  apply map_eq. intros p.
  rewrite !regular_files_lookup, lookup_with_directories.
  destruct (fs !! p); [done|]. by case_decide.
Qed.

Lemma create_directories_cases (target : path) (w : world) :
  create_directories target w = (Returned false, w) ∨
  create_directories target w =
    (Returned true,
     {| w_fs := w_fs w ∪
          list_to_map ((λ d, (d, mk_directory (w_clock w))) <$> prefixes target);
        w_clock := w_clock w; w_out := w_out w |}) ∧
  w_fs w !! target = None ∧
  Forall (λ d, w_fs w !! d = None ∨ fs_is_directory (w_fs w) d = true)
         (prefixes target).
Proof.
  unfold create_directories.
  destruct (faulty _); [by left|].
  destruct (present _ _) eqn:Hp; [by left|].
  case_bool_decide as H; [right|by left]. split_and!; [done|by apply present_false|].
  eapply Forall_impl; [done|]. simpl. intros d [?|?]; [by left|right].
  by destruct (fs_is_directory (w_fs w) d).
Qed.

(** *** The ways through one iteration *)

(** Every property of [commit], [move_file], [place] and [relocate] below
    is proved along the ways that the code can take; the following lemmas
    list them. *)

Lemma commit_cases (Q : outcome bool * world → Prop)
    (source_file final_target : path) (dry_run verbose : bool) (w : world) :
  (dry_run = true →
     Q (Returned true, (say (DryRunWouldMove source_file final_target) w).2)) →
  (∀ fs', dry_run = false →
     rename (w_fs w) source_file final_target = Some fs' →
     Q (Returned true,
        {| w_fs := fs'; w_clock := w_clock w;
           w_out := w_out w ++
             (if verbose then [Moved source_file final_target] else []) |})) →
  (dry_run = false →
     rename (w_fs w) source_file final_target = None →
     Q (Returned false, (say (ErrMove source_file final_target) w).2)) →
  Q (commit source_file final_target dry_run verbose w).
Proof.
  intros Hdry Hok Hfail. destruct dry_run; [by apply Hdry|].
  destruct (rename (w_fs w) source_file final_target) as [fs'|] eqn:Hr.
  - rewrite (commit_success _ _ _ _ _ Hr). by apply Hok.
  - rewrite (commit_failure _ _ _ _ Hr). by apply Hfail.
Qed.

Lemma move_file_cases (Q : outcome bool * world → Prop)
    (source_file target_file : path) (dry_run verbose : bool) (w : world) :
  (source_file = target_file →
     Q (Returned true,
        (when verbose (say (SkipAlreadyCorrect source_file)) w).2)) →
  (source_file ≠ target_file → faulty (sys_status target_file) = true →
     Q (Uncaught target_file, w)) →
  (source_file ≠ target_file → faulty (sys_status target_file) = false →
     w_fs w !! target_file = None →
     Q (commit source_file target_file dry_run verbose w)) →
  (source_file ≠ target_file → faulty (sys_status target_file) = false →
     is_Some (w_fs w !! target_file) →
     slurp (w_fs w) source_file = slurp (w_fs w) target_file →
     Q (Returned true, (when verbose (say (SkipIdentical source_file)) w).2)) →
  (∀ n, source_file ≠ target_file → faulty (sys_status target_file) = false →
     is_Some (w_fs w !! target_file) →
     slurp (w_fs w) source_file ≠ slurp (w_fs w) target_file →
     1 ≤ n ≤ 1 + Z.of_nat (size (w_fs w)) →
     (∀ k, 1 ≤ k < n →
        is_Some (w_fs w !! numbered target_file k) ∧
        faulty (sys_status (numbered target_file k)) = false) →
     faulty (sys_status (numbered target_file n)) = true →
     Q (Uncaught (numbered target_file n), w)) →
  (∀ n, source_file ≠ target_file → faulty (sys_status target_file) = false →
     is_Some (w_fs w !! target_file) →
     slurp (w_fs w) source_file ≠ slurp (w_fs w) target_file →
     1 ≤ n ≤ 1 + Z.of_nat (size (w_fs w)) →
     (∀ k, 1 ≤ k < n →
        is_Some (w_fs w !! numbered target_file k) ∧
        faulty (sys_status (numbered target_file k)) = false) →
     faulty (sys_status (numbered target_file n)) = false →
     w_fs w !! numbered target_file n = None →
     Q (commit source_file (numbered target_file n) dry_run verbose w)) →
  Q (move_file source_file target_file dry_run verbose w).
Proof.
  intros Hsame Hthrow Hfree Hident Hloop Hnum.
  destruct (decide (source_file = target_file)) as [Heq|Hne].
  { unfold move_file. rewrite decide_True by done.
    specialize (Hsame Heq). by destruct verbose. }
  destruct (faulty (sys_status target_file)) eqn:Hst.
  { unfold move_file. rewrite decide_False by done.
    erewrite bind_uncaught by by apply fs_exists_throws. by apply Hthrow. }
  rewrite move_file_unfold by done.
  destruct (present (w_fs w) target_file) eqn:Hex.
  2:{ apply present_false in Hex. by apply Hfree. }
  apply present_true in Hex. case_decide as Hdiff.
  - destruct (unique_name_least target_file w) as (n & Hn & Hbelow & Hres).
    destruct Hres as [[Hbad Hu]|(Hok & Hnone & Hu)].
    + erewrite bind_uncaught by done. by apply (Hloop n).
    + erewrite bind_returned by done. by apply (Hnum n).
  - assert (slurp (w_fs w) source_file = slurp (w_fs w) target_file) as Heq.
    { by destruct (decide (slurp (w_fs w) source_file = slurp (w_fs w) target_file)). }
    specialize (Hident Hne eq_refl Hex Heq). by destruct verbose.
Qed.

Lemma place_cases (Q : outcome unit * world → Prop)
    (file_path target : path) (dry_run verbose : bool) (w : world) :
  let target_file_path := target /: filename file_path in
  (faulty (sys_status target) = true → Q (Uncaught target, w)) →
  (faulty (sys_status target) = false → is_Some (w_fs w !! target) →
     Q (move_and_continue file_path target_file_path dry_run verbose w)) →
  (faulty (sys_status target) = false → w_fs w !! target = None →
     dry_run = true →
     Q (move_and_continue file_path target_file_path true verbose
          (when verbose (say (DryRunWouldCreateDirectory target)) w).2)) →
  (faulty (sys_status target) = false → w_fs w !! target = None →
     dry_run = false →
     create_directories target w = (Returned false, w) →
     Q (Returned tt, (say (ErrCreateDirectory target) w).2)) →
  (faulty (sys_status target) = false → w_fs w !! target = None →
     dry_run = false →
     Forall (λ d, w_fs w !! d = None ∨ fs_is_directory (w_fs w) d = true)
            (prefixes target) →
     Q (move_and_continue file_path target_file_path false verbose
          (when verbose (say (CreatedDirectory target))
             {| w_fs := w_fs w ∪
                  list_to_map ((λ d, (d, mk_directory (w_clock w)))
                                 <$> prefixes target);
                w_clock := w_clock w; w_out := w_out w |}).2)) →
  Q (place file_path target dry_run verbose w).
Proof.
  intros tf Hthrow Hthere Hdry Hfail Hmade. unfold place.
  destruct (faulty (sys_status target)) eqn:Hst.
  { erewrite bind_uncaught by by apply fs_exists_throws. by apply Hthrow. }
  erewrite bind_returned by by apply fs_exists_value.
  destruct (present (w_fs w) target) eqn:Hex; simpl.
  { apply present_true in Hex. by apply Hthere. }
  apply present_false in Hex. destruct dry_run.
  { specialize (Hdry eq_refl Hex eq_refl). by destruct verbose. }
  destruct (create_directories_cases target w) as [Hc|(Hc & _ & Hall)].
  - erewrite bind_returned by done. simpl. by apply Hfail.
  - erewrite bind_returned by done. simpl.
    specialize (Hmade eq_refl Hex eq_refl Hall). by destruct verbose.
Qed.

Lemma relocate_cases (Q : outcome unit * world → Prop)
    (src_directory : path) (attr : TimeAttribute) (thresholds : SizeThresholds)
    (dry_run verbose : bool) (file_path : path) (w : world) :
  (faulty (sys_status file_path) = true → Q (Uncaught file_path, w)) →
  (faulty (sys_status file_path) = false → w_fs w !! file_path = None →
     Q (Returned tt, (when verbose (say (SkipMissing file_path)) w).2)) →
  (∀ target w0 msgs,
     faulty (sys_status file_path) = false → is_Some (w_fs w !! file_path) →
     target_directory src_directory file_path attr thresholds w
       = (Returned target, w0) →
     w_fs w0 = w_fs w → emitted w w0 msgs →
     Forall (λ m, is_diagnosis m = true) msgs →
     Q (place file_path target dry_run verbose w0)) →
  Q (relocate src_directory attr thresholds dry_run verbose file_path w).
Proof.
  intros Hthrow Hmissing Hplace. unfold relocate.
  destruct (faulty (sys_status file_path)) eqn:Hst.
  { erewrite bind_uncaught by by apply fs_exists_throws. by apply Hthrow. }
  erewrite bind_returned by by apply fs_exists_value.
  destruct (present (w_fs w) file_path) eqn:Hex; simpl.
  2:{ apply present_false in Hex. specialize (Hmissing eq_refl Hex).
      by destruct verbose. }
  apply present_true in Hex.
  destruct (target_directory_emitted src_directory file_path attr thresholds w)
    as (target & w0 & msgs & Ht & Hfs & Hem & Hdiag).
  erewrite bind_returned by done. by eapply Hplace.
Qed.

Lemma for_each_cases (Q : outcome unit * world → Prop) (body : path → M unit)
    (f : path) (rest : list path) (w : world) :
  (∀ p w1, body f w = (Uncaught p, w1) → Q (Uncaught p, w1)) →
  (∀ w1, body f w = (Returned tt, w1) → Q (for_each body rest w1)) →
  Q (for_each body (f :: rest) w).
Proof.
  intros Hthrow Hgo. simpl. unfold mbind, M_bind.
  destruct (body f w) as [[[]|p] w1]; [by apply Hgo|by apply Hthrow].
Qed.



Lemma move_and_continue_returned (file_path target_file_path : path)
    (dry_run verbose : bool) (w w' : world) (b : bool) :
  move_file file_path target_file_path dry_run verbose w = (Returned b, w') →
  move_and_continue file_path target_file_path dry_run verbose w
    = (Returned tt, w').
Proof. intros H. unfold move_and_continue. by erewrite bind_returned by done. Qed.


Lemma relocate_present (src_directory : path) (attr : TimeAttribute)
    (thresholds : SizeThresholds) (dry_run verbose : bool)
    (file_path target : path) (w w0 : world) :
  faulty (sys_status file_path) = false → is_Some (w_fs w !! file_path) →
  target_directory src_directory file_path attr thresholds w
    = (Returned target, w0) →
  relocate src_directory attr thresholds dry_run verbose file_path w
    = place file_path target dry_run verbose w0.
Proof.
  intros Hst Hex Ht. unfold relocate.
  erewrite bind_returned by by apply fs_exists_value.
  rewrite (proj2 (present_true _ _) Hex). simpl.
  by erewrite bind_returned by done.
Qed.

Lemma place_present (file_path target : path) (dry_run verbose : bool)
    (w : world) :
  faulty (sys_status target) = false → is_Some (w_fs w !! target) →
  place file_path target dry_run verbose w
    = move_and_continue file_path (target /: filename file_path)
        dry_run verbose w.
Proof.
  intros Hst Hex. unfold place.
  erewrite bind_returned by by apply fs_exists_value.
  by rewrite (proj2 (present_true _ _) Hex).
Qed.

Lemma place_absent (file_path target : path) (verbose : bool) (w : world) :
  faulty (sys_status target) = false → w_fs w !! target = None →
  place file_path target false verbose w =
    (create_directories target ≫= λ created,
       if negb created then say (ErrCreateDirectory target)
       else when verbose (say (CreatedDirectory target));;
            move_and_continue file_path (target /: filename file_path)
              false verbose) w.
Proof.
  intros Hst Hex. unfold place.
  erewrite bind_returned by by apply fs_exists_value.
  by rewrite (proj2 (present_false _ _) Hex).
Qed.




(** *** Failures stay with their file, exceptions do not *)

Lemma iteration_report_prefix (f : path) (verbose : bool)
    (w w0 : world) (r : outcome unit * world) (pre : list message) :
  emitted w w0 pre →
  Forall (λ m, is_outcome m = false ∧ is_failure m = false) pre →
  regular_files (w_fs w0) = regular_files (w_fs w) →
  iteration_report f verbose w0 r → iteration_report f verbose w r.
Proof.
  intros Hem Hpre Hfs (msgs & Hm & Hr). exists (pre ++ msgs).
  split; [by eapply emitted_trans|].
  assert (filter (λ m, is_outcome m = true) pre = []) as Hnone.
  { clear Hem. induction Hpre as [|m pre [Hm1 _] _ IH]; [done|].
    rewrite filter_cons_False; [done|]. by rewrite Hm1. }
  rewrite filter_app, Hnone. simpl.
  rewrite <-Hfs. destruct r.1; [|done].
  destruct Hr as (H1 & H2 & H3 & H4). split_and!; [done..|].
  intros m [Hin|Hin]%elem_of_app Hfail; [|by apply H4].
  rewrite Forall_forall in Hpre. destruct (Hpre m Hin) as [_ Hnf].
  by rewrite Hnf in Hfail.
Qed.

Lemma move_file_report (file_path target_file_path : path) (verbose : bool)
    (w : world) :
  iteration_report file_path verbose w
    (move_and_continue file_path target_file_path false verbose w).
Proof.
  unfold move_and_continue.
  apply (move_file_cases
           (λ r, iteration_report file_path verbose w
                   (match r with
                    | (Returned _, w') => (Returned tt, w')
                    | (Uncaught p, w') => (Uncaught p, w')
                    end))).
  - intros _. exists (if verbose then [SkipAlreadyCorrect file_path] else []).
    split; [apply emitted_when|]. destruct verbose; simpl.
    + split_and!; [by repeat constructor|lia|done|].
      by intros m ->%list_elem_of_singleton.
    + split_and!; [done|lia|done|]. by intros m ?%elem_of_nil.
  - intros _ Hst. exists []. split; [apply emitted_refl|done].
  - intros _ _ _.
    apply (commit_cases
             (λ r, iteration_report file_path verbose w
                     (match r with
                      | (Returned _, w') => (Returned tt, w')
                      | (Uncaught p, w') => (Uncaught p, w')
                      end))); [done| |].
    + intros fs' _ Hr.
      exists (if verbose then [Moved file_path target_file_path] else []).
      split; [done|]. destruct verbose; simpl.
      * split_and!; [by repeat constructor|lia|done|].
        by intros m ->%list_elem_of_singleton.
      * split_and!; [done|lia|done|]. by intros m ?%elem_of_nil.
    + intros _ Hr. exists [ErrMove file_path target_file_path].
      split; [done|]. simpl.
      split_and!; [by repeat constructor|lia|done|].
      intros m ->%list_elem_of_singleton _. split; [|done]. right. eauto.
  - intros _ _ _ _. exists (if verbose then [SkipIdentical file_path] else []).
    split; [apply emitted_when|]. destruct verbose; simpl.
    + split_and!; [by repeat constructor|lia|done|].
      by intros m ->%list_elem_of_singleton.
    + split_and!; [done|lia|done|]. by intros m ?%elem_of_nil.
  - intros n _ _ _ _ _ _ Hst. exists []. split; [apply emitted_refl|done].
  - intros n _ _ _ _ _ _ _ _.
    apply (commit_cases
             (λ r, iteration_report file_path verbose w
                     (match r with
                      | (Returned _, w') => (Returned tt, w')
                      | (Uncaught p, w') => (Uncaught p, w')
                      end))); [done| |].
    + intros fs' _ Hr.
      exists (if verbose
              then [Moved file_path (numbered target_file_path n)] else []).
      split; [done|]. destruct verbose; simpl.
      * split_and!; [by repeat constructor|lia|done|].
        by intros m ->%list_elem_of_singleton.
      * split_and!; [done|lia|done|]. by intros m ?%elem_of_nil.
    + intros _ Hr. exists [ErrMove file_path (numbered target_file_path n)].
      split; [done|]. simpl.
      split_and!; [by repeat constructor|lia|done|].
      intros m ->%list_elem_of_singleton _. split; [|done]. right. eauto.
Qed.

Lemma place_report (file_path target : path) (verbose : bool) (w : world) :
  iteration_report file_path verbose w (place file_path target false verbose w).
Proof.
  apply place_cases.
  - intros Hst. exists []. split; [apply emitted_refl|done].
  - intros _ _. apply move_file_report.
  - done.
  - intros _ _ _ _. exists [ErrCreateDirectory target]. split; [done|]. simpl.
    split_and!; [by repeat constructor|lia|done|].
    intros m ->%list_elem_of_singleton _. split; [|done]. left. eauto.
  - intros _ _ _ _.
    eapply (iteration_report_prefix _ _ _ _ _
              (if verbose then [CreatedDirectory target] else []));
      [| | |apply move_file_report].
    + destruct verbose; [done|]. split; [simpl; by rewrite app_nil_r|done].
    + destruct verbose; by repeat constructor.
    + destruct verbose; cbn; apply regular_files_with_directories.
Qed.

Lemma relocate_report (src_directory : path) (attr : TimeAttribute)
    (thresholds : SizeThresholds) (verbose : bool) (file_path : path)
    (w : world) :
  iteration_report file_path verbose w
    (relocate src_directory attr thresholds false verbose file_path w).
Proof.
  apply relocate_cases.
  - intros Hst. exists []. split; [apply emitted_refl|done].
  - intros _ _. exists (if verbose then [SkipMissing file_path] else []).
    split; [apply emitted_when|]. destruct verbose; simpl.
    + split_and!; [by repeat constructor|lia|done|].
      by intros m ->%list_elem_of_singleton.
    + split_and!; [done|lia|done|]. by intros m ?%elem_of_nil.
  - intros target w0 msgs _ _ _ Hfs Hem Hdiag.
    eapply iteration_report_prefix; [done| |by rewrite Hfs|apply place_report].
    eapply Forall_impl; [done|]. intros m Hm. by destruct m.
Qed.

(** What a real batch prints: when it returns, a verbose report has one
    outcome for each file, in the order of the snapshot; an exception that
    ends it comes from an existence check. *)
Lemma for_each_report (src_directory : path) (attr : TimeAttribute)
    (thresholds : SizeThresholds) (verbose : bool) (files : list path)
    (w : world) :
  let r := for_each (relocate src_directory attr thresholds false verbose)
             files w in
  ∃ msgs, emitted w r.2 msgs ∧
    match r.1 with
    | Uncaught p => faulty (sys_status p) = true
    | Returned _ =>
        verbose = true →
        Forall2 outcome_of files (filter (λ m, is_outcome m = true) msgs)
    end.
Proof.
  cbv zeta. revert w. induction files as [|f files IH]; intros w.
  { exists []. split; [apply emitted_refl|]. simpl. by constructor. }
  destruct (relocate_report src_directory attr thresholds verbose f w)
    as (msgs1 & Hem1 & Hr1).
  apply for_each_cases.
  - intros p w1 Heq. rewrite Heq in Hem1, Hr1. simpl in *.
    exists msgs1. by destruct Hr1.
  - intros w1 Heq. rewrite Heq in Hem1, Hr1. simpl in *.
    destruct (IH w1) as (msgs2 & Hem2 & Hr2).
    exists (msgs1 ++ msgs2). split; [by eapply emitted_trans|].
    destruct (for_each _ files w1).1; [|done].
    intros Hv. rewrite filter_app.
    destruct Hr1 as (Hof & _ & Hone & _). specialize (Hone Hv).
    destruct (filter _ msgs1) as [|m [|??]]; try done.
    apply Forall_inv in Hof.
    simpl. constructor; [done|by apply Hr2].
Qed.

(** C9 (the code against the claim). In a real batch, a directory that
    cannot be created and a rename that throws are reported and stay with
    their file: the iteration returns, its failure line is about that
    directory or that file, no regular file has changed, and the loop goes
    on: with the target directory missing and [create_directories]
    failing the iteration prints the error for the directory and returns,
    and with the target name free and [fs::rename] throwing it prints the
    error for the move and returns.  When the batch returns, a verbose
    report has one outcome for every file of the snapshot, in order.  But
    the existence checks are outside any [try]: an exception that ends the
    batch comes from one of them, on a path whose status cannot be read,
    and the remaining files are not looked at; with every status readable
    the batch returns.  So when the
    status of the target directory of the first file cannot be read, the
    batch ends there, before the directory is created and before any
    outcome or failure is printed, where the claim has the failure logged
    and the batch going on. *)
Theorem partial_failure_containment (src_directory : path)
    (attr : TimeAttribute) (thresholds : SizeThresholds) (verbose : bool)
    (files : list path) (w : world) :
  let body := relocate src_directory attr thresholds false verbose in
  let r := for_each body files w in
  (∀ f w1, iteration_report f verbose w1 (body f w1)) ∧
  (∀ p, r.1 = Uncaught p → faulty (sys_status p) = true) ∧
  ((∀ p, faulty (sys_status p) = false) → r.1 = Returned tt) ∧
  (∃ msgs, emitted w r.2 msgs ∧
     (verbose = true → r.1 = Returned tt →
        Forall2 outcome_of files (filter (λ m, is_outcome m = true) msgs))) ∧
  (∀ f rest target w0,
     files = f :: rest →
     faulty (sys_status f) = false → is_Some (w_fs w !! f) →
     target_directory src_directory f attr thresholds w = (Returned target, w0) →
     faulty (sys_status target) = true →
     r = (Uncaught target, w0) ∧ w_fs w0 = w_fs w ∧
     ∃ msgs, emitted w w0 msgs ∧ Forall (λ m, is_diagnosis m = true) msgs) ∧
  (∀ f w1 target w0,
     faulty (sys_status f) = false → is_Some (w_fs w1 !! f) →
     target_directory src_directory f attr thresholds w1 = (Returned target, w0) →
     faulty (sys_status target) = false →
     (w_fs w0 !! target = None →
      create_directories target w0 = (Returned false, w0) →
      body f w1 = (Returned tt, (say (ErrCreateDirectory target) w0).2)) ∧
     (let target_file_path := target /: filename f in
      is_Some (w_fs w0 !! target) →
      f ≠ target_file_path →
      faulty (sys_status target_file_path) = false →
      w_fs w0 !! target_file_path = None →
      rename (w_fs w0) f target_file_path = None →
      body f w1 = (Returned tt, (say (ErrMove f target_file_path) w0).2))).
Proof.
  cbv zeta.
  destruct (for_each_report src_directory attr thresholds verbose files w)
    as (msgs & Hem & Hr).
  split_and!.
  - intros f w1. apply relocate_report.
  - intros p Hp. by rewrite Hp in Hr.
  - intros Hok. destruct (for_each _ files w).1 as [[]|p]; [done|].
    by rewrite Hok in Hr.
  - exists msgs. split; [done|]. intros Hv Hret. rewrite Hret in Hr. auto.
  - intros f rest target w0 -> Hst Hex Ht Hbad.
    destruct (target_directory_emitted src_directory f attr thresholds w)
      as (target' & w0' & diag & Ht' & Hfs & Hem0 & Hdiag).
    rewrite Ht in Ht'. injection Ht' as <- <-.
    split_and!; [|done|by eauto].
    apply for_each_cases.
    + intros p w1. rewrite (relocate_present _ _ _ _ _ _ _ _ _ Hst Hex Ht).
      unfold place. by erewrite bind_uncaught by by apply fs_exists_throws.
    + intros w1. rewrite (relocate_present _ _ _ _ _ _ _ _ _ Hst Hex Ht).
      unfold place. by erewrite bind_uncaught by by apply fs_exists_throws.
  - intros f w1 target w0 Hst Hex Ht Hstt.
    rewrite (relocate_present _ _ _ _ _ _ _ _ _ Hst Hex Ht). split.
    + intros Habs Hc. rewrite place_absent by done.
      by erewrite bind_returned by done.
    + intros Htgt Hne Hsttf Hfree Hren.
      rewrite place_present by done.
      apply move_and_continue_returned with (b := false).
      rewrite move_file_unfold by done.
      rewrite (proj2 (present_false _ _) Hfree).
      by apply commit_failure.
Qed.

(** *** A file whose size cannot be read *)


(** *** Verbosity does not change what a run does *)

Lemma alike_ret {A} (a : A) : alike (mret a) (mret a).
Proof. by intros w w' H. Qed.

Lemma alike_bind {A B} (m m' : M A) (k k' : A → M B) :
  alike m m' → (∀ a, alike (k a) (k' a)) → alike (m ≫= k) (m' ≫= k').
Proof.
  intros Hm Hk w w' H. unfold mbind, M_bind.
  destruct (Hm w w' H) as [Hv Ha].
  destruct (m w) as [[a|p] w1], (m' w') as [[a'|p'] w1']; simpl in *;
    try discriminate.
  - injection Hv as ->. by apply Hk.
  - injection Hv as ->. by split.
Qed.

Lemma alike_when (b b' : bool) (m m' : message) :
  alike (when b (say m)) (when b' (say m')).
Proof. intros w w' [??]. by destruct b, b'. Qed.

Lemma alike_say (m : message) : alike (say m) (say m).
Proof. by intros w w' [??]. Qed.

Lemma alike_get_fs : alike get_fs get_fs.
Proof. intros w w' [H ?]. unfold get_fs. simpl. by rewrite H. Qed.

Lemma alike_put_fs (fs : filesystem) : alike (put_fs fs) (put_fs fs).
Proof. by intros w w' [??]. Qed.

Lemma alike_now : alike now now.
Proof. intros w w' [? H]. unfold now. simpl. by rewrite H. Qed.

Lemma alike_fs_exists (p : path) : alike (fs_exists p) (fs_exists p).
Proof.
  intros w w' [Hfs Hc]. unfold fs_exists. destruct (faulty _); [done|].
  run. by rewrite Hfs.
Qed.

Lemma alike_case_Modification (p : path) :
  alike (case_Modification p) (case_Modification p).
Proof.
  apply alike_bind; [apply alike_get_fs|]. intros fs.
  destruct (last_write_time fs p).
  - apply alike_bind; [apply alike_now|]. intros t1.
    apply alike_bind; [|intros t2; apply alike_ret].
    intros w w' [Hfs Hc]. unfold file_clock_now. simpl. by rewrite Hc.
  - apply alike_bind; [apply alike_say|]. intros _. apply alike_now.
Qed.

Lemma alike_get_file_time (p : path) (attr : TimeAttribute) :
  alike (get_file_time p attr) (get_file_time p attr).
Proof.
  pose proof (alike_case_Modification p) as Hmod.
  destruct attr; unfold get_file_time; [|done|].
  - destruct HAS_STATX; [|done].
    apply alike_bind.
    { apply alike_bind; [apply alike_get_fs|]. intros fs. apply alike_ret. }
    intros [t|]; [apply alike_ret|].
    apply alike_bind; [apply alike_say|]. by intros _.
  - apply alike_bind.
    { intros w w' [Hfs Hc]. unfold stat_atime. simpl. by rewrite Hfs, Hc. }
    intros [t|]; [apply alike_ret|].
    apply alike_bind; [apply alike_say|]. intros _. apply alike_now.
Qed.

Lemma alike_target_directory (src_directory p : path) (attr : TimeAttribute)
    (thresholds : SizeThresholds) :
  alike (target_directory src_directory p attr thresholds)
        (target_directory src_directory p attr thresholds).
Proof.
  apply alike_bind; [|intros d; apply alike_ret].
  apply alike_bind; [apply alike_get_file_time|]. intros t.
  apply alike_bind; [apply alike_get_fs|]. intros fs.
  apply alike_bind; [|intros n; apply alike_ret].
  destruct (file_size fs p); [apply alike_ret|].
  apply alike_bind; [apply alike_say|]. intros _. apply alike_ret.
Qed.

Lemma alike_create_directories (target : path) :
  alike (create_directories target) (create_directories target).
Proof.
  intros [fs c o] [fs' c' o'] [Hfs Hc]. simpl in *. subst fs' c'.
  unfold create_directories. simpl.
  by repeat case_match.
Qed.

Lemma alike_unique_name (target_file : path) (fuel : nat) (counter : Z) :
  alike (unique_name target_file fuel counter)
        (unique_name target_file fuel counter).
Proof.
  revert counter. induction fuel as [|fuel IH]; intros counter; simpl.
  - apply alike_ret.
  - apply alike_bind; [apply alike_fs_exists|].
    intros [|]; [apply IH|apply alike_ret].
Qed.

Lemma alike_move_and_continue (f target : path) (dry_run v v' : bool) :
  alike (move_and_continue f target dry_run v)
        (move_and_continue f target dry_run v').
Proof.
  apply alike_bind; [|intros b; apply alike_ret].
  assert (∀ final, alike (commit f final dry_run v) (commit f final dry_run v'))
    as Hcommit.
  { intros final. unfold commit. destruct dry_run.
    - apply alike_bind; [apply alike_say|]. intros _. apply alike_ret.
    - apply alike_bind; [apply alike_get_fs|]. intros fs.
      destruct (rename fs f final).
      + apply alike_bind; [apply alike_put_fs|]. intros _.
        apply alike_bind; [apply alike_when|]. intros _. apply alike_ret.
      + apply alike_bind; [apply alike_say|]. intros _. apply alike_ret. }
  unfold move_file. case_decide.
  { apply alike_bind; [apply alike_when|]. intros _. apply alike_ret. }
  apply alike_bind; [apply alike_fs_exists|]. intros [|]; [|done].
  apply alike_bind; [apply alike_get_fs|]. intros fs.
  case_decide.
  - apply alike_bind; [apply alike_unique_name|]. intros final. apply Hcommit.
  - apply alike_bind; [apply alike_when|]. intros _. apply alike_ret.
Qed.

Lemma alike_place (f target : path) (dry_run v v' : bool) :
  alike (place f target dry_run v) (place f target dry_run v').
Proof.
  apply alike_bind; [apply alike_fs_exists|]. intros target_exists.
  destruct (negb target_exists); [|apply alike_move_and_continue].
  destruct dry_run.
  - apply alike_bind; [apply alike_when|]. intros _.
    apply alike_move_and_continue.
  - apply alike_bind; [apply alike_create_directories|]. intros created.
    destruct (negb created); [apply alike_say|].
    apply alike_bind; [apply alike_when|]. intros _.
    apply alike_move_and_continue.
Qed.

Lemma alike_relocate (src_directory : path) (attr : TimeAttribute)
    (thresholds : SizeThresholds) (dry_run v v' : bool) (f : path) :
  alike (relocate src_directory attr thresholds dry_run v f)
        (relocate src_directory attr thresholds dry_run v' f).
Proof.
  apply alike_bind; [apply alike_fs_exists|]. intros file_exists.
  destruct (negb file_exists); [apply alike_when|].
  apply alike_bind; [apply alike_target_directory|]. intros target.
  apply alike_place.
Qed.

Lemma alike_for_each (body body' : path → M unit) (files : list path) :
  (∀ f, alike (body f) (body' f)) → alike (for_each body files) (for_each body' files).
Proof.
  intros H. induction files as [|f files IH]; [apply alike_ret|].
  simpl. apply alike_bind; [apply H|]. by intros _.
Qed.

Lemma alike_collect_all_files (src_directory : path) (v v' : bool) :
  alike (collect_all_files src_directory v) (collect_all_files src_directory v').
Proof.
  apply alike_bind; [apply alike_get_fs|]. intros fs.
  apply alike_bind.
  - destruct (fs_is_directory fs src_directory); [apply alike_ret|].
    apply alike_bind; [apply alike_say|]. intros _. apply alike_ret.
  - intros files. apply alike_bind; [apply alike_when|]. intros _.
    apply alike_ret.
Qed.

(** The tree that a run leaves does not depend on its verbosity. *)
Lemma alike_run (src_directory : path) (attr : TimeAttribute)
    (thresholds : SizeThresholds) (dry_run v v' : bool) :
  alike (move_files_by_extension_and_metadata src_directory attr thresholds dry_run v)
        (move_files_by_extension_and_metadata src_directory attr thresholds dry_run v').
Proof.
  apply alike_bind; [apply alike_collect_all_files|].
  intros files. apply alike_for_each. intros f. apply alike_relocate.
Qed.

(** *** Runs without failing calls *)

Section NoFaults.

Hypothesis no_faults : ∀ s, faulty s = false.

Lemma get_file_time_no_faults (p : path) (attr : TimeAttribute) (w : world)
    (i : inode) :
  attr ≠ Access → w_fs w !! p = Some i →
  i_mtime i `div` 1000000000 < max_seconds →
  ∃ w', get_file_time p attr w
          = (Returned (int64 (i_mtime i - clock_skew p (w_clock w))), w') ∧
        w_fs w' = w_fs w ∧ w_clock w' = w_clock w ∧
        (emitted w w' [] ∨ emitted w w' [WarnCreationTime p]).
Proof.
  intros Hattr Hp Hrange.
  assert (∀ w0, w_fs w0 = w_fs w → w_clock w0 = w_clock w →
            case_Modification p w0
              = (Returned (int64 (i_mtime i - clock_skew p (w_clock w))), w0))
    as Hmod.
  { intros w0 Hfs Hc. rewrite case_Modification_value.
    rewrite (last_write_time_Some _ _ i); [|done|by rewrite Hfs|done].
    by rewrite int64_sub_l, Hc. }
  destruct attr; unfold get_file_time; [| |done].
  - destruct HAS_STATX.
    + unfold get_creation_time. run. rewrite Hmod by done.
      eexists. split_and!; [done..|]. by right.
    + rewrite Hmod by done.
      exists w. split_and!; [done..|]. left. apply emitted_refl.
  - rewrite Hmod by done.
    exists w. split_and!; [done..|]. left. apply emitted_refl.
Qed.

Lemma file_size_no_faults (fs : filesystem) (p : path) (i : inode) :
  fs !! p = Some i → is_regular i = true →
  file_size fs p = Some (inode_size i).
Proof.
  intros Hp Hr. unfold file_size, inode_size. rewrite no_faults, Hp.
  destruct i as [[data|] ? ?]; done.
Qed.

(** With no failing call, the target directory of a regular file by
    creation or modification time is its [home], and at most the
    creation-time warning is printed. *)
Lemma target_directory_no_faults (src_directory p : path)
    (attr : TimeAttribute) (thresholds : SizeThresholds) (w : world) (i : inode) :
  attr ≠ Access → w_fs w !! p = Some i → is_regular i = true →
  i_mtime i `div` 1000000000 < max_seconds →
  ∃ w', target_directory src_directory p attr thresholds w =
          (Returned (home src_directory thresholds (w_clock w) p i), w') ∧
        w_fs w' = w_fs w ∧ w_clock w' = w_clock w ∧
        (emitted w w' [] ∨ emitted w w' [WarnCreationTime p]).
Proof.
  intros Hattr Hp Hr Hrange. unfold target_directory.
  destruct (get_file_time_no_faults p attr w i Hattr Hp Hrange)
    as (w' & Ht & Hfs & Hc & Hm).
  erewrite bind_returned by by apply get_metadata_based_dir_value.
  rewrite (file_size_no_faults _ _ _ Hp Hr). simpl.
  exists w'. by split_and!.
Qed.

Lemma regular_not_directory (i : inode) :
  is_regular i = true → is_directory i = true → False.
Proof. unfold is_regular, is_directory. by destruct (i_type i). Qed.

Lemma parent_path_prefix (p : path) : parent_path p `prefix_of` p.
Proof.
  destruct (decide (p = [])) as [->|Hne]; [done|].
  exists [List.last p ""]. unfold parent_path. by apply app_removelast_last.
Qed.

Lemma fs_is_directory_with_directories (fs : filesystem) (clock : Z)
    (target q : path) :
  (fs_is_directory fs q = true ∨ (fs !! q = None ∧ q `prefix_of` target)) →
  fs_is_directory
    (fs ∪ list_to_map ((λ d, (d, mk_directory clock)) <$> prefixes target)) q = true.
Proof.
  unfold fs_is_directory. rewrite lookup_with_directories.
  intros [H|[-> Hpre]].
  - by destruct (fs !! q).
  - by rewrite decide_True.
Qed.

Lemma well_formed_with_directories (fs : filesystem) (clock : Z) (target : path) :
  well_formed fs →
  Forall (λ d, fs !! d = None ∨ fs_is_directory fs d = true) (prefixes target) →
  well_formed
    (fs ∪ list_to_map ((λ d, (d, mk_directory clock)) <$> prefixes target)).
Proof.
  intros Hwf Hall p i. rewrite lookup_with_directories.
  destruct (fs !! p) as [i0|] eqn:Hp.
  - intros [= <-]. destruct (Hwf p i0 Hp) as [Hparent Hname]. split; [|done].
    intros Hne. apply fs_is_directory_with_directories. left. by apply Hparent.
  - case_decide as Hpre; [|done]. intros [= <-]. split; [|done].
    intros Hne. apply fs_is_directory_with_directories.
    assert (parent_path p `prefix_of` target) as Hpp.
    { etrans; [apply parent_path_prefix|done]. }
    rewrite Forall_forall in Hall.
    destruct (Hall (parent_path p)) as [?|?]; [by apply elem_of_prefixes|..];
      by eauto.
Qed.

Lemma steady_with_directories (fs : filesystem) (clock : Z) (target : path) :
  steady fs →
  steady (fs ∪ list_to_map ((λ d, (d, mk_directory clock)) <$> prefixes target)).
Proof.
  intros Hst p i. rewrite lookup_with_directories.
  destruct (fs !! p) as [i0|] eqn:Hp.
  - intros [= <-]. by apply (Hst p).
  - case_decide; [|done]. by intros [= <-].
Qed.

Lemma fs_is_directory_moved (fs : filesystem) (f final q : path) (i : inode) :
  fs !! f = Some i → is_regular i = true → fs !! final = None →
  fs_is_directory fs q = true →
  fs_is_directory (<[final := i]> (delete f fs)) q = true.
Proof.
  intros Hf Hr Hfinal (j & Hq & Hd)%fs_is_directory_true.
  apply fs_is_directory_true. exists j. split; [|done].
  rewrite lookup_insert_ne, lookup_delete_ne; [done|..].
  - intros ->. rewrite Hf in Hq. injection Hq as ->.
    by destruct (regular_not_directory j).
  - intros ->. by rewrite Hfinal in Hq.
Qed.

Lemma well_formed_moved (fs : filesystem) (f final : path) (i : inode) :
  well_formed fs →
  fs !! f = Some i → is_regular i = true → fs !! final = None →
  fs_is_directory fs (parent_path final) = true →
  filename final ≠ "" → filename final ≠ ".." →
  well_formed (<[final := i]> (delete f fs)).
Proof.
  intros Hwf Hf Hr Hfinal Hparent Hn1 Hn2 p j.
  rewrite lookup_insert. case_decide as Hp.
  - subst p. intros [= <-]. split.
    + intros _. by apply fs_is_directory_moved.
    + intros _. destruct (Hwf f i Hf) as [_ Hname].
      destruct (Hname Hr) as (_ & _ & ?). done.
  - rewrite lookup_delete. case_decide; [done|]. intros Hj.
    destruct (Hwf p j Hj) as [Hpar Hname]. split; [|done].
    intros Hne. apply fs_is_directory_moved; auto.
Qed.

Lemma steady_moved (fs : filesystem) (f final : path) (i : inode) :
  steady fs → fs !! f = Some i →
  steady (<[final := i]> (delete f fs)).
Proof.
  intros Hst Hf p j. rewrite lookup_insert. case_decide.
  - intros [= <-]. by apply (Hst f).
  - rewrite lookup_delete. case_decide; [done|]. apply Hst.
Qed.

(** A rename of a regular file that goes through moved exactly one entry,
    into a directory. *)
Lemma rename_regular_inv (fs fs' : filesystem) (src dst : path) (i : inode) :
  fs !! src = Some i → is_regular i = true →
  rename fs src dst = Some fs' →
  fs' = <[dst := i]> (delete src fs) ∧
  fs_is_directory fs (parent_path dst) = true.
Proof.
  intros Hs Hr. unfold rename. rewrite Hs, Hr.
  destruct (faulty _); [done|].
  destruct (fs_is_directory fs (parent_path dst)); [|done]. simpl.
  destruct (fs_is_directory fs dst); [done|]. by intros [= <-].
Qed.

Lemma left_behind_emitted_l (w1 w2 w3 : world) (msgs : list message) :
  left_behind w1 w2 → emitted w2 w3 msgs → left_behind w1 w3.
Proof.
  intros (msgs0 & m & He & Hin & Hm) H. exists (msgs0 ++ msgs), m.
  split_and!; [by eapply emitted_trans| |done].
  apply elem_of_app. by left.
Qed.

Lemma left_behind_emitted_r (w1 w2 w3 : world) (msgs : list message) :
  emitted w1 w2 msgs → left_behind w2 w3 → left_behind w1 w3.
Proof.
  intros H (msgs0 & m & He & Hin & Hm). exists (msgs ++ msgs0), m.
  split_and!; [by eapply emitted_trans| |done].
  apply elem_of_app. by right.
Qed.

(** The outcomes of [move_file] for a regular file headed for the directory
    [target]: it is there already, or it arrives there under a name with the
    same extension, or it is reported as left behind. *)
Lemma move_file_outcomes (file_path target : path) (w : world) (i : inode) :
  w_fs w !! file_path = Some i → is_regular i = true →
  filename file_path ≠ ".." →
  ∃ w', move_and_continue file_path (target ++ [filename file_path]) false true w
          = (Returned tt, w') ∧
        w_clock w' = w_clock w ∧
        ((file_path = target ++ [filename file_path] ∧ w_fs w' = w_fs w) ∨
         (∃ name,
            w_fs w !! (target ++ [name]) = None ∧
            fs_is_directory (w_fs w) target = true ∧
            extension name = extension (filename file_path) ∧
            (filename file_path ≠ "" → name ≠ "") ∧ name ≠ ".." ∧
            w_fs w' = <[target ++ [name] := i]> (delete file_path (w_fs w))) ∨
         left_behind w w').
Proof.
  intros Hf Hr Hname.
  set (tgt := target ++ [filename file_path]).
  set (Q := λ r : outcome bool * world,
         ∃ w', r.2 = w' ∧ (∃ b, r.1 = Returned b) ∧
           w_clock w' = w_clock w ∧
           ((file_path = tgt ∧ w_fs w' = w_fs w) ∨
            (∃ name,
               w_fs w !! (target ++ [name]) = None ∧
               fs_is_directory (w_fs w) target = true ∧
               extension name = extension (filename file_path) ∧
               (filename file_path ≠ "" → name ≠ "") ∧ name ≠ ".." ∧
               w_fs w' = <[target ++ [name] := i]> (delete file_path (w_fs w))) ∨
            left_behind w w')).
  assert (Q (move_file file_path tgt false true w)) as (w' & Hw' & [b Hb] & HQ).
  2:{ exists w'. split; [|done]. eapply move_and_continue_returned.
      destruct (move_file file_path tgt false true w) as [r w0].
      simpl in *. by subst. }
  assert (∀ name, w_fs w !! (target ++ [name]) = None →
            extension name = extension (filename file_path) →
            (filename file_path ≠ "" → name ≠ "") → name ≠ ".." →
            Q (commit file_path (target ++ [name]) false true w)) as Hcommit.
  { intros name Hfree Hext Hn1 Hn2. apply commit_cases; [done| |].
    - intros fs' _ Hren. eexists. split; [done|]. split; [by eauto|].
      split; [done|]. right. left.
      apply (rename_regular_inv _ _ _ _ i) in Hren as [-> Hdir]; [|done..].
      rewrite parent_path_snoc in Hdir. exists name. by split_and!.
    - intros _ Hren. eexists. split; [done|]. split; [by eauto|].
      split; [done|]. right. right.
      exists [ErrMove file_path (target ++ [name])],
             (ErrMove file_path (target ++ [name])).
      split_and!; [done|apply list_elem_of_here|done]. }
  apply move_file_cases.
  - intros Heq. eexists. split; [done|]. split; [by eauto|]. split; [done|].
    by left.
  - intros _ Hbad. by rewrite no_faults in Hbad.
  - intros _ _ Hfree. by apply Hcommit.
  - intros _ _ _ _. eexists. split; [done|]. split; [by eauto|]. split; [done|].
    right. right.
    exists [SkipIdentical file_path], (SkipIdentical file_path).
    split_and!; [done|apply list_elem_of_here|done].
  - intros n _ _ _ _ _ _ Hbad. by rewrite no_faults in Hbad.
  - intros n _ _ _ _ _ _ _ Hfree.
    rewrite numbered_unfold in Hfree |- *. unfold tgt in Hfree |- *.
    rewrite parent_path_snoc, filename_snoc in Hfree |- *.
    apply Hcommit; [done| | |].
    + by apply extension_numbered_name.
    + intros _. apply numbered_name_nonempty.
    + intros H. by destruct (numbered_name_not_special (filename file_path) n); right.
Qed.

(** *** The invariant of a clean run *)

Lemma settled_lookup (src_directory : path) (thresholds : SizeThresholds)
    (clock : Z) (fs fs' : filesystem) (p : path) :
  fs' !! p = fs !! p →
  settled src_directory thresholds clock fs p →
  settled src_directory thresholds clock fs' p.
Proof. intros Heq (i & Hp & Hhome). exists i. by rewrite Heq. Qed.

(** The home of a steady file depends on its extension only, not on where
    it lies or when it is looked at. *)
Lemma home_steady (src_directory : path) (thresholds : SizeThresholds)
    (fs : filesystem) (f p q : path) (c c' : Z) (i : inode) :
  steady fs → fs !! f = Some i → is_regular i = true →
  extension (filename p) = extension (filename q) →
  home src_directory thresholds c p i = home src_directory thresholds c' q i.
Proof.
  intros Hst Hf Hr H. unfold home, file_extension, has_extension.
  by rewrite H, (Hst f i Hf Hr p c q c').
Qed.

Lemma settled_steady (src_directory : path) (thresholds : SizeThresholds)
    (fs : filesystem) (p : path) (c c' : Z) (i : inode) :
  steady fs → fs !! p = Some i → is_regular i = true →
  settled src_directory thresholds c fs p →
  settled src_directory thresholds c' fs p.
Proof.
  intros Hst Hp Hr (j & Hj & Hhome). exists j. split; [done|].
  rewrite Hp in Hj. injection Hj as <-.
  by rewrite (home_steady _ _ fs p p p c' c i).
Qed.

Lemma organizing_with_directories (src_directory : path)
    (thresholds : SizeThresholds) (c : Z) (fs : filesystem) (rest : list path)
    (clock : Z) (target : path) :
  organizing src_directory thresholds c fs rest →
  Forall (λ d, fs !! d = None ∨ fs_is_directory fs d = true) (prefixes target) →
  organizing src_directory thresholds c
    (fs ∪ list_to_map ((λ d, (d, mk_directory clock)) <$> prefixes target)) rest.
Proof.
  intros [Hnd Hrest Hset Hwf Hst] Hall. split.
  - done.
  - intros f Hf. destruct (Hrest f Hf) as (i & Hi & Hr). exists i.
    by rewrite lookup_with_directories, Hi.
  - intros p i. rewrite lookup_with_directories.
    destruct (fs !! p) as [i0|] eqn:Hp.
    + intros [= <-] Hr Hb. destruct (Hset p i0 Hp Hr Hb) as [?|Hs]; [by left|].
      right. eapply settled_lookup; [|done].
      by rewrite lookup_with_directories, Hp.
    + case_decide; [|done]. by intros [= <-].
  - by apply well_formed_with_directories.
  - by apply steady_with_directories.
Qed.

Lemma organizing_in_place (src_directory : path) (thresholds : SizeThresholds)
    (c : Z) (fs : filesystem) (f : path) (rest : list path) (i : inode) :
  organizing src_directory thresholds c fs (f :: rest) →
  fs !! f = Some i →
  f = home src_directory thresholds c f i ++ [filename f] →
  organizing src_directory thresholds c fs rest.
Proof.
  intros [Hnd Hrest Hset Hwf Hst] Hf Hhome.
  apply NoDup_cons in Hnd as [Hnotin Hnd].
  split; [done| | |done|done].
  - intros f' Hf'. apply Hrest. by apply list_elem_of_further.
  - intros p j Hp Hr Hb.
    destruct (Hset p j Hp Hr Hb) as [[->|?]%elem_of_cons|?]; [|by left|by right].
    right. exists i. split; [done|].
    destruct (Hwf f i Hf) as [_ Hname]. rewrite Hf in Hp. injection Hp as ->.
    destruct (Hname Hr) as (Hn1 & _).
    rewrite path_append_nonempty by done. done.
Qed.

Lemma organizing_moved (src_directory : path) (thresholds : SizeThresholds)
    (c : Z) (fs : filesystem) (f : path) (rest : list path) (i : inode)
    (name : string) :
  let target := home src_directory thresholds c f i in
  organizing src_directory thresholds c fs (f :: rest) →
  fs !! f = Some i →
  fs !! (target ++ [name]) = None →
  fs_is_directory fs target = true →
  extension name = extension (filename f) →
  name ≠ "" → name ≠ ".." →
  organizing src_directory thresholds c
    (<[target ++ [name] := i]> (delete f fs)) rest.
Proof.
  intros target [Hnd Hrest Hset Hwf Hst] Hf Hfree Hdir Hext Hn1 Hn2.
  apply NoDup_cons in Hnd as [Hnotin Hnd].
  destruct (Hrest f) as (i' & Hi' & Hreg); [apply list_elem_of_here|].
  rewrite Hf in Hi'. injection Hi' as <-.
  split; [done| | | |].
  - intros f' Hf'.
    destruct (Hrest f') as (j & Hj & Hr); [by apply list_elem_of_further|].
    exists j. split; [|done].
    rewrite lookup_insert_ne, lookup_delete_ne; [done|..].
    + intros ->. done.
    + intros <-. by rewrite Hfree in Hj.
  - intros p j. rewrite lookup_insert. case_decide as Hp.
    + subst p. intros [= <-] _ _. right. exists i.
      rewrite lookup_insert_eq. split; [done|].
      rewrite filename_snoc, path_append_nonempty by done.
      f_equal. apply (home_steady _ _ fs f); [done..|].
      by rewrite filename_snoc.
    + rewrite lookup_delete. case_decide as Hpf; [done|]. intros Hj Hr Hb.
      destruct (Hset p j Hj Hr Hb) as [[->|?]%elem_of_cons|?];
        [done|by left|right].
      eapply settled_lookup; [|done].
      by rewrite lookup_insert_ne, lookup_delete_ne.
  - apply (well_formed_moved fs f _ i); try done.
    + by rewrite parent_path_snoc.
    + by rewrite filename_snoc.
    + by rewrite filename_snoc.
  - by apply steady_moved.
Qed.

Lemma move_and_continue_organizes (src_directory : path)
    (thresholds : SizeThresholds) (f : path) (rest : list path)
    (w : world) (c : Z) (i : inode) :
  let target := home src_directory thresholds c f i in
  organizing src_directory thresholds c (w_fs w) (f :: rest) →
  w_fs w !! f = Some i →
  ∃ w', move_and_continue f (target /: filename f) false true w
          = (Returned tt, w') ∧
        w_clock w' = w_clock w ∧
        (organizing src_directory thresholds c (w_fs w') rest ∨ left_behind w w').
Proof.
  intros target Horg Hf.
  destruct (org_rest _ _ _ _ _ Horg f) as (i' & Hi' & Hreg);
    [apply list_elem_of_here|].
  rewrite Hf in Hi'. injection Hi' as <-.
  destruct (org_well_formed _ _ _ _ _ Horg f i Hf) as [_ Hname].
  destruct (Hname Hreg) as (Hn1 & Hn2 & _).
  rewrite path_append_nonempty by done.
  destruct (move_file_outcomes f target w i Hf Hreg Hn2) as (w' & Hw' & Hc & Hout).
  exists w'. split_and!; [done..|].
  destruct Hout as [[Heq ->]|[(name & Hfree & Hdir & Hext & Hne1 & Hne2 & ->)|?]].
  - left. by eapply organizing_in_place.
  - left. apply organizing_moved; auto.
  - by right.
Qed.

Lemma place_organizes (src_directory : path) (thresholds : SizeThresholds)
    (f : path) (rest : list path) (w : world) (c : Z) (i : inode) :
  organizing src_directory thresholds c (w_fs w) (f :: rest) →
  w_fs w !! f = Some i →
  ∃ w', place f (home src_directory thresholds c f i) false true w
          = (Returned tt, w') ∧
        w_clock w' = w_clock w ∧
        (organizing src_directory thresholds c (w_fs w') rest ∨ left_behind w w').
Proof.
  intros Horg Hf. set (target := home src_directory thresholds c f i).
  apply place_cases.
  - intros Hbad. by rewrite no_faults in Hbad.
  - intros _ _. by apply move_and_continue_organizes.
  - done.
  - intros _ _ _ _. eexists. split_and!; [done..|]. right.
    exists [ErrCreateDirectory target], (ErrCreateDirectory target).
    split_and!; [done|apply list_elem_of_here|done].
  - intros _ _ _ Hall. cbn.
    set (w1 := {| w_fs := _ ∪ _ |}).
    assert (emitted w w1 [CreatedDirectory target]) as Hem by done.
    destruct (move_and_continue_organizes src_directory thresholds f rest w1 c i)
      as (w' & Hw' & Hc & Hres).
    + subst w1. cbn. by apply organizing_with_directories.
    + subst w1. cbn. by rewrite lookup_with_directories, Hf.
    + exists w'. split_and!; [done..|].
      destruct Hres as [?|?]; [by left|right].
      by eapply left_behind_emitted_r.
Qed.

(** One iteration of a verbose real run keeps the invariant, unless it
    reports the file as left behind. *)
Lemma relocate_organizes (src_directory : path) (attr : TimeAttribute)
    (thresholds : SizeThresholds) (f : path) (rest : list path) (w : world) :
  attr ≠ Access →
  organizing src_directory thresholds (w_clock w) (w_fs w) (f :: rest) →
  ∃ w', relocate src_directory attr thresholds false true f w
          = (Returned tt, w') ∧
        w_clock w' = w_clock w ∧
        (organizing src_directory thresholds (w_clock w) (w_fs w') rest
         ∨ left_behind w w').
Proof.
  intros Hattr Horg.
  destruct (org_rest _ _ _ _ _ Horg f) as (i & Hf & Hreg);
    [apply list_elem_of_here|].
  destruct (org_well_formed _ _ _ _ _ Horg f i Hf) as [_ Hname].
  destruct (Hname Hreg) as (_ & _ & Hrange).
  destruct (target_directory_no_faults src_directory f attr thresholds w i
              Hattr Hf Hreg Hrange) as (w1 & Ht & Hfs & Hc & Hem).
  erewrite relocate_present; [|apply no_faults|by rewrite Hf|done].
  destruct (place_organizes src_directory thresholds f rest w1 (w_clock w) i)
    as (w' & Hw' & Hc' & Hres).
  - by rewrite Hfs.
  - by rewrite Hfs.
  - exists w'. split_and!; [done|congruence|].
    destruct Hres as [?|?]; [by left|right].
    destruct Hem; by eapply left_behind_emitted_r.
Qed.

Lemma relocate_returns (src_directory : path) (attr : TimeAttribute)
    (thresholds : SizeThresholds) (verbose : bool) (f : path) (w : world) :
  ∃ w' msgs, relocate src_directory attr thresholds false verbose f w
               = (Returned tt, w') ∧ emitted w w' msgs.
Proof.
  destruct (relocate_report src_directory attr thresholds verbose f w)
    as (msgs & Hem & Hr).
  destruct (relocate _ _ _ _ _ f w) as [[[]|p] w']; simpl in *.
  - by eauto.
  - destruct Hr as [Hbad _]. by rewrite no_faults in Hbad.
Qed.

Lemma for_each_returns (src_directory : path) (attr : TimeAttribute)
    (thresholds : SizeThresholds) (verbose : bool) (files : list path) (w : world) :
  ∃ w' msgs,
    for_each (relocate src_directory attr thresholds false verbose) files w
      = (Returned tt, w') ∧ emitted w w' msgs.
Proof.
  revert w. induction files as [|f files IH]; intros w.
  - exists w, []. split; [done|apply emitted_refl].
  - destruct (relocate_returns src_directory attr thresholds verbose f w)
      as (w1 & msgs1 & H1 & Hem1).
    destruct (IH w1) as (w' & msgs2 & H2 & Hem2).
    exists w', (msgs1 ++ msgs2). simpl. erewrite bind_returned by done.
    split; [done|]. by eapply emitted_trans.
Qed.

(** A verbose real run over the files still to come returns, and ends with
    every regular file settled unless some file is reported as left
    behind. *)
Lemma for_each_organizes (src_directory : path) (attr : TimeAttribute)
    (thresholds : SizeThresholds) (rest : list path) (w : world) :
  attr ≠ Access →
  organizing src_directory thresholds (w_clock w) (w_fs w) rest →
  ∃ w', for_each (relocate src_directory attr thresholds false true) rest w
          = (Returned tt, w') ∧
        (organizing src_directory thresholds (w_clock w) (w_fs w') []
         ∨ left_behind w w').
Proof.
  intros Hattr. revert w. induction rest as [|f rest IH]; intros w Horg.
  { exists w. split; [done|by left]. }
  destruct (relocate_organizes src_directory attr thresholds f rest w Hattr Horg)
    as (w1 & H1 & Hc & Hstep).
  destruct (relocate_returns src_directory attr thresholds true f w)
    as (w1' & msgs1 & H1' & Hem1).
  rewrite H1 in H1'. injection H1' as <-.
  simpl. erewrite bind_returned by done.
  destruct Hstep as [Horg1|Hleft].
  - rewrite <-Hc in Horg1. destruct (IH w1 Horg1) as (w' & Hw' & Hres).
    exists w'. split; [done|]. rewrite Hc in Hres.
    destruct Hres as [?|?]; [by left|right].
    by eapply left_behind_emitted_r.
  - destruct (for_each_returns src_directory attr thresholds true rest w1)
      as (w' & msgs2 & Hw' & Hem2).
    exists w'. split; [done|]. right. by eapply left_behind_emitted_l.
Qed.

(** *** The snapshot *)

Lemma elem_of_listing (fs : filesystem) (src_directory p : path) :
  p ∈ listing fs src_directory ↔
    below src_directory p ∧ ∃ i, fs !! p = Some i ∧ is_regular i = true.
Proof.
  unfold listing, below. rewrite list_elem_of_filter, list_elem_of_fmap.
  split.
  - intros [(Hpre & Hne & _) ([q i] & -> & Hin)]. split; [done|].
    apply elem_of_map_to_list in Hin. rewrite regular_files_lookup in Hin.
    simpl. destruct (fs !! q) as [j|]; [|done].
    destruct (is_regular j) eqn:Hr; [|done]. injection Hin as ->. eauto.
  - intros [[Hpre Hne] (i & Hp & Hr)]. split.
    + split_and!; [done..|]. apply Forall_forall. intros d _. apply no_faults.
    + exists (p, i). split; [done|]. apply elem_of_map_to_list.
      by rewrite regular_files_lookup, Hp, Hr.
Qed.

Lemma NoDup_listing (fs : filesystem) (src_directory : path) :
  NoDup (listing fs src_directory).
Proof. apply NoDup_filter, NoDup_fst_map_to_list. Qed.

Lemma elem_of_walk (fs : filesystem) (src_directory p : path) :
  p ∈ walk fs src_directory ↔
    below src_directory p ∧ ∃ i, fs !! p = Some i ∧ is_regular i = true.
Proof. by rewrite walk_listing, elem_of_listing. Qed.

Lemma NoDup_walk (fs : filesystem) (src_directory : path) :
  NoDup (walk fs src_directory).
Proof. rewrite walk_listing. apply NoDup_listing. Qed.

Lemma organizing_walk (src_directory : path) (thresholds : SizeThresholds)
    (c : Z) (fs : filesystem) :
  well_formed fs → steady fs →
  organizing src_directory thresholds c fs (walk fs src_directory).
Proof.
  intros Hwf Hst. split; [apply NoDup_walk| | |done|done].
  - intros f [_ ?]%elem_of_walk. done.
  - intros p i Hp Hr Hb. left. apply elem_of_walk. eauto.
Qed.

(** *** A run over settled files *)

Lemma relocate_settled (src_directory : path) (attr : TimeAttribute)
    (thresholds : SizeThresholds) (dry_run verbose : bool) (f : path)
    (w : world) (i : inode) :
  attr ≠ Access →
  well_formed (w_fs w) →
  w_fs w !! f = Some i → is_regular i = true →
  settled src_directory thresholds (w_clock w) (w_fs w) f →
  ∃ w', relocate src_directory attr thresholds dry_run verbose f w
          = (Returned tt, w') ∧
    w_fs w' = w_fs w ∧ w_clock w' = w_clock w ∧
    ∃ msgs, emitted w w' msgs ∧
      (∀ m, m ∈ msgs → m = SkipAlreadyCorrect f ∨ m = WarnCreationTime f) ∧
      (verbose = true → SkipAlreadyCorrect f ∈ msgs).
Proof.
  intros Hattr Hwf Hf Hreg (i' & Hi' & Hhome).
  rewrite Hf in Hi'. injection Hi' as <-.
  destruct (Hwf f i Hf) as [Hparent Hname].
  destruct (Hname Hreg) as (Hn1 & Hn2 & Hrange).
  rewrite path_append_nonempty in Hhome by done.
  set (target := home src_directory thresholds (w_clock w) f i) in *.
  assert (fs_is_directory (w_fs w) target = true) as Hdir.
  { rewrite <-Hhome, parent_path_snoc in Hparent. apply Hparent.
    by destruct target. }
  destruct (target_directory_no_faults src_directory f attr thresholds w i
              Hattr Hf Hreg Hrange) as (w1 & Ht & Hfs & Hc & Hem).
  fold target in Ht.
  erewrite relocate_present; [|apply no_faults|by rewrite Hf|done].
  rewrite place_present; [|apply no_faults|].
  2:{ rewrite Hfs. apply fs_is_directory_true in Hdir as (j & -> & _). done. }
  rewrite path_append_nonempty, Hhome by done.
  assert (move_file f f dry_run verbose w1
          = (Returned true, (when verbose (say (SkipAlreadyCorrect f)) w1).2))
    as Hmove.
  { unfold move_file. rewrite decide_True by done. by destruct verbose. }
  erewrite move_and_continue_returned by done.
  eexists. split; [done|].
  split; [by destruct verbose|]. split; [by destruct verbose|].
  pose proof (emitted_when verbose (SkipAlreadyCorrect f) w1) as Hem1.
  destruct verbose.
  - destruct Hem as [Hem|Hem].
    + exists [SkipAlreadyCorrect f]. split_and!.
      * by eapply (emitted_trans _ _ _ [] [_]).
      * intros m ->%list_elem_of_singleton. by left.
      * intros _. apply list_elem_of_here.
    + exists [WarnCreationTime f; SkipAlreadyCorrect f]. split_and!.
      * by eapply (emitted_trans _ _ _ [_] [_]).
      * intros m [-> | ->%list_elem_of_singleton]%elem_of_cons; auto.
      * intros _. apply list_elem_of_further, list_elem_of_here.
  - destruct Hem as [Hem|Hem].
    + exists []. split_and!; [done| |done]. by intros m ?%elem_of_nil.
    + exists [WarnCreationTime f]. split_and!; [done| |done].
      intros m ->%list_elem_of_singleton. by right.
Qed.

Lemma for_each_settled (src_directory : path) (attr : TimeAttribute)
    (thresholds : SizeThresholds) (dry_run verbose : bool) (files : list path)
    (w : world) :
  attr ≠ Access →
  well_formed (w_fs w) →
  (∀ f, f ∈ files →
     (∃ i, w_fs w !! f = Some i ∧ is_regular i = true) ∧
     settled src_directory thresholds (w_clock w) (w_fs w) f) →
  ∃ w', for_each (relocate src_directory attr thresholds dry_run verbose)
          files w = (Returned tt, w') ∧
    w_fs w' = w_fs w ∧
    ∃ msgs, emitted w w' msgs ∧
      (∀ m, m ∈ msgs →
         ∃ f, f ∈ files ∧ (m = SkipAlreadyCorrect f ∨ m = WarnCreationTime f)) ∧
      (verbose = true → ∀ f, f ∈ files → SkipAlreadyCorrect f ∈ msgs).
Proof.
  intros Hattr. revert w. induction files as [|f files IH]; intros w Hwf Hall.
  - exists w. split_and!; [done..|].
    exists []. split_and!; [apply emitted_refl|..].
    + by intros m ?%elem_of_nil.
    + by intros _ f ?%elem_of_nil.
  - destruct (Hall f) as [(i & Hf & Hreg) Hset]; [apply list_elem_of_here|].
    destruct (relocate_settled src_directory attr thresholds dry_run verbose
                f w i Hattr Hwf Hf Hreg Hset)
      as (w1 & H1 & Hfs1 & Hc1 & msgs1 & Hem1 & Hm1 & Hv1).
    destruct (IH w1) as (w' & H2 & Hfs2 & msgs2 & Hem2 & Hm2 & Hv2).
    { by rewrite Hfs1. }
    { intros f' Hf'. rewrite Hfs1, Hc1. apply Hall. by apply list_elem_of_further. }
    exists w'. simpl. erewrite bind_returned by done.
    split_and!; [done|by rewrite Hfs2|].
    exists (msgs1 ++ msgs2). split_and!; [by eapply emitted_trans|..].
    + intros m [Hin|Hin]%elem_of_app.
      * exists f. split; [apply list_elem_of_here|]. by apply Hm1.
      * destruct (Hm2 m Hin) as (f' & Hf' & Hm). exists f'.
        split; [by apply list_elem_of_further|done].
    + intros Hv f' [->|Hf']%elem_of_cons; apply elem_of_app.
      * left. by apply Hv1.
      * right. by apply Hv2.
Qed.

Lemma left_behind_clean (w w' : world) (msgs : list message) :
  left_behind w w' → emitted w w' msgs →
  Forall (λ m, is_left_behind m = false) msgs → False.
Proof.
  intros (msgs' & m & [Ho _] & Hin & Hm) [Ho' _] Hall.
  rewrite Ho' in Ho. apply app_inv_head in Ho as ->.
  rewrite Forall_forall in Hall. by rewrite (Hall m Hin) in Hm.
Qed.

(** What a first run without failures and skipped duplicates leaves. *)
Lemma clean_run_organizes (src_directory : path) (attr : TimeAttribute)
    (thresholds : SizeThresholds) (verbose : bool) (w : world)
    (msgs : list message) :
  attr ≠ Access →
  well_formed (w_fs w) → steady (w_fs w) →
  fs_is_directory (w_fs w) src_directory = true →
  emitted w (move_files_by_extension_and_metadata src_directory attr
               thresholds false true w).2 msgs →
  Forall (λ m, is_left_behind m = false) msgs →
  let r := move_files_by_extension_and_metadata src_directory attr
             thresholds false verbose w in
  r.1 = Returned tt ∧
  organizing src_directory thresholds (w_clock w) (w_fs r.2) [].
Proof.
  intros Hattr Hwf Hst Hdir Hem Hclean. cbv zeta.
  destruct (alike_run src_directory attr thresholds false verbose true w w)
    as [-> [-> _]]; [done|].
  unfold move_files_by_extension_and_metadata in *.
  erewrite bind_returned in Hem |- * by by apply collect_all_files_directory.
  set (w0 := (when true (say (Collected _)) w).2) in *.
  assert (emitted w w0 [Collected (length (walk (w_fs w) src_directory))])
    as Hem0 by done.
  destruct (for_each_organizes src_directory attr thresholds
              (walk (w_fs w) src_directory) w0 Hattr)
    as (w' & Hw' & Hres).
  { by apply organizing_walk. }
  rewrite Hw' in Hem |- *. split; [done|].
  destruct Hres as [Horg|Hleft]; [done|].
  destruct (left_behind_clean w w' msgs); [|done..].
  by eapply left_behind_emitted_r.
Qed.

(** C1 (as the code has it). Take a well-formed tree with steady dates and
    a first run by creation or modification time, with no failing call,
    whose verbose report shows no failure and no skip of a duplicate: every
    file was moved or was already in place.  Then a second run with the same
    time attribute and thresholds, at whatever time, returns and changes
    nothing in the tree; it prints nothing but the count, creation-time
    warnings and the already-in-place line, and in verbose mode it prints
    that line for every file it collected.  The first run itself may have
    been verbose or not: [report] is what it prints when verbose.  In what
    order the files are walked makes no difference. *)
Theorem second_run_changes_nothing (src_directory : path)
    (attr : TimeAttribute) (thresholds : SizeThresholds)
    (first_verbose verbose : bool) (w : world) (msgs : list message)
    (w1' : world) :
  attr ≠ Access →
  well_formed (w_fs w) → steady (w_fs w) →
  let report := (move_files_by_extension_and_metadata src_directory attr
                   thresholds false true w).2 in
  emitted w report msgs →
  Forall (λ m, is_left_behind m = false) msgs →
  let w1 := (move_files_by_extension_and_metadata src_directory attr thresholds
               false first_verbose w).2 in
  w_fs w1' = w_fs w1 →
  let second := move_files_by_extension_and_metadata src_directory attr
                  thresholds false verbose w1' in
  second.1 = Returned tt ∧
  w_fs second.2 = w_fs w1 ∧
  ∃ files msgs2,
    (collect_all_files src_directory verbose w1').1 = Returned files ∧
    emitted w1' second.2 msgs2 ∧
    (∀ m, m ∈ msgs2 →
       m = ErrCollection ∨ (∃ n, m = Collected n) ∨
       ∃ f, f ∈ files ∧ (m = SkipAlreadyCorrect f ∨ m = WarnCreationTime f)) ∧
    (verbose = true → ∀ f, f ∈ files → SkipAlreadyCorrect f ∈ msgs2).
Proof.
  intros Hattr Hwf Hst report Hem Hclean w1 Hsame. cbv zeta.
  assert (organizing src_directory thresholds (w_clock w) (w_fs w1) []
          ∨ fs_is_directory (w_fs w1) src_directory = false) as Hw1.
  { destruct (fs_is_directory (w_fs w) src_directory) eqn:Hdir.
    - left. by eapply clean_run_organizes.
    - right. subst w1. unfold move_files_by_extension_and_metadata.
      erewrite bind_returned by by apply collect_all_files_not_directory.
      done. }
  rewrite <-Hsame in Hw1 |- *.
  clearbody w1. clear Hem Hclean Hwf Hst Hsame report msgs w1.
  unfold move_files_by_extension_and_metadata.
  pose proof (collect_all_files_value src_directory verbose w1') as Hcol.
  cbv zeta in Hcol.
  destruct (fs_is_directory (w_fs w1') src_directory) eqn:Hdir.
  - destruct Hw1 as [Horg|?]; [|done].
    set (files := walk (w_fs w1') src_directory) in *.
    erewrite bind_returned by exact Hcol. rewrite Hcol.
    set (w0 := {| w_fs := w_fs w1' |}).
    assert (emitted w1' w0 (if verbose then [Collected (length files)] else []))
      as Hem0.
    { by split. }
    destruct (for_each_settled src_directory attr thresholds false verbose
                files w0 Hattr)
      as (w' & Hw' & Hfs & msgs2 & Hem2 & Hm2 & Hv2).
    { by destruct Horg. }
    { intros f [Hb (i & Hf & Hr)]%elem_of_walk. split; [by eauto|].
      destruct (org_settled _ _ _ _ _ Horg f i Hf Hr Hb) as [?%elem_of_nil|Hs];
        [done|].
      eapply settled_steady; [by destruct Horg|done..]. }
    rewrite Hw'. cbn [fst snd]. split_and!; [done|by rewrite Hfs|].
    exists files, ((if verbose then [Collected (length files)] else []) ++ msgs2).
    split_and!; [done|by eapply emitted_trans|..].
    + intros m [Hin|Hin]%elem_of_app.
      * right. left. destruct verbose; [|by apply elem_of_nil in Hin].
        apply list_elem_of_singleton in Hin. eauto.
      * right. right. by apply Hm2.
    + intros Hv f Hf. apply elem_of_app. right. by apply Hv2.
  - erewrite bind_returned by exact Hcol. rewrite Hcol. simpl.
    split_and!; [done..|].
    exists [], (ErrCollection :: (if verbose then [Collected 0] else [])).
    split_and!; [done|done|..].
    + intros m [->|Hin]%elem_of_cons; [by left|].
      right. left. destruct verbose; [|by apply elem_of_nil in Hin].
      apply list_elem_of_singleton in Hin. eauto.
    + by intros _ f ?%elem_of_nil.
Qed.

End NoFaults.

(** ** Further properties *)

(** *** Size arguments *)

Lemma digit_pretty_N_char (d : N) :
  (d < 10)%N → digit (pretty_N_char d) = Some d.
Proof.
  intros H.
  assert (d = 0 ∨ d = 1 ∨ d = 2 ∨ d = 3 ∨ d = 4 ∨ d = 5 ∨ d = 6 ∨ d = 7
          ∨ d = 8 ∨ d = 9)%N as Hd by lia.
  repeat (destruct Hd as [-> | Hd]; [done|]). by subst.
Qed.

Lemma read_digits_pretty_N_go (x : N) :
  (0 < x)%N →
  ∃ k, ∀ acc s,
    read_digits acc (pretty_N_go x s)
    = read_digits (Some (default 0 acc * 10 ^ k + x)%N) s.
Proof.
  induction (N.lt_wf_0 x) as [x _ IH]. intros Hx.
  assert (∀ acc s,
    read_digits acc (String (pretty_N_char (x `mod` 10)) s)
    = read_digits (Some (default 0 acc * 10 + x `mod` 10)%N) s) as Hlast.
  { intros acc s. simpl. rewrite digit_pretty_N_char; [done|].
    apply N.mod_lt. lia. }
  destruct (decide (x `div` 10 = 0)%N) as [Hsmall|Hbig].
  - exists 1%N. intros acc s. rewrite pretty_N_go_step by done.
    rewrite Hsmall, pretty_N_go_0, Hlast. do 2 f_equal.
    assert (x `mod` 10 = x)%N as ->; [|lia].
    apply N.mod_small. apply N.div_small_iff in Hsmall; lia.
  - destruct (IH (x `div` 10)%N) as [k Hk].
    { apply N.div_lt; lia. }
    { by apply N.neq_0_lt_0. }
    exists (k + 1)%N. intros acc s. rewrite pretty_N_go_step by done.
    rewrite Hk, Hlast. simpl. do 2 f_equal.
    rewrite N.pow_add_r, N.pow_1_r.
    pose proof (N.div_mod x 10). lia.
Qed.

Lemma pretty_N_go_app (x : N) (s t : string) :
  pretty_N_go x s +:+ t = pretty_N_go x (s +:+ t).
Proof.
  revert s. induction (N.lt_wf_0 x) as [x _ IH]. intros s.
  destruct (decide (x = 0)%N) as [->|Hx]; [by rewrite !pretty_N_go_0|].
  rewrite (pretty_N_go_step x s), (pretty_N_go_step x (s +:+ t)) by lia.
  rewrite IH by (apply N.div_lt; lia). done.
Qed.

Lemma pretty_N_go_head (x : N) (s : string) :
  (0 < x)%N →
  ∃ d rest, (d < 10)%N ∧ pretty_N_go x s = String (pretty_N_char d) rest.
Proof.
  revert s. induction (N.lt_wf_0 x) as [x _ IH]. intros s Hx.
  rewrite pretty_N_go_step by done.
  destruct (decide (x `div` 10 = 0)%N) as [Hsmall|Hbig].
  - rewrite Hsmall, pretty_N_go_0. exists (x `mod` 10)%N, s.
    split; [|done]. apply N.mod_lt. lia.
  - apply IH; [|by apply N.neq_0_lt_0]. apply N.div_lt; lia.
Qed.

Lemma read_digits_done (acc : option N) (s : string) :
  no_leading_digit s → read_digits acc s = acc.
Proof. destruct s as [|c s]; simpl; [done|]. by intros ->. Qed.

(** A numeral, followed by something that is not a digit. *)
Lemma pretty_N_head (n : N) (t : string) :
  ∃ d rest, (d < 10)%N ∧ pretty n +:+ t = String (pretty_N_char d) rest.
Proof.
  unfold pretty, pretty_N. case_decide as Hn.
  - exists 0%N, t. by split.
  - rewrite pretty_N_go_app. apply pretty_N_go_head. lia.
Qed.

Lemma read_digits_numeral (n : N) (t : string) :
  no_leading_digit t → read_digits None (pretty n +:+ t) = Some n.
Proof.
  intros Ht. unfold pretty, pretty_N. case_decide as Hn.
  - subst n. change ("0" +:+ t) with (String "0" t). simpl.
    by apply read_digits_done.
  - rewrite pretty_N_go_app.
    destruct (read_digits_pretty_N_go n) as [k Hk]; [lia|].
    rewrite Hk. simpl. by apply read_digits_done.
Qed.

Lemma digit_char_plain (d : N) :
  (d < 10)%N →
  Ascii.is_space (pretty_N_char d) = false ∧
  pretty_N_char d ≠ "-"%char ∧ pretty_N_char d ≠ "+"%char.
Proof.
  intros H.
  assert (d = 0 ∨ d = 1 ∨ d = 2 ∨ d = 3 ∨ d = 4 ∨ d = 5 ∨ d = 6 ∨ d = 7
          ∨ d = 8 ∨ d = 9)%N as Hd by lia.
  repeat (destruct Hd as [-> | Hd]; [done|]). by subst.
Qed.

Lemma stoull_unsigned (c : ascii) (rest : string) :
  Ascii.is_space c = false → c ≠ "-"%char → c ≠ "+"%char →
  stoull (String c rest) =
    match read_digits None (String c rest) with
    | Some v => if (ULLONG_MAX <? v)%N then None else Some v
    | None => None
    end.
Proof.
  intros Hsp Hminus Hplus. unfold stoull. cbn [skip_spaces]. rewrite Hsp.
  destruct c as [[] [] [] [] [] [] [] []]; done.
Qed.

Lemma stoull_numeral (n : N) (t : string) :
  no_leading_digit t →
  stoull (pretty n +:+ t) = if (n <? 2 ^ 64)%N then Some n else None.
Proof.
  intros Ht.
  destruct (pretty_N_head n t) as (d & rest & Hd & Heq).
  destruct (digit_char_plain d Hd) as (Hsp & Hminus & Hplus).
  pose proof (read_digits_numeral n t Ht) as Hread.
  rewrite Heq in Hread |- *. rewrite stoull_unsigned, Hread by done.
  unfold ULLONG_MAX.
  destruct (N.ltb_spec (2 ^ 64 - 1) n), (N.ltb_spec n (2 ^ 64)); (done || lia).
Qed.

Lemma string_app_nil_r (s : string) : s +:+ "" = s.
Proof.
  induction s as [|c s IH]; [done|].
  change (String c (s +:+ "") = String c s). by rewrite IH.
Qed.

Lemma megabytes (v : N) :
  ((((v * 1024) mod 2 ^ 64) * 1024) mod 2 ^ 64 = (v * 1048576) mod 2 ^ 64)%N.
Proof.
  rewrite N.Div0.mul_mod_idemp_l. f_equal. lia.
Qed.

(** X1. [parse_size] on a decimal numeral [n]: the numeral is read in full,
    values from 2^64 on are refused, and the megabytes are multiplied out in
    64-bit arithmetic; below 2^44 megabytes the result is exactly
    [n * 1024 * 1024], from there on it wraps around silently. *)
Theorem parse_size_numeral (n : N) :
  parse_size (pretty n) =
    (if (n <? 2 ^ 64)%N then Some ((n * 1048576) mod 2 ^ 64)%N else None) ∧
  ((n < 2 ^ 44)%N → parse_size (pretty n) = Some (n * 1048576)%N) ∧
  ((2 ^ 44 ≤ n)%N → (n < 2 ^ 64)%N →
     ∃ bytes, parse_size (pretty n) = Some bytes ∧ (bytes < n * 1048576)%N).
Proof.
  assert (parse_size (pretty n) =
    (if (n <? 2 ^ 64)%N then Some ((n * 1048576) mod 2 ^ 64)%N else None)) as H.
  { unfold parse_size. rewrite <-(string_app_nil_r (pretty n)).
    rewrite stoull_numeral by done.
    destruct (n <? 2 ^ 64)%N; [|done]. by rewrite megabytes. }
  split_and!; [done| |].
  - intros Hn. rewrite H.
    assert ((n <? 2 ^ 64)%N = true) as -> by (apply N.ltb_lt; lia).
    f_equal. apply N.mod_small.
    change (2 ^ 64)%N with (2 ^ 44 * 1048576)%N. lia.
  - intros Hlo Hhi. rewrite H.
    assert ((n <? 2 ^ 64)%N = true) as -> by by apply N.ltb_lt.
    eexists. split; [done|].
    eapply N.lt_le_trans; [apply N.mod_lt; done|].
    change (2 ^ 64)%N with (2 ^ 44 * 1048576)%N. lia.
Qed.

(** X2. Whatever follows the digits is ignored: [5MB] is read as [5]. *)
Theorem parse_size_ignores_trailing_text (n : N) (t : string) :
  no_leading_digit t →
  parse_size (pretty n +:+ t) = parse_size (pretty n).
Proof.
  intros Ht. unfold parse_size.
  rewrite <-(string_app_nil_r (pretty n)) at 2.
  by rewrite !stoull_numeral.
Qed.

(** X3. Without a digit at the front there is no size: the empty string, a
    string that starts with something other than white space, a sign or a
    digit, and a sign that is not followed by a digit are all refused. *)
Theorem parse_size_needs_digits :
  parse_size "" = None ∧
  (∀ c rest, digit c = None → Ascii.is_space c = false →
     c ≠ "-"%char → c ≠ "+"%char → parse_size (String c rest) = None) ∧
  (∀ sign rest, sign = "-"%char ∨ sign = "+"%char → no_leading_digit rest →
     parse_size (String sign rest) = None).
Proof.
  split_and!; [done| |].
  - intros c rest Hd Hsp Hminus Hplus. unfold parse_size.
    rewrite stoull_unsigned by done. simpl. by rewrite Hd.
  - intros sign rest Hsign Hrest. unfold parse_size, stoull.
    assert (read_digits None rest = None) as Hread by by apply read_digits_done.
    destruct Hsign as [-> | ->]; simpl; by rewrite Hread.
Qed.

(** X4. A minus sign is accepted and negates in 64-bit arithmetic: [-n]
    megabytes become [2^64 - n] megabytes, wrapped around. *)
Theorem parse_size_negative (n : N) :
  (0 < n)%N → (n < 2 ^ 64)%N →
  parse_size ("-" +:+ pretty n) = Some (((2 ^ 64 - n) * 1048576) mod 2 ^ 64)%N.
Proof.
  intros Hlo Hhi. unfold parse_size, stoull.
  change ("-" +:+ pretty n) with (String "-" (pretty n)). cbn [skip_spaces].
  change (Ascii.is_space "-") with false. cbv iota beta.
  rewrite <-(string_app_nil_r (pretty n)), read_digits_numeral by done.
  unfold ULLONG_MAX.
  assert ((2 ^ 64 - 1 <? n)%N = false) as -> by (apply N.ltb_ge; lia).
  rewrite megabytes. rewrite (N.mod_small (2 ^ 64 - n)) by lia. done.
Qed.

(** *** Options *)

Lemma option_step_stops (e : getopt_event) (o : options) :
  match option_step e o with
  | inl stop => stops e = Some stop
  | inr _ => stops e = None
  end.
Proof.
  unfold stops. destruct e; simpl; try done.
  - by repeat case_decide.
  - by destruct (parse_size optarg).
  - by destruct (parse_size optarg).
Qed.

(** X5. The option loop works through the options from left to right:
    looping over [l1 ++ l2] is looping over [l1] and, unless that returned,
    going on with [l2] from the settings reached.  So of two [--small]
    options the later one counts. *)
Theorem option_loop_app (l1 l2 : list getopt_event) (o : options) :
  option_loop (l1 ++ l2) o =
    match option_loop l1 o with
    | inl stop => inl stop
    | inr o' => option_loop l2 o'
    end ∧
  (∀ o1 optarg n,
     option_loop l1 o = inr o1 → parse_size optarg = Some n →
     ∃ o2, option_loop (l1 ++ [GetoptSmall optarg]) o = inr o2 ∧
           small (opt_thresholds o2) = n ∧
           medium (opt_thresholds o2) = medium (opt_thresholds o1) ∧
           opt_attr o2 = opt_attr o1 ∧ opt_verbose o2 = opt_verbose o1 ∧
           opt_dry_run o2 = opt_dry_run o1).
Proof.
  assert (∀ l o, option_loop (l ++ l2) o =
    match option_loop l o with
    | inl stop => inl stop
    | inr o' => option_loop l2 o'
    end) as Happ.
  { intros l. induction l as [|e l IH]; intros o0; [done|].
    simpl. destruct (option_step e o0); [done|]. apply IH. }
  split; [apply Happ|].
  intros o1 optarg n Hl1 Hn.
  assert (option_loop (l1 ++ [GetoptSmall optarg]) o =
          option_loop [GetoptSmall optarg] o1) as ->.
  { clear Happ. revert o Hl1. induction l1 as [|e l IH]; intros o0 Hl1.
    - by injection Hl1 as ->.
    - simpl in *. destruct (option_step e o0); [done|]. by apply IH. }
  simpl. rewrite Hn. eexists. by split_and!.
Qed.

(** X6. The first option that makes the loop return decides, whatever the
    settings so far and whatever comes after it: help gives exit status 0,
    a bad time attribute, a bad size or an unknown option gives 1.  Without
    such an option the loop runs to the end. *)
Theorem option_loop_first_stop (l1 l2 : list getopt_event) (e : getopt_event)
    (stop : early_exit) (o : options) :
  Forall (λ e', stops e' = None) l1 →
  stops e = Some stop →
  option_loop (l1 ++ e :: l2) o = inl stop ∧
  (∃ o', option_loop l1 o = inr o') ∧
  (exit_status stop = 0 ↔ e = GetoptHelp).
Proof.
  intros Hl1 He.
  assert (∃ o', option_loop l1 o = inr o' ∧
                option_loop (l1 ++ e :: l2) o = option_loop (e :: l2) o')
    as (o' & Ho' & Heq).
  { clear He. revert o. induction Hl1 as [|e' l Hstop _ IH]; intros o.
    - by exists o.
    - simpl. pose proof (option_step_stops e' o) as H.
      destruct (option_step e' o) as [?|o1]; [congruence|]. apply IH. }
  split_and!; [|by eauto|].
  - rewrite Heq. simpl. pose proof (option_step_stops e o') as H.
    destruct (option_step e o'); congruence.
  - unfold stops in He. destruct e; simpl in *; try done.
    + injection He as <-. done.
    + repeat case_decide; try done. by injection He as <-.
    + destruct (parse_size optarg); [done|]. by injection He as <-.
    + destruct (parse_size optarg); [done|]. by injection He as <-.
    + by injection He as <-.
Qed.

(** *** Exceptions *)









(** *** Size classes, again *)

(** X8. For all thresholds, ordered or not, a larger file never gets a
    smaller class; and when [medium] is not above [small], no file at all is
    classed as medium. *)
Theorem categorize_size_monotone (size1 size2 : N) (thresholds : SizeThresholds) :
  ((size1 ≤ size2)%N →
     (size_rank (categorize_size size1 thresholds)
      ≤ size_rank (categorize_size size2 thresholds))%nat) ∧
  ((medium thresholds ≤ small thresholds)%N →
     categorize_size size1 thresholds ≠ "medium").
Proof.
  unfold categorize_size. split.
  - intros Hle.
    destruct (N.ltb_spec size1 (small thresholds)),
             (N.ltb_spec size1 (medium thresholds)),
             (N.ltb_spec size2 (small thresholds)),
             (N.ltb_spec size2 (medium thresholds));
      (by vm_compute; lia) || lia.
  - intros Hle.
    destruct (N.ltb_spec size1 (small thresholds)),
             (N.ltb_spec size1 (medium thresholds)); (done || lia).
Qed.
(** *** What a run keeps *)

Lemma inodes_with_directories (fs : filesystem) (clock : Z) (target : path) :
  inodes (fs ∪ list_to_map ((λ d, (d, mk_directory clock)) <$> prefixes target))
  = inodes fs.
Proof. unfold inodes. by rewrite regular_files_with_directories. Qed.

Lemma inodes_moved (fs : filesystem) (f dst : path) (i : inode) :
  fs !! f = Some i → is_regular i = true → fs !! dst = None →
  inodes (<[dst := i]> (delete f fs)) ≡ₚ inodes fs.
Proof.
  intros Hf Hr Hdst. unfold inodes, regular_files.
  rewrite map_filter_insert_True by done. rewrite map_filter_delete.
  fold (regular_files fs).
  assert (regular_files fs !! f = Some i) as Hrf
    by by rewrite regular_files_lookup, Hf, Hr.
  assert (delete f (regular_files fs) !! dst = None) as Hrd.
  { rewrite lookup_delete. case_decide; [done|].
    by rewrite regular_files_lookup, Hdst. }
  rewrite map_to_list_insert by done.
  rewrite <-(map_to_list_delete (regular_files fs) f i) by done.
  done.
Qed.

Lemma commit_effect (source_file final_target : path) (verbose : bool)
    (w : world) (i : inode) :
  w_fs w !! source_file = Some i → is_regular i = true →
  w_fs w !! final_target = None →
  let fs' := w_fs (commit source_file final_target false verbose w).2 in
  fs' = w_fs w ∨ fs' = <[final_target := i]> (delete source_file (w_fs w)).
Proof.
  intros Hs Hr Hfree. cbv zeta.
  destruct (rename (w_fs w) source_file final_target) as [fs'|] eqn:Hren.
  - rewrite (commit_success _ _ _ _ _ Hren). right. simpl.
    by apply (rename_regular_inv _ _ _ _ i) in Hren as [-> _].
  - rewrite (commit_failure _ _ _ _ Hren). by left.
Qed.

(** What a real [move_file] does to the tree, for a regular source: nothing,
    or one move of the source to a path that was free. *)
Lemma move_file_effect (source_file target_file : path) (verbose : bool)
    (w : world) (i : inode) :
  w_fs w !! source_file = Some i → is_regular i = true →
  let fs' := w_fs (move_file source_file target_file false verbose w).2 in
  fs' = w_fs w ∨
  ∃ dst, w_fs w !! dst = None ∧
         fs' = <[dst := i]> (delete source_file (w_fs w)).
Proof.
  intros Hs Hr. cbv zeta.
  apply (move_file_cases
    (λ r, w_fs r.2 = w_fs w ∨
          ∃ dst, w_fs w !! dst = None ∧
                 w_fs r.2 = <[dst := i]> (delete source_file (w_fs w)))).
  - intros _. left. by destruct verbose.
  - intros _ _. by left.
  - intros _ _ Hfree.
    destruct (commit_effect source_file target_file verbose w i)
      as [?|?]; [done..|by left|right; by eauto].
  - intros _ _ _ _. left. by destruct verbose.
  - intros n _ _ _ _ _ _ _. by left.
  - intros n _ _ _ _ _ _ _ Hfree.
    destruct (commit_effect source_file (numbered target_file n) verbose w i)
      as [?|?]; [done..|by left|right; by eauto].
Qed.

Lemma move_and_continue_conserves (f target_file_path : path) (verbose : bool)
    (w : world) (i : inode) :
  w_fs w !! f = Some i → is_regular i = true →
  let fs' := w_fs (move_and_continue f target_file_path false verbose w).2 in
  inodes fs' ≡ₚ inodes (w_fs w) ∧
  ∀ p j, w_fs w !! p = Some j → p ≠ f → fs' !! p = Some j.
Proof.
  intros Hf Hr. cbv zeta. rewrite move_and_continue_world.
  destruct (move_file_effect f target_file_path verbose w i Hf Hr)
    as [->|(dst & Hdst & ->)]; [done|].
  split; [by apply inodes_moved|].
  intros p j Hp Hne.
  rewrite lookup_insert_ne, lookup_delete_ne; [done|done|].
  intros ->. by rewrite Hdst in Hp.
Qed.

(** One real iteration over a path that is not a directory keeps the inodes
    of the regular files and leaves every other entry as it is, whether it
    returns or throws. *)
Lemma relocate_conserves (src_directory : path) (attr : TimeAttribute)
    (thresholds : SizeThresholds) (verbose : bool) (f : path) (w : world) :
  (w_fs w !! f = None ∨ ∃ i, w_fs w !! f = Some i ∧ is_regular i = true) →
  let fs' := w_fs (relocate src_directory attr thresholds false verbose f w).2 in
  inodes fs' ≡ₚ inodes (w_fs w) ∧
  ∀ p j, w_fs w !! p = Some j → p ≠ f → fs' !! p = Some j.
Proof.
  intros Hf. cbv zeta.
  apply (relocate_cases
    (λ r, inodes (w_fs r.2) ≡ₚ inodes (w_fs w) ∧
          ∀ p j, w_fs w !! p = Some j → p ≠ f → w_fs r.2 !! p = Some j)).
  - done.
  - intros _ _. by destruct verbose.
  - intros target w0 msgs _ [i' Hi'] _ Hfs _ _.
    destruct Hf as [Hf|(i & Hf & Hr)]; [by rewrite Hf in Hi'|].
    clear Hi'. rewrite <-Hfs in Hf |- *. clear Hfs.
    apply (place_cases
      (λ r, inodes (w_fs r.2) ≡ₚ inodes (w_fs w0) ∧
            ∀ p j, w_fs w0 !! p = Some j → p ≠ f → w_fs r.2 !! p = Some j)).
    + done.
    + intros _ _. by apply (move_and_continue_conserves _ _ _ _ i).
    + done.
    + done.
    + intros _ _ _ _.
      set (fs1 := w_fs w0 ∪ _).
      assert (fs1 !! f = Some i) as Hf1.
      { unfold fs1. by rewrite lookup_with_directories, Hf. }
      assert (∀ p j, w_fs w0 !! p = Some j → fs1 !! p = Some j) as Hkeep.
      { intros p j Hp. unfold fs1. by rewrite lookup_with_directories, Hp. }
      assert (inodes fs1 = inodes (w_fs w0)) as Hin
        by apply inodes_with_directories.
      clearbody fs1.
      match goal with |- context [move_and_continue _ ?t _ _ ?w1] =>
        destruct (move_and_continue_conserves f t verbose w1 i) as [H1 H2];
          [by destruct verbose..|];
        assert (w_fs w1 = fs1) as Hw1 by by destruct verbose end.
      rewrite Hw1 in H1, H2.
      split; [by rewrite H1, Hin|]. intros p j Hp Hne.
      apply H2; [by apply Hkeep|done].
Qed.

Lemma for_each_conserves (src_directory : path) (attr : TimeAttribute)
    (thresholds : SizeThresholds) (verbose : bool) (files : list path) (w : world) :
  NoDup files →
  (∀ f, f ∈ files → ∃ i, w_fs w !! f = Some i ∧ is_regular i = true) →
  let fs' := w_fs (for_each (relocate src_directory attr thresholds false verbose)
                     files w).2 in
  inodes fs' ≡ₚ inodes (w_fs w) ∧
  ∀ p j, w_fs w !! p = Some j → p ∉ files → fs' !! p = Some j.
Proof.
  revert w. induction files as [|f files IH]; intros w Hnd Hall; cbv zeta.
  { done. }
  apply NoDup_cons in Hnd as [Hnotin Hnd].
  destruct (relocate_conserves src_directory attr thresholds verbose f w)
    as [H1 H2].
  { right. apply Hall, list_elem_of_here. }
  apply (for_each_cases
    (λ r, inodes (w_fs r.2) ≡ₚ inodes (w_fs w) ∧
          ∀ p j, w_fs w !! p = Some j → p ∉ f :: files →
                 w_fs r.2 !! p = Some j)).
  - intros p w1 Heq. rewrite Heq in H1, H2. simpl in *.
    split; [done|]. intros q j Hq [Hne _]%not_elem_of_cons. by apply H2.
  - intros w1 Heq. rewrite Heq in H1, H2. simpl in *.
    destruct (IH w1 Hnd) as [H3 H4].
    { intros f' Hf'. destruct (Hall f') as (i & Hi & Hr);
        [by apply list_elem_of_further|].
      exists i. split; [|done]. apply H2; [done|]. by intros ->. }
    split; [by rewrite H3|].
    intros p j Hp Hnot. apply not_elem_of_cons in Hnot as [Hne Hnot].
    apply H4; [|done]. by apply H2.
Qed.

(** The snapshot holds regular files below the source directory, none
    twice, whatever fails and in whatever order it is walked. *)
Lemma listing_sound (fs : filesystem) (src_directory p : path) :
  p ∈ listing fs src_directory →
  below src_directory p ∧ ∃ i, fs !! p = Some i ∧ is_regular i = true.
Proof.
  unfold listing, below. rewrite list_elem_of_filter, list_elem_of_fmap.
  intros [(Hpre & Hne & _) ([q i] & -> & Hin)]. split; [done|].
  apply elem_of_map_to_list in Hin. rewrite regular_files_lookup in Hin.
  simpl. destruct (fs !! q) as [j|]; [|done].
  destruct (is_regular j) eqn:Hr; [|done]. injection Hin as ->. eauto.
Qed.

Lemma walk_sound (fs : filesystem) (src_directory p : path) :
  p ∈ walk fs src_directory →
  below src_directory p ∧ ∃ i, fs !! p = Some i ∧ is_regular i = true.
Proof. rewrite walk_listing. apply listing_sound. Qed.

(** The snapshot, as a list. *)
Lemma collect_all_files_returns (src_directory : path) (verbose : bool)
    (w : world) :
  ∃ files,
    (collect_all_files src_directory verbose w).1 = Returned files ∧
    NoDup files ∧
    (∀ f, f ∈ files → f ∈ walk (w_fs w) src_directory) ∧
    (fs_is_directory (w_fs w) src_directory = false → files = []).
Proof.
  rewrite collect_all_files_value. cbv zeta. eexists. split; [done|].
  destruct (fs_is_directory (w_fs w) src_directory).
  - split_and!; [apply NoDup_walk|done..].
  - split_and!; [apply NoDup_nil_2| |done]. by intros f ?%elem_of_nil.
Qed.

Lemma run_conserves (src_directory : path) (attr : TimeAttribute)
    (thresholds : SizeThresholds) (dry_run verbose : bool) (w : world) :
  let fs' := w_fs (move_files_by_extension_and_metadata src_directory attr
                     thresholds dry_run verbose w).2 in
  inodes fs' ≡ₚ inodes (w_fs w) ∧
  ∀ files p j,
    (collect_all_files src_directory verbose w).1 = Returned files →
    w_fs w !! p = Some j → p ∉ files → fs' !! p = Some j.
Proof.
  cbv zeta. destruct dry_run.
  { by rewrite dry_run_frame. }
  unfold move_files_by_extension_and_metadata.
  destruct (collect_all_files_returns src_directory verbose w)
    as (files & Hfiles & Hnd & Hsub & _).
  pose proof (collect_all_files_frame src_directory verbose w) as [Hfs _].
  destruct (collect_all_files src_directory verbose w) as [r w0] eqn:Hc.
  simpl in Hfiles, Hfs. subst r.
  erewrite bind_returned by done. rewrite <-Hfs.
  destruct (for_each_conserves src_directory attr thresholds verbose files w0
              Hnd) as [H1 H2].
  { intros f Hf. rewrite Hfs. by apply Hsub, walk_sound in Hf as [_ ?]. }
  split; [done|]. intros files' p j [= <-]. apply H2.
Qed.

(** X9. A run never loses, duplicates or overwrites a file, whatever fails
    and wherever an exception may end it: the regular files in the tree
    that the run leaves carry the same inodes as before it, each as often
    as before.  An inode is the contents with the birth time and the
    modification time, the things that a rename keeps; the access time,
    which reading the file for a comparison may advance, is not part of
    it. *)
Theorem run_keeps_every_file (src_directory : path) (attr : TimeAttribute)
    (thresholds : SizeThresholds) (dry_run verbose : bool) (w : world) :
  inodes (w_fs (move_files_by_extension_and_metadata src_directory attr
                  thresholds dry_run verbose w).2)
  ≡ₚ inodes (w_fs w).
Proof. apply run_conserves. Qed.

(** X10. A run leaves alone whatever it did not collect: such an entry is
    after the run where and what it was before.  This holds for every
    directory (none is removed, emptied ones stay) and for everything that
    is not below the source directory. *)
Theorem run_touches_collected_files_only (src_directory : path)
    (attr : TimeAttribute) (thresholds : SizeThresholds)
    (dry_run verbose : bool) (w : world) (p : path) (j : inode) :
  w_fs w !! p = Some j →
  let fs' := w_fs (move_files_by_extension_and_metadata src_directory attr
                     thresholds dry_run verbose w).2 in
  (∃ files, (collect_all_files src_directory verbose w).1 = Returned files ∧
            (p ∉ files → fs' !! p = Some j)) ∧
  (is_directory j = true → fs' !! p = Some j) ∧
  (¬ below src_directory p → fs' !! p = Some j).
Proof.
  intros Hp. cbv zeta.
  destruct (run_conserves src_directory attr thresholds dry_run verbose w)
    as [_ Hkeep].
  destruct (collect_all_files_returns src_directory verbose w)
    as (files & Hfiles & _ & Hsub & _).
  split_and!.
  - exists files. split; [done|]. by apply Hkeep.
  - intros Hdir. apply (Hkeep files); [done..|].
    intros (_ & i & Hi & Hr)%Hsub%walk_sound.
    rewrite Hp in Hi. injection Hi as ->.
    by destruct (regular_not_directory i).
  - intros Hnot. apply (Hkeep files); [done..|].
    by intros [? _]%Hsub%walk_sound.
Qed.

(** X11. Verbose mode changes the console only: a verbose and a quiet run
    from the same tree and clock leave the same tree, and end the same way. *)
Theorem verbosity_changes_console_only (src_directory : path)
    (attr : TimeAttribute) (thresholds : SizeThresholds)
    (dry_run verbose verbose' : bool) (w w' : world) :
  w_fs w = w_fs w' → w_clock w = w_clock w' →
  w_fs (move_files_by_extension_and_metadata src_directory attr thresholds
          dry_run verbose w).2
  = w_fs (move_files_by_extension_and_metadata src_directory attr thresholds
            dry_run verbose' w').2 ∧
  (move_files_by_extension_and_metadata src_directory attr thresholds
     dry_run verbose w).1
  = (move_files_by_extension_and_metadata src_directory attr thresholds
       dry_run verbose' w').1.
Proof.
  intros Hfs Hc.
  by destruct (alike_run src_directory attr thresholds dry_run verbose verbose'
                 w w') as [? [? _]].
Qed.


(** X13. [move_file] returns [false] only for a rename that threw: then
    it is a real run, the tree is unchanged and the last line printed is the
    error for that source.  Every skip, every dry-run report and every move
    that went through returns [true] without a failure line.  When it does
    not return, an existence check has thrown on a path whose status cannot
    be read, and nothing was changed or printed. *)
Theorem move_file_result (source_file target_file : path)
    (dry_run verbose : bool) (w : world) :
  let b := (move_file source_file target_file dry_run verbose w).1 in
  let w' := (move_file source_file target_file dry_run verbose w).2 in
  (b = Returned false →
     dry_run = false ∧ w_fs w' = w_fs w ∧
     ∃ final_target,
       rename (w_fs w) source_file final_target = None ∧
       w_out w' = w_out w ++ [ErrMove source_file final_target]) ∧
  (b = Returned true →
     ∃ msgs, emitted w w' msgs ∧ Forall (λ m, is_failure m = false) msgs) ∧
  (∀ p, b = Uncaught p → faulty (sys_status p) = true ∧ w' = w).
Proof.
  cbv zeta.
  destruct (move_file_decision source_file target_file verbose w)
    as [(msgs & H)|[(p & Hbad & H)|(final & _ & _ & H)]].
  - destruct (H dry_run) as [-> Hmsgs]. simpl. split_and!; [done| |done].
    intros _. exists msgs. split; [done|].
    destruct Hmsgs as [-> | [-> | ->]]; by repeat constructor.
  - rewrite H. simpl. split_and!; [done..|]. by intros p' [= <-].
  - rewrite H. destruct dry_run.
    + rewrite commit_dry_run. simpl. split_and!; [done| |done]. intros _.
      eexists. split; [done|]. by repeat constructor.
    + destruct (rename (w_fs w) source_file final) as [fs'|] eqn:Hren.
      * rewrite (commit_success _ _ _ _ _ Hren). simpl.
        split_and!; [done| |done].
        intros _. eexists. split; [done|]. destruct verbose; by repeat constructor.
      * rewrite (commit_failure _ _ _ _ Hren). simpl. split_and!; [|done..].
        intros _. split_and!; [done..|]. by exists final.
Qed.

(** *** Numbered names *)

Lemma stem_extension (name : string) : stem name +:+ extension name = name.
Proof.
  unfold stem, extension. case_decide; [apply string_app_nil_r|].
  destruct (split_last_dot name) as [[[|c pre] ext]|] eqn:Hs;
    try apply string_app_nil_r.
  by apply split_last_dot_Some in Hs as [-> _].
Qed.

(** X14. The candidates [stem_1.ext], [stem_2.ext], ... of a target are
    pairwise different, none of them is the target itself, all of them lie in
    the directory of the target, and the stem and the extension they are
    built from make up the name of the target: a candidate is the target
    name with [_N] put in front of its extension. *)
Theorem numbered_candidates (target_file : path) (n m : Z) :
  (numbered target_file n = numbered target_file m → n = m) ∧
  numbered target_file n ≠ target_file ∧
  parent_path (numbered target_file n) = parent_path target_file ∧
  stem (filename target_file) +:+ extension (filename target_file)
    = filename target_file.
Proof.
  split_and!.
  - apply (inj (numbered target_file)).
  - rewrite numbered_unfold. intros Heq.
    assert (filename target_file = numbered_name (filename target_file) n) as Hname.
    { rewrite <-Heq at 1. by rewrite filename_snoc. }
    apply (f_equal String.length) in Hname.
    rewrite <-(stem_extension (filename target_file)) in Hname at 1.
    unfold numbered_name in Hname. rewrite !string_length_app in Hname.
    simpl in Hname. lia.
  - by rewrite numbered_unfold, parent_path_snoc.
  - apply stem_extension.
Qed.

(** *** The image filter *)

Lemma lowercase_ascii_period (c : ascii) :
  lowercase_ascii c = "."%char ↔ c = "."%char.
Proof. destruct c as [[] [] [] [] [] [] [] []]; vm_compute; split; congruence. Qed.

Lemma split_last_dot_lowercase (s : string) :
  split_last_dot (lowercase s) =
    prod_map lowercase lowercase <$> split_last_dot s.
Proof.
  induction s as [|c s IH]; [done|].
  simpl. rewrite IH. destruct (split_last_dot s) as [[pre ext]|]; simpl; [done|].
  destruct (decide (c = "."%char)) as [Hc|Hc].
  - rewrite decide_True by by apply lowercase_ascii_period. done.
  - rewrite decide_False; [done|]. by rewrite lowercase_ascii_period.
Qed.

Lemma lowercase_special (s : string) :
  (lowercase s = "." ∨ lowercase s = "..") ↔ (s = "." ∨ s = "..").
Proof.
  split.
  - destruct s as [|c1 [|c2 [|c3 s]]]; simpl; intros [H|H]; try discriminate.
    + injection H as H. apply (proj1 (lowercase_ascii_period _)) in H.
      left. by subst.
    + injection H as H1 H2.
      apply (proj1 (lowercase_ascii_period _)) in H1.
      apply (proj1 (lowercase_ascii_period _)) in H2.
      right. by subst.
  - intros [-> | ->]; [by left|by right].
Qed.

Lemma extension_lowercase (s : string) :
  extension (lowercase s) = lowercase (extension s).
Proof.
  unfold extension.
  destruct (decide (s = "." ∨ s = "..")) as [Hs|Hs].
  - rewrite decide_True by by apply lowercase_special. done.
  - rewrite decide_False by by rewrite lowercase_special.
    rewrite split_last_dot_lowercase.
    by destruct (split_last_dot s) as [[[|c pre] ext]|].
Qed.

Lemma lowercase_idemp (s : string) : lowercase (lowercase s) = lowercase s.
Proof.
  induction s as [|c s IH]; [done|]. simpl. rewrite IH. f_equal.
  destruct c as [[] [] [] [] [] [] [] []]; by vm_compute.
Qed.

(** X15. [is_image] does not care about letter case anywhere in the file
    name, and not about the directory: two paths whose file names agree up
    to case are both images or both not.  A name without extension, such as
    a dotfile, is never an image. *)
Theorem is_image_case_insensitive (p q : path) :
  (lowercase (filename p) = lowercase (filename q) → is_image p = is_image q) ∧
  is_image (parent_path p ++ [lowercase (filename p)]) = is_image p ∧
  (extension (filename p) = "" → is_image p = false).
Proof.
  assert (∀ p q, lowercase (filename p) = lowercase (filename q) →
                 is_image p = is_image q) as H.
  { intros p' q' Heq. unfold is_image.
    by rewrite <-!extension_lowercase, Heq. }
  split_and!.
  - apply H.
  - apply H. by rewrite filename_snoc, lowercase_idemp.
  - intros Hext. unfold is_image. rewrite Hext. done.
Qed.

(** *** The tree after a first run *)

(** X16. What a run achieves.  Take a well-formed tree with steady dates
    whose source is a directory, and a real run by creation or modification
    time with no failing call, whose verbose report shows no failure and no
    skipped duplicate.  The run returns and leaves every regular file below
    the source directory settled: it lies in
    [source/<extension>/<YYYY>/<MM>/<DD>/<size>] as computed from its own
    name, the date of its modification time and its size, under its own
    name, and that at whatever time and from whatever path the date is
    looked up again.  The tree is still well-formed and its dates are still
    steady.  The order of the walk makes no difference. *)
Theorem first_run_organizes (src_directory : path) (attr : TimeAttribute)
    (thresholds : SizeThresholds) (verbose : bool) (w : world)
    (msgs : list message) :
  (∀ s, faulty s = false) →
  attr ≠ Access →
  well_formed (w_fs w) → steady (w_fs w) →
  fs_is_directory (w_fs w) src_directory = true →
  emitted w (move_files_by_extension_and_metadata src_directory attr
               thresholds false true w).2 msgs →
  Forall (λ m, is_left_behind m = false) msgs →
  let r := move_files_by_extension_and_metadata src_directory attr
             thresholds false verbose w in
  r.1 = Returned tt ∧
  well_formed (w_fs r.2) ∧ steady (w_fs r.2) ∧
  ∀ p i clock,
    w_fs r.2 !! p = Some i → is_regular i = true → below src_directory p →
    settled src_directory thresholds clock (w_fs r.2) p.
Proof.
  intros no_faults Hattr Hwf Hst Hdir Hem Hclean. cbv zeta.
  destruct (clean_run_organizes no_faults src_directory attr thresholds
              verbose w msgs Hattr Hwf Hst Hdir Hem Hclean) as [Hret Horg].
  split_and!; [done|by destruct Horg..|].
  intros p i clock Hp Hr Hb.
  destruct (org_settled _ _ _ _ _ Horg p i Hp Hr Hb) as [?%elem_of_nil|Hs];
    [done|].
  eapply settled_steady; [by destruct Horg|done..].
Qed.

(** *** Creation time without birth times *)

Lemma alike_get_file_time_creation (p : path) :
  alike (get_file_time p Creation) (get_file_time p Modification).
Proof.
  pose proof (alike_case_Modification p) as Hmod.
  unfold get_file_time. destruct HAS_STATX; [|done].
  intros w w' Hag. unfold get_creation_time.
  change (((say (WarnCreationTime p);; case_Modification p) w).1
          = (case_Modification p w').1 ∧
          agree ((say (WarnCreationTime p);; case_Modification p) w).2
                (case_Modification p w').2).
  unfold mbind, M_bind, say. cbv beta iota.
  apply Hmod. by destruct Hag.
Qed.

Lemma alike_relocate_creation (src_directory : path)
    (thresholds : SizeThresholds) (dry_run v v' : bool) (f : path) :
  alike (relocate src_directory Creation thresholds dry_run v f)
        (relocate src_directory Modification thresholds dry_run v' f).
Proof.
  apply alike_bind; [apply alike_fs_exists|]. intros file_exists.
  destruct (negb file_exists); [apply alike_when|].
  apply alike_bind; [|intros target; apply alike_place].
  apply alike_bind; [|intros d; apply alike_ret].
  apply alike_bind; [apply alike_get_file_time_creation|]. intros t.
  apply alike_bind; [apply alike_get_fs|]. intros fs.
  apply alike_bind; [|intros n; apply alike_ret].
  destruct (file_size fs f); [apply alike_ret|].
  apply alike_bind; [apply alike_say|]. intros _. apply alike_ret.
Qed.

(** X17. [statx] is called with [AT_STATX_SYNC_TYPE] for its flags, which
    the call rejects, so that it gives no birth time for any file.  Where
    [statx] gives no birth time for any collected file, organising by
    creation time is organising by modification time: both runs leave the
    same tree, and end the same way. *)
Theorem creation_without_birth_times (src_directory : path)
    (thresholds : SizeThresholds) (dry_run verbose verbose' : bool)
    (w : world) :
  (∀ f, statx_btime (w_fs w) f = None) ∧
  ((∀ files f,
      (collect_all_files src_directory verbose w).1 = Returned files →
      f ∈ files → statx_btime (w_fs w) f = None) →
   w_fs (move_files_by_extension_and_metadata src_directory Creation
           thresholds dry_run verbose w).2
   = w_fs (move_files_by_extension_and_metadata src_directory Modification
             thresholds dry_run verbose' w).2 ∧
   (move_files_by_extension_and_metadata src_directory Creation
      thresholds dry_run verbose w).1
   = (move_files_by_extension_and_metadata src_directory Modification
        thresholds dry_run verbose' w).1).
Proof.
  split; [done|]. intros _.
  assert (alike
    (move_files_by_extension_and_metadata src_directory Creation
       thresholds dry_run verbose)
    (move_files_by_extension_and_metadata src_directory Modification
       thresholds dry_run verbose')) as Hrun.
  { apply alike_bind; [apply alike_collect_all_files|].
    intros files. apply alike_for_each. intros f.
    apply alike_relocate_creation. }
  by destruct (Hrun w w) as [? [? _]].
Qed.

End Organizer.

(** ** The properties on the sample trees *)

Lemma categorize_size_correct_witness :
  categorize_size (small default_thresholds - 1) default_thresholds = "small" ∧
  categorize_size (small default_thresholds) default_thresholds = "medium" ∧
  categorize_size (medium default_thresholds - 1) default_thresholds = "medium" ∧
  categorize_size (medium default_thresholds) default_thresholds = "large".
Proof.
  destruct (categorize_size_correct 0 default_thresholds) as (_ & _ & _ & _ & H).
  apply H; reflexivity.
Defined.

Lemma get_file_time_fallback_witness :
  (get_file_time true never_faulty accessed_now hundred_ns
     ["src"; "old.log"] Creation (boot oddities)).1 =
  (get_file_time true never_faulty accessed_now hundred_ns
     ["src"; "old.log"] Modification (boot oddities)).1 ∧
  get_file_time true never_faulty accessed_now hundred_ns
     ["src"; "old.log"] Modification (boot oddities) =
  (Returned (day1 - 100), boot oddities).
Proof.
  destruct (get_file_time_fallback true never_faulty accessed_now hundred_ns
              ["src"; "old.log"] Creation (boot oddities))
    as (_ & H & _ & _ & _ & Hmod & _).
  split.
  - destruct H as [_ H]; [reflexivity..|]. exact H.
  - apply (Hmod (file_without_birth_time "entry" day1)); reflexivity.
Defined.


(** The newcomer has a name of 255 bytes and other bytes than the file in
    its place: the check of [stem_1.txt], two bytes longer, throws. *)
Lemma move_file_disambiguates_witness :
  move_file name_too_long ["src"; "a"; long_name] (bucket ++ [long_name])
    false true (boot long_rivals)
  = (Uncaught (numbered (bucket ++ [long_name]) 1), boot long_rivals).
Proof.
  destruct (move_file_disambiguates name_too_long ["src"; "a"; long_name]
              (bucket ++ [long_name]) false true (boot long_rivals))
    as (n & final & _ & Hfinal & _ & Hone & _ & Hthrow & _).
  - discriminate.
  - vm_compute. reflexivity.
  - eexists. vm_compute. reflexivity.
  - vm_compute. discriminate.
  - rewrite Hone in Hfinal by (vm_compute; reflexivity).
    rewrite Hfinal in Hthrow. apply Hthrow. vm_compute. reflexivity.
Defined.

Lemma target_directory_shape_witness :
  (target_directory true utc_calendar never_faulty accessed_now hundred_ns
     ["src"] ["src"; "y.TXT"] Modification default_thresholds (boot oddities)).1
  = Returned ["src"; "TXT"; "2023"; "11"; "14"; "small"].
Proof.
  destruct (target_directory_shape true utc_calendar never_faulty accessed_now
              hundred_ns ["src"] ["src"; "y.TXT"] Modification
              default_thresholds (boot oddities)) as (t & Ht & Hd).
  - vm_compute. discriminate.
  - vm_compute in Ht. injection Ht as <-. rewrite Hd. vm_compute. reflexivity.
Defined.



(** The directory [src/txt] cannot be searched: the existence check of the
    directory for [a.txt] throws and [b.log] is never looked at. *)
Lemma partial_failure_containment_witness :
  for_each
    (relocate true utc_calendar (no_search_permission ["src"; "txt"])
       accessed_now hundred_ns ["src"] Modification default_thresholds
       false true)
    [["src"; "a.txt"]; ["src"; "b.log"]] (boot two_kinds)
  = (Uncaught bucket, boot two_kinds).
Proof.
  destruct (partial_failure_containment true utc_calendar
              (no_search_permission ["src"; "txt"]) accessed_now hundred_ns
              ["src"] Modification default_thresholds true
              [["src"; "a.txt"]; ["src"; "b.log"]] (boot two_kinds))
    as (_ & _ & _ & _ & H & _).
  destruct (H ["src"; "a.txt"] [["src"; "b.log"]] bucket (boot two_kinds))
    as [H1 _].
  - reflexivity.
  - vm_compute. reflexivity.
  - eexists. vm_compute. reflexivity.
  - vm_compute. reflexivity.
  - vm_compute. reflexivity.
  - exact H1.
Defined.


Lemma second_run_changes_nothing_witness :
  let first :=
    (move_files_by_extension_and_metadata true utc_calendar never_faulty
       accessed_now hundred_ns (listing never_faulty)
       ["src"] Modification default_thresholds false true (boot rivals)).2 in
  let second :=
    move_files_by_extension_and_metadata true utc_calendar never_faulty
      accessed_now hundred_ns (listing never_faulty)
      ["src"] Modification default_thresholds false true first in
  second.1 = Returned tt ∧ w_fs second.2 = w_fs first.
Proof.
  intros first second.
  destruct (second_run_changes_nothing true utc_calendar never_faulty
              accessed_now hundred_ns (listing never_faulty)
              (λ fs src_directory, Permutation_refl _) (λ _, eq_refl)
              ["src"] Modification default_thresholds true true
              (boot rivals) (w_out first) first) as (H1 & H2 & _).
  - discriminate.
  - unfold well_formed. apply (bool_decide_unpack _). vm_compute. exact I.
  - intros p i _ _ q c q' c'. reflexivity.
  - split; reflexivity.
  - apply (bool_decide_unpack _). vm_compute. exact I.
  - reflexivity.
  - split; [exact H1|exact H2].
Defined.

(** ** Where the code departs from the specification *)

(** C1, as stated, fails on [duplicates]: the second run finds the
    duplicate where the first run left it and skips it again as identical,
    so not every file is reported as already in place. *)
Lemma second_run_reports_duplicate :
  let first :=
    (move_files_by_extension_and_metadata true utc_calendar never_faulty
       accessed_now hundred_ns (listing never_faulty)
       ["src"] Modification default_thresholds false true (boot duplicates)).2 in
  let second :=
    (move_files_by_extension_and_metadata true utc_calendar never_faulty
       accessed_now hundred_ns (listing never_faulty)
       ["src"] Modification default_thresholds false true (boot (w_fs first))).2 in
  (collect_all_files (listing never_faulty) ["src"] true (boot (w_fs first))).1
    = Returned [bucket ++ ["x.txt"]; ["src"; "a"; "x.txt"]] ∧
  w_out second =
    [Collected 2; SkipAlreadyCorrect (bucket ++ ["x.txt"]);
     SkipIdentical ["src"; "a"; "x.txt"]] ∧
  SkipAlreadyCorrect ["src"; "a"; "x.txt"] ∉ w_out second.
Proof.
  intros first second.
  assert (w_out second =
    [Collected 2; SkipAlreadyCorrect (bucket ++ ["x.txt"]);
     SkipIdentical ["src"; "a"; "x.txt"]]) as Hout by (vm_compute; reflexivity).
  split_and!; [vm_compute; reflexivity|exact Hout|].
  rewrite Hout. intros Hin.
  repeat (apply elem_of_cons in Hin as [Hin|Hin];
          [vm_compute in Hin; discriminate Hin|]).
  by apply elem_of_nil in Hin.
Qed.

(** On [misplaced] the second run even moves a file: the first run skipped
    it as a duplicate of a file that it then moved away. *)
Lemma second_run_can_move :
  let first :=
    (move_files_by_extension_and_metadata true utc_calendar never_faulty
       accessed_now hundred_ns (listing never_faulty)
       ["src"] Modification default_thresholds false true (boot misplaced)).2 in
  let second :=
    (move_files_by_extension_and_metadata true utc_calendar never_faulty
       accessed_now hundred_ns (listing never_faulty)
       ["src"] Modification default_thresholds false true (boot (w_fs first))).2 in
  performed_moves (w_out second) =
    [(["src"; "zz"; "x.txt"], bucket ++ ["x.txt"])] ∧
  w_fs second ≠ w_fs first.
Proof.
  split; [vm_compute; reflexivity|].
  apply (bool_decide_unpack _). vm_compute. exact I.
Qed.

(** C5, as stated, fails on [y.TXT]: the directory is [TXT], not [txt]. *)
Lemma target_directory_keeps_case :
  (target_directory true utc_calendar never_faulty accessed_now hundred_ns
     ["src"] ["src"; "y.TXT"] Modification default_thresholds (boot oddities)).1
    = Returned ["src"; "TXT"; "2023"; "11"; "14"; "small"] ∧
  (target_directory true utc_calendar never_faulty accessed_now hundred_ns
     ["src"] ["src"; "y.TXT"] Modification default_thresholds (boot oddities)).1
    ≠ Returned
        ["src"; spec_extension_segment "y.TXT"; "2023"; "11"; "14"; "small"].
Proof. split; [vm_compute; reflexivity|vm_compute; discriminate]. Qed.

(** For a name that ends in a period [has_extension] holds and [substr(1)]
    of the extension is empty: appending the empty segment changes nothing,
    and the file is put one level higher than every other file. *)
Lemma target_directory_trailing_period :
  (target_directory true utc_calendar never_faulty accessed_now hundred_ns
     ["src"] ["src"; "foo."] Modification default_thresholds (boot oddities)).1
    = Returned ["src"; "2023"; "11"; "14"; "small"].
Proof. vm_compute. reflexivity. Qed.



(** ** Sample runs *)

(** Both rivals exist after a real run, the second as [x_1.txt]. *)
Example rivals_both_kept :
  let real :=
    (move_files_by_extension_and_metadata true utc_calendar never_faulty
       accessed_now hundred_ns (listing never_faulty)
       ["src"] Modification default_thresholds false false (boot rivals)).2 in
  w_fs real !! (bucket ++ ["x.txt"]) = Some (file "world" day1) ∧
  w_fs real !! (bucket ++ ["x_1.txt"]) = Some (file "hello" day1) ∧
  extension "x_1.txt" = ".txt".
Proof. split_and!; vm_compute; reflexivity. Qed.

(** Walked the other way round, the rivals end up with their names
    exchanged. *)
Example rivals_other_way_round :
  let real :=
    (move_files_by_extension_and_metadata true utc_calendar never_faulty
       accessed_now hundred_ns (λ fs src, reverse (listing never_faulty fs src))
       ["src"] Modification default_thresholds false false (boot rivals)).2 in
  w_fs real !! (bucket ++ ["x.txt"]) = Some (file "hello" day1) ∧
  w_fs real !! (bucket ++ ["x_1.txt"]) = Some (file "world" day1).
Proof. split_and!; vm_compute; reflexivity. Qed.

(** Of two duplicates one arrives, the other stays where it was. *)
Example duplicates_one_kept :
  let real :=
    (move_files_by_extension_and_metadata true utc_calendar never_faulty
       accessed_now hundred_ns (listing never_faulty)
       ["src"] Modification default_thresholds false false (boot duplicates)).2 in
  w_fs real !! (bucket ++ ["x.txt"]) = Some (file "hello" day1) ∧
  w_fs real !! ["src"; "a"; "x.txt"] = Some (file "hello" day1) ∧
  w_fs real !! (bucket ++ ["x_1.txt"]) = None.
Proof. split_and!; vm_compute; reflexivity. Qed.

(** A rename that throws for the first file does not keep the second one
    from being moved. *)
Example failure_then_move :
  w_out (move_files_by_extension_and_metadata true utc_calendar
           (rename_fails_for ["src"; "b"; "x.txt"]) accessed_now hundred_ns
           (listing (rename_fails_for ["src"; "b"; "x.txt"]))
           ["src"] Modification default_thresholds false true (boot rivals)).2 =
    [Collected 2; CreatedDirectory bucket;
     ErrMove ["src"; "b"; "x.txt"] (bucket ++ ["x.txt"]);
     Moved ["src"; "a"; "x.txt"] (bucket ++ ["x.txt"])].
Proof. vm_compute. reflexivity. Qed.

(** A directory that cannot be created does not keep the next file from
    being moved either. *)
Example directory_failure_then_move :
  w_out (move_files_by_extension_and_metadata true utc_calendar
           (mkdir_fails_for bucket) accessed_now hundred_ns
           (listing (mkdir_fails_for bucket))
           ["src"] Modification default_thresholds false true (boot two_kinds)).2 =
    [Collected 2; ErrCreateDirectory bucket;
     CreatedDirectory ["src"; "log"; "2023"; "11"; "14"; "small"];
     Moved ["src"; "b.log"]
       ["src"; "log"; "2023"; "11"; "14"; "small"; "b.log"]].
Proof. vm_compute. reflexivity. Qed.

(** An existence check that throws ends the batch: with [src/txt] closed
    to search, the check of the directory for [a.txt] throws after the
    count was printed, and [b.log] stays where it was. *)
Example unreadable_status_ends_the_batch :
  let r :=
    move_files_by_extension_and_metadata true utc_calendar
      (no_search_permission ["src"; "txt"]) accessed_now hundred_ns
      (listing (no_search_permission ["src"; "txt"]))
      ["src"] Modification default_thresholds false true (boot two_kinds) in
  r.1 = Uncaught bucket ∧ w_out r.2 = [Collected 2] ∧ w_fs r.2 = two_kinds.
Proof.
  intros r. split_and!; [vm_compute; reflexivity..|].
  apply (bool_decide_unpack _). vm_compute. exact I.
Qed.

(** So does the check of a numbered name that is too long. *)
Example long_name_ends_the_batch :
  let r :=
    move_files_by_extension_and_metadata true utc_calendar name_too_long
      accessed_now hundred_ns (listing name_too_long)
      ["src"] Modification default_thresholds false true (boot long_rivals) in
  String.length long_name = 255%nat ∧
  r.1 = Uncaught (numbered (bucket ++ [long_name]) 1) ∧
  w_fs r.2 = long_rivals.
Proof.
  intros r. split_and!; [vm_compute; reflexivity..|].
  apply (bool_decide_unpack _). vm_compute. exact I.
Qed.

(** A file whose size cannot be read is moved into [small]. *)
Example unreadable_size_moved_to_small :
  let real :=
    (move_files_by_extension_and_metadata true utc_calendar
       (size_fails_for ["src"; "a"; "x.txt"]) accessed_now hundred_ns
       (listing (size_fails_for ["src"; "a"; "x.txt"]))
       ["src"] Modification {| small := 1; medium := 3 |} false false
       (boot rivals)).2 in
  w_fs real !! (bucket ++ ["x.txt"]) = Some (file "hello" day1) ∧
  w_fs real !! ["src"; "txt"; "2023"; "11"; "14"; "large"; "x.txt"]
    = Some (file "world" day1).
Proof. split; vm_compute; reflexivity. Qed.

(** A file last written at midnight sharp on 15 November is filed under the
    14th: the file clock is read after the system clock. *)
Example midnight_filed_under_previous_day :
  put_time_Ymd (utc_calendar (to_time_t midnight)) = ["2023"; "11"; "15"] ∧
  w_out (move_files_by_extension_and_metadata true utc_calendar never_faulty
           accessed_now hundred_ns (listing never_faulty)
           ["src"] Modification default_thresholds false true
           (boot at_midnight)).2 =
    [Collected 1; CreatedDirectory bucket;
     Moved ["src"; "new.txt"] (bucket ++ ["new.txt"])].
Proof. split; vm_compute; reflexivity. Qed.

(** When the delay between the clock reads is not the same in both runs,
    the second run files such a file under the other day. *)
Example midnight_second_run_moves :
  let run := λ w,
    move_files_by_extension_and_metadata true utc_calendar never_faulty
      accessed_now jitter (listing never_faulty)
      ["src"] Modification default_thresholds false true w in
  let first := (run (boot at_midnight)).2 in
  let second :=
    (run {| w_fs := w_fs first; w_clock := day2 + 100; w_out := [] |}).2 in
  performed_moves (w_out first) =
    [(["src"; "new.txt"], ["src"; "txt"; "2023"; "11"; "15"; "small"; "new.txt"])] ∧
  performed_moves (w_out second) =
    [(["src"; "txt"; "2023"; "11"; "15"; "small"; "new.txt"],
      bucket ++ ["new.txt"])].
Proof. split; vm_compute; reflexivity. Qed.

(** By access time nothing keeps a second run from moving what the first
    run placed: when a file was read in between, as a comparison in
    [move_file] reads it, [stat] reports a later time. *)
Example access_time_second_run_moves :
  let run := λ w,
    move_files_by_extension_and_metadata true utc_calendar never_faulty
      accessed_now hundred_ns (listing never_faulty)
      ["src"] Access default_thresholds false true w in
  let first := (run {| w_fs := two_kinds; w_clock := day1; w_out := [] |}).2 in
  let second :=
    (run {| w_fs := w_fs first; w_clock := day2; w_out := [] |}).2 in
  performed_moves (w_out second) =
    [(["src"; "txt"; "2023"; "11"; "14"; "small"; "a.txt"],
      ["src"; "txt"; "2024"; "03"; "09"; "small"; "a.txt"]);
     (["src"; "log"; "2023"; "11"; "14"; "small"; "b.log"],
      ["src"; "log"; "2024"; "03"; "09"; "small"; "b.log"])].
Proof. vm_compute. reflexivity. Qed.

Example extension_examples :
  extension "a.txt" = ".txt" ∧ extension ".bashrc" = "" ∧
  extension "foo." = "." ∧ extension ".." = "" ∧ extension "a.b.c" = ".c" ∧
  stem "a.b.c" = "a.b" ∧ stem ".bashrc" = ".bashrc" ∧ stem "foo." = "foo" ∧
  extension "..a" = ".a" ∧ stem "..a" = ".".
Proof. repeat split. Qed.

(** ** The further properties on samples *)

Lemma parse_size_numeral_witness :
  parse_size (pretty 5%N) = Some (5 * 1048576)%N.
Proof.
  destruct (parse_size_numeral 5) as (_ & H & _). apply H. reflexivity.
Defined.

Lemma parse_size_ignores_trailing_text_witness :
  parse_size (pretty 5%N +:+ "MB") = parse_size (pretty 5%N).
Proof. apply parse_size_ignores_trailing_text. reflexivity. Defined.

Lemma parse_size_needs_digits_witness : parse_size "ten" = None.
Proof.
  destruct parse_size_needs_digits as (_ & H & _).
  apply H; [reflexivity|reflexivity|discriminate|discriminate].
Defined.

Lemma parse_size_negative_witness :
  parse_size ("-" +:+ pretty 1%N) = Some (((2 ^ 64 - 1) * 1048576) mod 2 ^ 64)%N.
Proof. apply parse_size_negative; reflexivity. Defined.

Lemma option_loop_app_witness :
  ∃ o2, option_loop ([GetoptSmall "1"; GetoptDryRun] ++ [GetoptSmall "2"])
          initial_options = inr o2 ∧
        small (opt_thresholds o2) = 2097152%N.
Proof.
  destruct (option_loop_app [GetoptSmall "1"; GetoptDryRun] [] initial_options)
    as [_ H].
  destruct (H (with_thresholds
                 {| opt_verbose := false; opt_dry_run := true; opt_attr := Creation;
                    opt_thresholds := default_thresholds; opt_source := None |}
                 {| small := 1048576; medium := 10485760 |}) "2" 2097152%N)
    as (o2 & H1 & H2 & _); [reflexivity..|].
  exists o2. split; [exact H1|exact H2].
Defined.

Lemma option_loop_first_stop_witness :
  option_loop ([GetoptVerbose] ++ GetoptTime "yesterday" :: [GetoptHelp])
    initial_options = inl (ExitInvalidTime "yesterday").
Proof.
  destruct (option_loop_first_stop [GetoptVerbose] [GetoptHelp]
              (GetoptTime "yesterday") (ExitInvalidTime "yesterday")
              initial_options) as [H _].
  - repeat constructor.
  - reflexivity.
  - exact H.
Defined.


Example program_ended_by_exception :
  program true utc_calendar (no_search_permission ["src"; "txt"])
    accessed_now hundred_ns (listing (no_search_permission ["src"; "txt"]))
    [GetoptTime "modification"; GetoptVerbose] (Some ["src"]) (boot two_kinds)
  = inr (Uncaught bucket,
         {| w_fs := two_kinds; w_clock := day2;
            w_out := [Banner ["src"] false Modification default_thresholds;
                      Collected 2] |}).
Proof.
  match goal with |- ?p = inr (?r, ?w) =>
    assert (∃ r' w', p = inr (r', w') ∧ r' = r ∧ w_out w' = w_out w ∧
                     w_clock w' = w_clock w ∧ w_fs w' = w_fs w)
      as (r' & [fs c o] & -> & -> & Ho & Hc & Hfs)
  end.
  { eexists _, _. split; [reflexivity|].
    split_and!; [vm_compute; reflexivity..|].
    apply (bool_decide_unpack _). vm_compute. exact I. }
  simpl in *. by subst.
Qed.

Lemma categorize_size_monotone_witness :
  categorize_size 7 {| small := 9; medium := 5 |} ≠ "medium".
Proof.
  destruct (categorize_size_monotone 7 7 {| small := 9; medium := 5 |}) as [_ H].
  apply H. vm_compute. discriminate.
Defined.

(** Walked in the reverse order, too. *)
Lemma run_keeps_every_file_witness :
  inodes (w_fs (move_files_by_extension_and_metadata true utc_calendar
                  never_faulty accessed_now hundred_ns
                  (λ fs src, reverse (listing never_faulty fs src))
                  ["src"] Modification default_thresholds false false
                  (boot rivals)).2)
  ≡ₚ inodes rivals.
Proof.
  apply (run_keeps_every_file true utc_calendar never_faulty accessed_now
           hundred_ns (λ fs src, reverse (listing never_faulty fs src))
           (λ fs src, reverse_Permutation _)).
Defined.

Lemma run_touches_collected_files_only_witness :
  w_fs (move_files_by_extension_and_metadata true utc_calendar never_faulty
          accessed_now hundred_ns (listing never_faulty)
          ["src"] Modification default_thresholds false false (boot rivals)).2
    !! ["src"; "a"] = Some dir.
Proof.
  destruct (run_touches_collected_files_only true utc_calendar never_faulty
              accessed_now hundred_ns (listing never_faulty)
              (λ fs src, Permutation_refl _)
              ["src"] Modification default_thresholds false false (boot rivals)
              ["src"; "a"] dir) as (_ & H & _).
  - reflexivity.
  - apply H. reflexivity.
Defined.

Lemma verbosity_changes_console_only_witness :
  w_fs (move_files_by_extension_and_metadata true utc_calendar never_faulty
          accessed_now hundred_ns (listing never_faulty)
          ["src"] Modification default_thresholds false true (boot rivals)).2
  = w_fs (move_files_by_extension_and_metadata true utc_calendar never_faulty
            accessed_now hundred_ns (listing never_faulty)
            ["src"] Modification default_thresholds false false (boot rivals)).2.
Proof.
  destruct (verbosity_changes_console_only true utc_calendar never_faulty
              accessed_now hundred_ns (listing never_faulty)
              ["src"] Modification default_thresholds false true false
              (boot rivals) (boot rivals)) as [H _]; [reflexivity..|].
  exact H.
Defined.


Lemma move_file_result_witness :
  w_fs (move_file (rename_fails_for ["src"; "b"; "x.txt"]) ["src"; "b"; "x.txt"]
          ["src"; "x.txt"] false true (boot rivals)).2 = rivals.
Proof.
  destruct (move_file_result (rename_fails_for ["src"; "b"; "x.txt"])
              ["src"; "b"; "x.txt"] ["src"; "x.txt"] false true (boot rivals))
    as [H _].
  destruct H as (_ & H & _); [vm_compute; reflexivity|]. exact H.
Defined.

Lemma numbered_candidates_witness :
  numbered (bucket ++ ["x.txt"]) 1 ≠ bucket ++ ["x.txt"].
Proof.
  destruct (numbered_candidates (bucket ++ ["x.txt"]) 1 2) as (_ & H & _).
  exact H.
Defined.

Lemma is_image_case_insensitive_witness :
  is_image ["album"; "Photo.JPG"] = is_image ["other"; "photo.jpg"].
Proof.
  destruct (is_image_case_insensitive ["album"; "Photo.JPG"] ["other"; "photo.jpg"])
    as [H _].
  apply H. reflexivity.
Defined.

Example parse_size_examples :
  parse_size "1" = Some 1048576%N ∧ parse_size " +20 MB" = Some 20971520%N ∧
  parse_size "17592186044416" = Some 0%N ∧
  parse_size "18446744073709551616" = None ∧ parse_size "MB" = None ∧
  parse_size "-1" = Some 18446744073708503040%N.
Proof. repeat split. Qed.

Example is_image_examples :
  is_image ["a"; "b.jpeg"] = true ∧ is_image ["a"; "b.TIFF"] = true ∧
  is_image ["a"; "b.tif"] = false ∧ is_image ["a"; ".png"] = false ∧
  is_image ["a"; "png"] = false.
Proof. repeat split. Qed.

(** After a first run by creation time, walked in the reverse order, the
    rival that came second is settled under its numbered name, at whatever
    time that is looked up. *)
Lemma first_run_organizes_witness :
  let fs' :=
    w_fs (move_files_by_extension_and_metadata true utc_calendar never_faulty
            accessed_now hundred_ns
            (λ fs src, reverse (listing never_faulty fs src))
            ["src"] Creation default_thresholds false false (boot rivals)).2 in
  settled utc_calendar hundred_ns ["src"] default_thresholds 0 fs'
    (bucket ++ ["x_1.txt"]).
Proof.
  intros fs'.
  destruct (first_run_organizes true utc_calendar never_faulty accessed_now
              hundred_ns (λ fs src, reverse (listing never_faulty fs src))
              (λ fs src, reverse_Permutation _)
              ["src"] Creation default_thresholds false (boot rivals)
              (w_out (move_files_by_extension_and_metadata true utc_calendar
                        never_faulty accessed_now hundred_ns
                        (λ fs src, reverse (listing never_faulty fs src))
                        ["src"] Creation default_thresholds
                        false true (boot rivals)).2)) as (_ & _ & _ & H).
  - reflexivity.
  - discriminate.
  - unfold well_formed. apply (bool_decide_unpack _). vm_compute. exact I.
  - intros p i _ _ q c q' c'. reflexivity.
  - reflexivity.
  - split; reflexivity.
  - apply (bool_decide_unpack _). vm_compute. exact I.
  - apply (H (bucket ++ ["x_1.txt"]) (file "world" day1)).
    + vm_compute. reflexivity.
    + reflexivity.
    + split; [by exists (tail bucket ++ ["x_1.txt"])|discriminate].
Defined.

Lemma creation_without_birth_times_witness :
  w_fs (move_files_by_extension_and_metadata true utc_calendar never_faulty
          accessed_now hundred_ns (listing never_faulty)
          ["src"] Creation default_thresholds false true (boot rivals)).2
  = w_fs (move_files_by_extension_and_metadata true utc_calendar never_faulty
            accessed_now hundred_ns (listing never_faulty)
            ["src"] Modification default_thresholds false false (boot rivals)).2.
Proof.
  destruct (creation_without_birth_times true utc_calendar never_faulty
              accessed_now hundred_ns (listing never_faulty)
              ["src"] default_thresholds false true false (boot rivals))
    as [Hnone H].
  destruct H as [H _]; [|exact H].
  intros files f _ _. apply Hnone.
Defined.

(** The files of [rivals] have birth times, and are filed by modification
    time all the same: with the warning, a run by creation time does what a
    run by modification time does. *)
Example creation_time_is_never_read :
  w_out (move_files_by_extension_and_metadata true utc_calendar never_faulty
           accessed_now hundred_ns (listing never_faulty)
           ["src"] Creation default_thresholds false true (boot rivals)).2 =
    [Collected 2; WarnCreationTime ["src"; "b"; "x.txt"];
     CreatedDirectory bucket;
     Moved ["src"; "b"; "x.txt"] (bucket ++ ["x.txt"]);
     WarnCreationTime ["src"; "a"; "x.txt"];
     Moved ["src"; "a"; "x.txt"] (bucket ++ ["x_1.txt"])].
Proof. vm_compute. reflexivity. Qed.
